(** * KindlePDF: the reflow pagination engine and the offset locator

    A shallow embedding of the PDF handler module (the revision that
    records character offsets per virtual page): [paginateContent]
    with its local helper [isTitleText], the setters, the navigation
    functions and [findPageForOffset], together with the string
    primitives of the host language they rely on; besides, the item
    loop of [extractAllText], the snippet functions
    [getCurrentPageContentSnippet] and [findPageForContent], the
    blocks [renderTextContent] draws, and the font button
    [adjustFontSize] of the application.  The operations are
    modelled twice: run to their end ([step], [reachable]), and cut
    at each [await] into the pieces that run without interruption
    ([segment], [observable]).  The themes module and the
    storage module follow: the first as a state with the events that
    reach it, the second over object stores kept as lists of records
    in the order of their keys, every call one transaction.

    Conventions of the embedding.
    - A string is the list of its UTF-16 code units ([jsstring]).
    - A number is a rational ([Q]) and arithmetic is exact: NaN, the
      infinities and the rounding of double precision are not
      modelled.  The budget [charsPerLine * linesPerPage * 0.85] is in
      general not an integer, and the split loop adds it to the running
      offset, so page offsets are rationals and not integers.  The
      comparisons of the pagination run are between an integer and a
      multiple of 1/40 far below 2^53, and have the same outcome in
      double precision as in exact arithmetic.
    - [String.prototype.substring] and [lastIndexOf] convert a
      fractional index with ToIntegerOrInfinity and clamp it at 0; on
      the rationals that is [Z.to_nat (Qfloor q)].
    - The two [Math.floor] results [charsPerLine] and [linesPerPage]
      are inputs ([Layout]): they come out of floating point divisions
      of the viewport size by the font metrics.
    - The [while] loop that splits a long paragraph takes fuel, one
      unit per iteration, and the run has no result ([None]) when the
      fuel is used up. *)

From Stdlib Require Import List ZArith NArith QArith Qround Qminmax Qabs Bool Lia Lqa.
From Stdlib Require Import Ascii String Sorted Permutation.
Import ListNotations.

Set Implicit Arguments.

(** ** Strings of the host language *)

Module JS.

Definition jsstring := list N.

Definition str (s : string) : jsstring :=
  List.map N_of_ascii (list_ascii_of_string s).

Definition len (s : jsstring) : Z := Z.of_nat (List.length s).

Definition isEmpty {A : Type} (l : list A) : bool :=
  match l with [] => true | _ => false end.

(** The class [\s] of regular expressions, which is also the set of
    code units [trim] strips: WhiteSpace and LineTerminator. *)
Definition isWhiteSpace (c : N) : bool :=
  ((9 <=? c) && (c <=? 13) || (c =? 32) || (c =? 160) || (c =? 5760)
   || (8192 <=? c) && (c <=? 8202) || (c =? 8232) || (c =? 8233)
   || (c =? 8239) || (c =? 8287) || (c =? 12288) || (c =? 65279))%N.

Fixpoint trimStart (s : jsstring) : jsstring :=
  match s with
  | [] => []
  | c :: rest => if isWhiteSpace c then trimStart rest else s
  end.

Definition trimEnd (s : jsstring) : jsstring := rev (trimStart (rev s)).

Definition trim (s : jsstring) : jsstring := trimEnd (trimStart s).

(** [s.replace(/\s+/g, ' ')]: every maximal run of white space becomes
    one space; [inRun] tells that the previous code unit was white
    space, already replaced. *)
Fixpoint collapseFrom (inRun : bool) (s : jsstring) : jsstring :=
  match s with
  | [] => []
  | c :: rest =>
      if isWhiteSpace c
      then (if inRun then collapseFrom true rest
            else 32%N :: collapseFrom true rest)
      else c :: collapseFrom false rest
  end.

Definition collapseWhitespace (s : jsstring) : jsstring := collapseFrom false s.

Definition NL : N := 10%N.
Definition SP : N := 32%N.
Definition DOT : N := 46%N.

(** [l.join('\n\n')] *)
Fixpoint joinNN (l : list jsstring) : jsstring :=
  match l with
  | [] => []
  | [x] => x
  | x :: rest => x ++ NL :: NL :: joinNN rest
  end.

Definition consHead (c : N) (l : list jsstring) : list jsstring :=
  match l with
  | [] => [[c]]
  | p :: ps => (c :: p) :: ps
  end.

(** [s.split('\n\n')]: cut at the occurrences of the separator found
    scanning from the left; the empty string gives one empty piece. *)
Fixpoint splitNN (s : jsstring) : list jsstring :=
  match s with
  | [] => [[]]
  | c :: rest =>
      match rest with
      | c2 :: rest2 =>
          if ((c =? NL) && (c2 =? NL))%N
          then [] :: splitNN rest2
          else consHead c (splitNN rest)
      | [] => consHead c (splitNN rest)
      end
  end.

(** ToIntegerOrInfinity followed by the clamp at 0 that [substring]
    and [lastIndexOf] apply to an index. *)
Definition toIndex (q : Q) : nat := Z.to_nat (Qfloor q).

(** [s.substring(0, e)] and [s.substring(b)] *)
Definition substringTo (s : jsstring) (e : Q) : jsstring := firstn (toIndex e) s.
Definition substringFrom (s : jsstring) (b : Q) : jsstring := skipn (toIndex b) s.

Fixpoint startsWith (pat s : jsstring) : bool :=
  match pat, s with
  | [], _ => true
  | _ :: _, [] => false
  | a :: pat', b :: s' => (a =? b)%N && startsWith pat' s'
  end.

Fixpoint lastIndexFrom (s pat : jsstring) (k : nat) : Z :=
  if startsWith pat (skipn k s) then Z.of_nat k
  else match k with
       | O => (-1)%Z
       | S k' => lastIndexFrom s pat k'
       end.

(** [s.lastIndexOf(pat, position)]: the greatest index not above the
    position, clamped to [0, |s| - |pat|], where [pat] occurs; -1 when
    there is none. *)
Definition lastIndexOf (s pat : jsstring) (position : Q) : Z :=
  if (List.length s <? List.length pat)%nat then (-1)%Z
  else lastIndexFrom s pat
         (Nat.min (toIndex position) (List.length s - List.length pat)).

End JS.
Import JS.

(** ** Numbers *)

Definition Qltb (a b : Q) : bool := negb (Qle_bool b a).

(** ** The handler's data *)

Record Paragraph := mkParagraph {
  ptext : jsstring;
  pstart : Z;
  plength : Z
}.

Record Page := mkPage {
  content : list jsstring;
  start : Q;
  endOff : Q
}.

(** The loop over [rawParagraphs] that records where each non blank
    paragraph starts; the second component is the final
    [searchIndex]. *)
Fixpoint buildParagraphs (searchIndex : Z) (raw : list jsstring)
  : list Paragraph * Z :=
  match raw with
  | [] => ([], searchIndex)
  | p :: rest =>
      let trimmed := trim p in
      let r := buildParagraphs (searchIndex + len p + 2) rest in
      if isEmpty trimmed then r
      else (mkParagraph trimmed searchIndex (len trimmed) :: fst r, snd r)
  end.

(** [/[a-zA-ZÀ-ÿ]/] and [/[A-ZÀ-Ý]/] on a code unit. *)
Definition isLetter (c : N) : bool :=
  ((65 <=? c) && (c <=? 90) || (97 <=? c) && (c <=? 122)
   || (192 <=? c) && (c <=? 255))%N.

Definition isUpper (c : N) : bool :=
  ((65 <=? c) && (c <=? 90) || (192 <=? c) && (c <=? 221))%N.

(** [upperCount / cleaned.length > 0.7] is decided on the integers:
    the quotient of two integers below 2^53 rounds to the double 0.7
    exactly when it is 7/10. *)
Definition isTitleText (text : jsstring) : bool :=
  let cleaned := filter isLetter text in
  if (len cleaned <? 3)%Z then false
  else
    let upperCount := len (filter isUpper cleaned) in
    (7 * len cleaned <? 10 * upperCount)%Z && (len text <? 100)%Z.

(** ** The pagination run *)

(** The [Math.floor] results the budget is computed from. *)
Record Layout := mkLayout {
  charsPerLine : Z;
  linesPerPage : Z
}.

(** [charsPerLine * linesPerPage * 0.85], then the floor at 100. *)
Definition computedBudget (l : Layout) : Q :=
  inject_Z (charsPerLine l) * inject_Z (linesPerPage l) * (85 # 100).

(** [Math.max(100, computed)] *)
Definition floorBudget (computed : Q) : Q := Qmax 100 computed.

Definition charsPerPage (l : Layout) : Q := floorBudget (computedBudget l).

(** The locals of the loop over the paragraphs: the pages pushed so
    far and the accumulator of the page being filled. *)
Record Acc := mkAcc {
  pages : list Page;
  currentPageContent : list jsstring;
  currentPageOffsetStart : Q;
  currentCharCount : Z
}.

Definition initAcc : Acc := mkAcc [] [] (-1) 0.

(** The block shared by the title rule and the overflow rule: push the
    accumulator as a page that ends just before the paragraph, and
    start the next page at the paragraph. *)
Definition flushBefore (pstart : Z) (a : Acc) : Acc :=
  mkAcc (pages a ++ [mkPage (currentPageContent a)
                            (currentPageOffsetStart a) (inject_Z pstart - 1)])
        [] (inject_Z pstart) 0.

(** The flush inside the long paragraph rule; it leaves
    [currentPageOffsetStart] as it is. *)
Definition flushForSplit (pstart : Z) (a : Acc) : Acc :=
  mkAcc (pages a ++ [mkPage (currentPageContent a)
                            (currentPageOffsetStart a) (inject_Z pstart - 1)])
        [] (currentPageOffsetStart a) 0.

(** Where one iteration of the split loop cuts [remaining]. *)
Definition breakPointOf (cpp : Q) (remaining : jsstring) : Q :=
  let breakPoint := Qmin (inject_Z (len remaining)) cpp in
  if Qltb breakPoint (inject_Z (len remaining)) then
    let sentenceEnd := lastIndexOf remaining [DOT; SP] breakPoint in
    if Qltb (cpp * (1 # 2)) (inject_Z sentenceEnd) then inject_Z sentenceEnd + 1
    else
      let wordBreak := lastIndexOf remaining [SP] breakPoint in
      if Qltb (cpp * (1 # 2)) (inject_Z wordBreak) then inject_Z wordBreak
      else breakPoint
  else breakPoint.

(** [while (remaining.length > 0) { ... }]: each unit of fuel pays for
    one iteration; [None] when the fuel runs out before the loop
    ends. *)
Fixpoint splitLoop (fuel : nat) (cpp : Q) (remaining : jsstring)
    (currentSplitStart : Q) (pgs : list Page) : option (list Page) :=
  if isEmpty remaining then Some pgs
  else
    match fuel with
    | O => None
    | S fuel' =>
        let breakPoint := breakPointOf cpp remaining in
        let chunk := trim (substringTo remaining breakPoint) in
        let chunkLength := len chunk in
        let pgs' :=
          if isEmpty chunk then pgs
          else pgs ++ [mkPage [chunk] currentSplitStart
                              (currentSplitStart + inject_Z chunkLength)] in
        splitLoop fuel' cpp (trim (substringFrom remaining breakPoint))
                  (currentSplitStart + breakPoint) pgs'
    end.

(** The body of [for (const paraObj of paragraphs)]. *)
Definition processParagraph (fuel : nat) (cpp : Q) (a : Acc) (p : Paragraph)
  : option Acc :=
  let a1 :=
    if Qeq_bool (currentPageOffsetStart a) (-1)
    then mkAcc (pages a) (currentPageContent a) (inject_Z (pstart p))
               (currentCharCount a)
    else a in
  let isTitle := isTitleText (ptext p) in
  let a2 :=
    if isTitle && negb (isEmpty (currentPageContent a1))
    then flushBefore (pstart p) a1 else a1 in
  let a3 :=
    if Qltb cpp (inject_Z (currentCharCount a2 + plength p))
       && negb (isEmpty (currentPageContent a2))
    then flushBefore (pstart p) a2 else a2 in
  if Qltb cpp (inject_Z (plength p)) then
    let a4 :=
      if negb (isEmpty (currentPageContent a3))
      then flushForSplit (pstart p) a3 else a3 in
    match splitLoop fuel cpp (ptext p) (inject_Z (pstart p)) (pages a4) with
    | None => None
    | Some pgs =>
        Some (mkAcc pgs (currentPageContent a4) (-1) (currentCharCount a4))
    end
  else
    Some (mkAcc (pages a3) (currentPageContent a3 ++ [ptext p])
                (currentPageOffsetStart a3)
                (currentCharCount a3 + (plength p + 50))).

Fixpoint processAll (fuel : nat) (cpp : Q) (a : Acc) (ps : list Paragraph)
  : option Acc :=
  match ps with
  | [] => Some a
  | p :: rest =>
      match processParagraph fuel cpp a p with
      | None => None
      | Some a' => processAll fuel cpp a' rest
      end
  end.

(** "Push last page" *)
Definition pushLast (searchIndex : Z) (a : Acc) : list Page :=
  if negb (isEmpty (currentPageContent a))
     && negb (Qeq_bool (currentPageOffsetStart a) (-1))
  then pages a ++ [mkPage (currentPageContent a)
                          (currentPageOffsetStart a) (inject_Z searchIndex)]
  else pages a.

(** "Filter empty": [p.content.join('').length > 5] *)
Definition keepPage (p : Page) : bool := (5 <? len (List.concat (content p)))%Z.

(** The page list of one run, from the extracted text and the budget. *)
Definition paginate (fuel : nat) (cpp : Q) (extractedText : list jsstring)
  : option (list Page) :=
  let fullText := joinNN extractedText in
  let rawParagraphs := splitNN fullText in
  let r := buildParagraphs 0 rawParagraphs in
  match processAll fuel cpp initAcc (fst r) with
  | None => None
  | Some a => Some (filter keepPage (pushLast (snd r) a))
  end.

(** ** The module state *)

Record State := mkState {
  extractedText : list jsstring;
  paginatedContent : list Page;
  totalScreenPages : Z;
  currentScreenPage : Z;
  fontSize : Q;
  lineHeight : Q;
  fontFamily : jsstring
}.

Definition initState : State :=
  mkState [] [] 0 1 18 (18 # 10) (str "Lora").

(** [paginateContent(container)]: the run replaces [paginatedContent]
    and clamps [currentScreenPage] into the new range. *)
Definition paginateContent (fuel : nat) (l : Layout) (s : State) : option State :=
  match paginate fuel (charsPerPage l) (extractedText s) with
  | None => None
  | Some pgs =>
      let total := Z.of_nat (List.length pgs) in
      let c1 := if (total <? currentScreenPage s)%Z then total
                else currentScreenPage s in
      let c2 := if (c1 <? 1)%Z then 1%Z else c1 in
      Some (mkState (extractedText s) pgs total c2
                    (fontSize s) (lineHeight s) (fontFamily s))
  end.

(** [setFontSize(size)] *)
Definition setFontSize (size : Q) (s : State) : State * Q :=
  let fs := Qmax 12 (Qmin 32 size) in
  (mkState (extractedText s) [] (totalScreenPages s) (currentScreenPage s)
           fs (lineHeight s) (fontFamily s), fs).

(** [setLineHeight(height)] *)
Definition setLineHeight (height : Q) (s : State) : State * Q :=
  let lh := Qmax (12 # 10) (Qmin (25 # 10) height) in
  (mkState (extractedText s) [] (totalScreenPages s) (currentScreenPage s)
           (fontSize s) lh (fontFamily s), lh).

(** [setFontFamily(family)] *)
Definition setFontFamily (family : jsstring) (s : State) : State * jsstring :=
  (mkState (extractedText s) (paginatedContent s) (totalScreenPages s)
           (currentScreenPage s) (fontSize s) (lineHeight s) family, family).

(** ** The other operations of the module *)

(** The document itself is not part of the state: an operation that
    reads it takes the page texts, the strings the loop over the text
    items of each page builds, as an argument; a module without a
    document behaves as with no page text. *)

(** [s.replace(/\n\s+/g, '\n\n')]: a line feed followed by white
    space becomes two line feeds; [inRun] tells that the white space
    met belongs to a match that was already replaced. *)
Fixpoint replaceNewlineRuns (inRun : bool) (s : jsstring) : jsstring :=
  match s with
  | [] => []
  | c :: rest =>
      if inRun && isWhiteSpace c then replaceNewlineRuns true rest
      else if (c =? NL)%N
              && match rest with
                 | c2 :: _ => isWhiteSpace c2
                 | [] => false
                 end
           then NL :: NL :: replaceNewlineRuns true rest
           else c :: replaceNewlineRuns false rest
  end.

(** "Clean up text" in [extractAllText]. *)
Definition cleanPageText (pageText : jsstring) : jsstring :=
  trim (replaceNewlineRuns false (collapseWhitespace pageText)).

(** [extractAllText()]; [pageTexts] are the strings the loop over the
    text items of each page of the document builds. *)
Definition extractAllText (pageTexts : list jsstring) (s : State) : State :=
  mkState (filter (fun t => (10 <? len t)%Z) (List.map cleanPageText pageTexts))
          (paginatedContent s) (totalScreenPages s) (currentScreenPage s)
          (fontSize s) (lineHeight s) (fontFamily s).

(** [loadPDF(arrayBuffer, bookId)] *)
Definition loadPDF (s : State) : State :=
  mkState [] [] (totalScreenPages s) 1 (fontSize s) (lineHeight s) (fontFamily s).

(** [renderTextContent(container)], without the drawing. *)
Definition renderTextContent (fuel : nat) (pageTexts : list jsstring)
    (l : Layout) (s : State) : option State :=
  paginateContent fuel l
    (if isEmpty (extractedText s) then extractAllText pageTexts s else s).

Definition withCurrentScreenPage (n : Z) (s : State) : State :=
  mkState (extractedText s) (paginatedContent s) (totalScreenPages s) n
          (fontSize s) (lineHeight s) (fontFamily s).

(** [goToPage(pageNum, container)] run to its end, without the saving
    of progress.  The state it leaves while the render is awaited is
    [goToPageStart], with the segments below. *)
Definition goToPage (fuel : nat) (pageNum : Z) (pageTexts : list jsstring)
    (l : Layout) (s : State) : option State :=
  let n1 := if (pageNum <? 1)%Z then 1%Z else pageNum in
  let n2 := if (totalScreenPages s <? n1)%Z then totalScreenPages s else n1 in
  renderTextContent fuel pageTexts l (withCurrentScreenPage n2 s).

Definition nextPage (fuel : nat) (pageTexts : list jsstring) (l : Layout)
    (s : State) : option State :=
  if (currentScreenPage s <? totalScreenPages s)%Z
  then goToPage fuel (currentScreenPage s + 1) pageTexts l s
  else Some s.

Definition prevPage (fuel : nat) (pageTexts : list jsstring) (l : Layout)
    (s : State) : option State :=
  if (1 <? currentScreenPage s)%Z
  then goToPage fuel (currentScreenPage s - 1) pageTexts l s
  else Some s.

(** [setReadingMode(mode, container)] *)
Definition setReadingMode (fuel : nat) (pageTexts : list jsstring) (l : Layout)
    (s : State) : option State :=
  renderTextContent fuel pageTexts l
    (mkState (extractedText s) [] (totalScreenPages s) 1
             (fontSize s) (lineHeight s) (fontFamily s)).

(** The calls a client of the module can make. *)
Inductive Op :=
| OpLoadPDF
| OpExtractAllText (pageTexts : list jsstring)
| OpRenderTextContent (pageTexts : list jsstring) (l : Layout)
| OpSetFontSize (size : Q)
| OpSetLineHeight (height : Q)
| OpSetFontFamily (family : jsstring)
| OpGoToPage (pageNum : Z) (pageTexts : list jsstring) (l : Layout)
| OpNextPage (pageTexts : list jsstring) (l : Layout)
| OpPrevPage (pageTexts : list jsstring) (l : Layout)
| OpSetReadingMode (pageTexts : list jsstring) (l : Layout).

Definition step (fuel : nat) (op : Op) (s : State) : option State :=
  match op with
  | OpLoadPDF => Some (loadPDF s)
  | OpExtractAllText pt => Some (extractAllText pt s)
  | OpRenderTextContent pt l => renderTextContent fuel pt l s
  | OpSetFontSize size => Some (fst (setFontSize size s))
  | OpSetLineHeight height => Some (fst (setLineHeight height s))
  | OpSetFontFamily family => Some (fst (setFontFamily family s))
  | OpGoToPage n pt l => goToPage fuel n pt l s
  | OpNextPage pt l => nextPage fuel pt l s
  | OpPrevPage pt l => prevPage fuel pt l s
  | OpSetReadingMode pt l => setReadingMode fuel pt l s
  end.

(** The states the module can be in. *)
Inductive reachable : State -> Prop :=
| reach_init : reachable initState
| reach_step (fuel : nat) (op : Op) (s s' : State) :
    reachable s -> step fuel op s = Some s' -> reachable s'.

(** ** The module between two awaits *)

(** The asynchronous functions of the module give the control back at
    each [await], and a caller can look at the module, or call it,
    before they go on.  A segment is a piece of code that runs without
    interruption: a synchronous function, or what an asynchronous one
    does from one [await] to the next.  Where no [await] separates two
    segments (a render whose text is extracted already) they run one
    after the other at once. *)
Inductive Segment :=
| SegLoadPDF
| SegExtractStart
| SegExtractPage (pageText : jsstring)
| SegPaginate (l : Layout)
| SegSetFontSize (size : Q)
| SegSetLineHeight (height : Q)
| SegSetFontFamily (family : jsstring)
| SegGoToPage (pageNum : Z)
| SegNextPage
| SegPrevPage
| SegSetReadingMode.

(** [extractedText = []] at the head of [extractAllText]. *)
Definition extractStart (s : State) : State :=
  mkState [] (paginatedContent s) (totalScreenPages s) (currentScreenPage s)
          (fontSize s) (lineHeight s) (fontFamily s).

(** One turn of the loop of [extractAllText], after its two awaits:
    the text of the page is cleaned and pushed when it is longer than
    10 characters. *)
Definition extractPage (pageText : jsstring) (s : State) : State :=
  let cleaned := cleanPageText pageText in
  if (10 <? len cleaned)%Z
  then mkState (extractedText s ++ [cleaned]) (paginatedContent s)
               (totalScreenPages s) (currentScreenPage s)
               (fontSize s) (lineHeight s) (fontFamily s)
  else s.

(** The head of [goToPage]: the two clamps and the assignment of
    [currentScreenPage], before [renderTextContent] is awaited. *)
Definition goToPageStart (pageNum : Z) (s : State) : State :=
  let n1 := if (pageNum <? 1)%Z then 1%Z else pageNum in
  let n2 := if (totalScreenPages s <? n1)%Z then totalScreenPages s else n1 in
  withCurrentScreenPage n2 s.

(** The head of [setReadingMode]. *)
Definition setReadingModeStart (s : State) : State :=
  mkState (extractedText s) [] (totalScreenPages s) 1
          (fontSize s) (lineHeight s) (fontFamily s).

Definition segment (fuel : nat) (seg : Segment) (s : State) : option State :=
  match seg with
  | SegLoadPDF => Some (loadPDF s)
  | SegExtractStart => Some (extractStart s)
  | SegExtractPage pageText => Some (extractPage pageText s)
  | SegPaginate l => paginateContent fuel l s
  | SegSetFontSize size => Some (fst (setFontSize size s))
  | SegSetLineHeight height => Some (fst (setLineHeight height s))
  | SegSetFontFamily family => Some (fst (setFontFamily family s))
  | SegGoToPage pageNum => Some (goToPageStart pageNum s)
  | SegNextPage =>
      if (currentScreenPage s <? totalScreenPages s)%Z
      then Some (goToPageStart (currentScreenPage s + 1) s)
      else Some s
  | SegPrevPage =>
      if (1 <? currentScreenPage s)%Z
      then Some (goToPageStart (currentScreenPage s - 1) s)
      else Some s
  | SegSetReadingMode => Some (setReadingModeStart s)
  end.

(** The states the module can be seen in: after any segments, in any
    order. *)
Inductive observable : State -> Prop :=
| obs_init : observable initState
| obs_segment (fuel : nat) (seg : Segment) (s s' : State) :
    observable s -> segment fuel seg s = Some s' -> observable s'.

(** ** The offset locator *)

(** What a caller can pass as the anchor offset. *)
Inductive OffsetArg :=
| Undefined
| Null
| Num (q : Q).

(** First loop: the 1-based index of the first page whose range holds
    the offset; [i] is the loop counter. *)
Fixpoint scanContaining (offset : Q) (i : Z) (pgs : list Page) : option Z :=
  match pgs with
  | [] => None
  | page :: rest =>
      if Qle_bool (start page) offset && Qle_bool offset (endOff page)
      then Some (i + 1)%Z
      else scanContaining offset (i + 1) rest
  end.

(** Second loop: [minDiff] is [None] while it is [Infinity]. *)
Fixpoint scanClosest (offset : Q) (i : Z) (pgs : list Page)
    (bestPage : Z) (minDiff : option Q) : Z * option Q :=
  match pgs with
  | [] => (bestPage, minDiff)
  | page :: rest =>
      let diff := Qabs (start page - offset) in
      let better := match minDiff with
                    | None => true
                    | Some m => Qltb diff m
                    end in
      if better then scanClosest offset (i + 1) rest (i + 1)%Z (Some diff)
      else scanClosest offset (i + 1) rest bestPage minDiff
  end.

Definition findPageForOffsetIn (pgs : list Page) (offset : OffsetArg) : Z :=
  match offset with
  | Undefined => (-1)%Z
  | Null => (-1)%Z
  | Num q =>
      if Qltb q 0 then (-1)%Z
      else
        match scanContaining q 0 pgs with
        | Some r => r
        | None =>
            match scanClosest q 0 pgs (-1) None with
            | (bestPage, Some minDiff) =>
                if Qltb minDiff 1000 then bestPage else (-1)%Z
            | (_, None) => (-1)%Z
            end
        end
  end.

Definition findPageForOffset (offset : OffsetArg) (s : State) : Z :=
  findPageForOffsetIn (paginatedContent s) offset.

(** [getCurrentPageOffset()] *)
Definition getCurrentPageOffset (s : State) : Q :=
  if (currentScreenPage s - 1 <? 0)%Z then -1
  else
    match nth_error (paginatedContent s) (Z.to_nat (currentScreenPage s - 1)) with
    | Some pageObj => start pageObj
    | None => -1
    end.

(** ** Notions the statements use *)

(** A text that does not start, or does not end, with white space. *)
Definition startsClean (s : jsstring) : Prop :=
  match s with
  | [] => True
  | c :: _ => isWhiteSpace c = false
  end.

Definition endsClean (s : jsstring) : Prop := startsClean (rev s).

(** The only white space is the space, and no two spaces are
    adjacent. *)
Fixpoint singleSpaced (s : jsstring) : bool :=
  match s with
  | [] => true
  | c :: rest =>
      (if isWhiteSpace c
       then (c =? SP)%N
            && match rest with
               | [] => true
               | c2 :: _ => negb (isWhiteSpace c2)
               end
       else true)
      && singleSpaced rest
  end.

(** Text as [cleanPageText] leaves it. *)
Definition tidy (t : jsstring) : Prop :=
  singleSpaced t = true /\ startsClean t /\ endsClean t.

Definition tidyPage (pg : Page) : Prop := Forall tidy (content pg).

Definition tidyAcc (a : Acc) : Prop :=
  Forall tidyPage (pages a) /\ Forall tidy (currentPageContent a).

(** A text with no sentence or word boundary, nor any other white
    space. *)
Definition noWhiteSpace (s : jsstring) : Prop :=
  forall c, In c s -> isWhiteSpace c = false.

(** The [length] field of a paragraph object is the length of its
    text. *)
Definition wellFormed (p : Paragraph) : Prop := plength p = len (ptext p).

(** On a page, no element after the first is a Title. *)
Definition titleOnlyFirst (c : list jsstring) : Prop :=
  forall t, In t (tl c) -> isTitleText t = false.

Definition accTitles (a : Acc) : Prop :=
  Forall (fun pg => titleOnlyFirst (content pg)) (pages a)
  /\ titleOnlyFirst (currentPageContent a).

(** [text.replace(/[^a-zA-ZÀ-ÿ]/g, '')] *)
Definition letters (text : jsstring) : jsstring := filter isLetter text.

Definition upperCount (text : jsstring) : Z := len (filter isUpper (letters text)).

(** The share, among the code units of the class [a-zA-ZÀ-ÿ], of
    those of the class [A-ZÀ-Ý]: the two classes of the code. *)
Definition uppercaseRatio (text : jsstring) : Q :=
  inject_Z (upperCount text) / inject_Z (len (letters text)).

(** ** The Title rule in the words of the specification *)

Definition inRange (lo hi c : N) : bool := ((lo <=? c) && (c <=? hi))%N.

(** An uppercase letter and a letter, as the words are commonly read:
    the characters of an alphabet, with their case.  The tables hold
    the letters of the Latin alphabet up to U+017F and the basic Greek
    and Cyrillic letters; the multiplication sign U+00D7 and the
    division sign U+00F7 are not letters, and the thorn U+00DE is an
    uppercase letter. *)
Definition specUppercase (c : N) : bool :=
  inRange 65 90 c || inRange 192 214 c || inRange 216 222 c
  || inRange 256 311 c && N.even c || inRange 313 328 c && N.odd c
  || inRange 330 375 c && N.even c || (c =? 376)%N
  || inRange 377 382 c && N.odd c
  || inRange 913 929 c || inRange 931 937 c
  || inRange 1024 1071 c.

Definition specLetter (c : N) : bool :=
  inRange 65 90 c || inRange 97 122 c
  || (c =? 170)%N || (c =? 181)%N || (c =? 186)%N
  || inRange 192 214 c || inRange 216 246 c || inRange 248 255 c
  || inRange 256 383 c
  || inRange 913 929 c || inRange 931 937 c || inRange 945 969 c
  || inRange 1024 1119 c.

(** "After stripping non-letter characters", the share of the
    remaining characters that are uppercase. *)
Definition specUppercaseRatio (text : jsstring) : Q :=
  inject_Z (len (filter specUppercase (filter specLetter text)))
  / inject_Z (len (filter specLetter text)).

(** The rule in the words of the specification: after stripping
    non-letter characters, more than 70% of the remaining characters
    are uppercase, and the text is under 100 characters. *)
Definition titleRuleSpec (text : jsstring) : Prop :=
  (70 # 100) < specUppercaseRatio text /\ (len text < 100)%Z.

(** The code units below U+0100 that the classes of the code and
    the letters above sort differently: the ordinal indicators and the
    micro sign (letters the code leaves out), the multiplication and
    the division sign (counted by the code, the first as uppercase),
    and the thorn (uppercase, for the code a letter only). *)
Definition classesDiffer : list N := [170; 181; 186; 215; 222; 247]%N.

(** A text of code units below U+0100 on which the classes agree. *)
Definition plainText (text : jsstring) : Prop :=
  forall c, In c text -> (c < 256)%N /\ ~ In c classesDiffer.

(** Two page texts a document can hold: two capitals before digits,
    and a product written with the multiplication sign,
    2 x 2 x 2 x 2 = 16. *)
Definition shortTitleText : jsstring := str "AB 1234567890".

Definition multiplicationText : jsstring :=
  [50; 32; 215; 32; 50; 32; 215; 32; 50; 32; 215; 32; 50; 32; 61; 32; 49; 54]%N.

(** An argument the guard at the head of [findPageForOffset]
    rejects. *)
Definition invalidOffset (offset : OffsetArg) : Prop :=
  match offset with
  | Undefined => True
  | Null => True
  | Num q => q < 0
  end.

(** The offset lies in the range [start, end] of the page. *)
Definition containsOffset (pg : Page) (q : Q) : Prop :=
  start pg <= q /\ q <= endOff pg.

(** How far the start of the page is from the offset. *)
Definition distanceTo (q : Q) (pg : Page) : Q := Qabs (start pg - q).

(** A number that is an integer. *)
Definition integral (q : Q) : Prop := inject_Z (Qfloor q) == q.

(** Every page starts before [b]. *)
Definition below (b : Q) (pgs : list Page) : Prop :=
  Forall (fun pg => start pg < b) pgs.

(** Page lists as the code builds them, one push at a time, each
    page starting after all the pages before it. *)
Inductive increasing : list Page -> Prop :=
| inc_nil : increasing []
| inc_push (pgs : list Page) (pg : Page) :
    increasing pgs -> below (start pg) pgs -> increasing (pgs ++ [pg]).

(** What the paragraph loop maintains; [b] is a bound below which all
    the text handled so far lies. *)
Definition ordered (b : Q) (a : Acc) : Prop :=
  0 <= b
  /\ increasing (pages a)
  /\ below b (pages a)
  /\ (currentPageContent a = [] -> currentPageOffsetStart a == -1)
  /\ (currentPageContent a <> [] ->
      0 <= currentPageOffsetStart a < b
      /\ below (currentPageOffsetStart a) (pages a)).

(** The same in the middle of an iteration, after the start of the
    page was set. *)
Definition orderedAt (b : Q) (pstart : Z) (a : Acc) : Prop :=
  increasing (pages a)
  /\ below b (pages a)
  /\ ((currentPageContent a <> []
       /\ 0 <= currentPageOffsetStart a < b
       /\ below (currentPageOffsetStart a) (pages a))
      \/ (currentPageContent a = []
          /\ currentPageOffsetStart a = inject_Z pstart)).

(** A page made of one non empty chunk of at most [n] characters. *)
Definition chunkPage (n : nat) (pg : Page) : Prop :=
  exists chunk, content pg = [chunk]
                /\ (1 <= List.length chunk <= n)%nat.

(** ** Inputs of the examples *)

Definition examplePages : list Page :=
  [mkPage [str "first page"] 0 8;
   mkPage [str "second page"] 10 12;
   mkPage [str "third page"] 20 22].

Definition exampleText : list jsstring :=
  [str "Some opening words."; str "CHAPTER ONE"; str "The story begins."].

Definition exampleRawText : list jsstring :=
  [str "  A  first   page of   text.  "; str "tiny"; str "Second    page of text."].

Definition sentenceAtBudget : jsstring :=
  repeat 97%N 100 ++ str ". The end.".

Definition unbrokenText : list jsstring :=
  [repeat 120%N 1122; repeat 121%N 12].

(** ** Notions used for the page bounds *)


(** A page whose range is not empty and does not start before the
    text. *)
Definition pageRanged (pg : Page) : Prop := 0 <= start pg <= endOff pg.


(** What the paragraph loop maintains about ranges; [b] is an index
    of the text that no paragraph handled so far reaches. *)
Definition rangedAcc (b : Q) (a : Acc) : Prop :=
  0 <= b
  /\ Forall pageRanged (pages a)
  /\ (currentPageContent a = [] -> currentPageOffsetStart a == -1)
  /\ (currentPageContent a <> [] ->
      0 <= currentPageOffsetStart a /\ currentPageOffsetStart a + 1 <= b).

(** The same in the middle of an iteration on the paragraph that
    starts at [pstart]. *)
Definition rangedAt (pstart : Z) (a : Acc) : Prop :=
  Forall pageRanged (pages a)
  /\ 0 <= currentPageOffsetStart a <= inject_Z pstart.

(** The characters of a page list, in order. *)
Definition pagesText (pgs : list Page) : jsstring :=
  List.concat (List.map (fun pg => List.concat (content pg)) pgs).

(** The number of chunks of [n] characters that [L] characters make. *)
Definition chunksNeeded (n L : nat) : nat := ((L + n - 1) / n)%nat.

(** The number of characters that pieces and the separator after each
    of them take in a text joined with the two-character separator. *)
Fixpoint spanOf (pieces : list jsstring) : Z :=
  match pieces with
  | [] => 0
  | x :: rest => len x + 2 + spanOf rest
  end.

(** ** The text of a page of the document *)

(** A text item of the PDF library: its string and the vertical
    position [transform[5]]. *)
Record TextItem := mkTextItem {
  itemStr : jsstring;
  itemY : Q
}.

(** The loop of [extractAllText] over the items of one page:
    [pageText] and [lastY] are its two variables ([None] is
    [null]). *)
Fixpoint buildPageText (pageText : jsstring) (lastY : option Q)
    (items : list TextItem) : jsstring :=
  match items with
  | [] => pageText
  | item :: rest =>
      let newLine :=
        match lastY with
        | None => false
        | Some y => Qltb 12 (Qabs (itemY item - y))
        end in
      let pageText1 := if newLine then pageText ++ [NL] else pageText in
      buildPageText (pageText1 ++ itemStr item ++ [SP]) (Some (itemY item)) rest
  end.

(** The strings of the items, each followed by a space. *)
Definition itemsText (items : list TextItem) : jsstring :=
  List.concat (List.map (fun item => itemStr item ++ [SP]) items).

(** ** Snippets *)

(** [l.join(' ')] *)
Fixpoint joinSP (l : list jsstring) : jsstring :=
  match l with
  | [] => []
  | [x] => x
  | x :: rest => x ++ SP :: joinSP rest
  end.

(** [s.includes(pat)] *)
Definition includes (s pat : jsstring) : bool :=
  existsb (fun k => startsWith pat (skipn k s)) (seq 0 (S (List.length s))).

(** [paginatedContent[currentScreenPage - 1]] *)
Definition currentPageObj (s : State) : option Page :=
  if (currentScreenPage s - 1 <? 0)%Z then None
  else nth_error (paginatedContent s) (Z.to_nat (currentScreenPage s - 1)).

(** [getCurrentPageContentSnippet()] *)
Definition getCurrentPageContentSnippet (s : State) : jsstring :=
  match currentPageObj s with
  | None => []
  | Some pageObj =>
      let text := trim (collapseWhitespace (joinSP (content pageObj))) in
      substringTo text 150
  end.

(** The loop of [findPageForContent]; [i] is the loop counter. *)
Fixpoint scanContent (search : jsstring) (i : Z) (pgs : list Page) : Z :=
  match pgs with
  | [] => (-1)%Z
  | pageObj :: rest =>
      let pageText := collapseWhitespace (joinSP (content pageObj)) in
      if includes pageText search then (i + 1)%Z
      else scanContent search (i + 1) rest
  end.

(** [findPageForContent(snippet)]; [None] is a snippet that is
    [undefined] or [null]. *)
Definition findPageForContent (snippet : option jsstring) (s : State) : Z :=
  match snippet with
  | None => (-1)%Z
  | Some sn =>
      if isEmpty sn then (-1)%Z
      else
        let search := trim (collapseWhitespace sn) in
        if (len search <? 10)%Z then (-1)%Z
        else scanContent search 0 (paginatedContent s)
  end.

(** The text a page is searched in. *)
Definition pageSearchText (pg : Page) : jsstring :=
  collapseWhitespace (joinSP (content pg)).

(** ** The font buttons of the application *)

(** [adjustFontSize(delta)] of the application: the new size goes
    through [setFontSize] and the text is rendered again. *)
Definition adjustFontSize (fuel : nat) (delta : Q) (pageTexts : list jsstring)
    (l : Layout) (s : State) : option State :=
  renderTextContent fuel pageTexts l (fst (setFontSize (fontSize s + delta) s)).

(** ** The blocks [renderTextContent] draws *)

(** An element appended to the content area: a heading ([h2]), or a
    paragraph ([p]) with or without the first line indent. *)
Inductive Block :=
| Heading (text : jsstring)
| Para (indented : bool) (text : jsstring).

Definition blockText (b : Block) : jsstring :=
  match b with
  | Heading t => t
  | Para _ t => t
  end.

(** The helper [isTitle] local to [renderTextContent]. *)
Definition isTitle (text : jsstring) : bool :=
  let cleaned := filter isLetter text in
  if (len cleaned <? 3)%Z then false
  else
    let upperCount := len (filter isUpper cleaned) in
    (7 * len cleaned <? 10 * upperCount)%Z && (len text <? 100)%Z.

(** [pageContent.forEach((para, index) => ...)], from [index] on. *)
Fixpoint renderBlocks (index : Z) (pageContent : list jsstring) : list Block :=
  match pageContent with
  | [] => []
  | para :: rest =>
      let trimmedPara := trim para in
      (if isTitle trimmedPara then Heading trimmedPara
       else Para (negb (index =? 0)%Z) trimmedPara)
      :: renderBlocks (index + 1) rest
  end.

(** The blocks drawn for the current page: [pageContent] is the
    content of [paginatedContent[currentScreenPage - 1]], or the empty
    list when there is no such page. *)
Definition drawnBlocks (s : State) : list Block :=
  let pageContent := match currentPageObj s with
                     | Some pageObj => content pageObj
                     | None => []
                     end in
  renderBlocks 0 pageContent.

(** ** The themes module *)

(** [a === b] on strings. *)
Fixpoint strEq (a b : jsstring) : bool :=
  match a, b with
  | [], [] => true
  | x :: a', y :: b' => (x =? y)%N && strEq a' b'
  | _, _ => false
  end.

(** [l.includes(x)] and [l.indexOf(x)] on an array of strings. *)
Definition arrayIncludes (l : list jsstring) (x : jsstring) : bool :=
  existsb (strEq x) l.

Fixpoint indexOfFrom (i : Z) (l : list jsstring) (x : jsstring) : Z :=
  match l with
  | [] => (-1)%Z
  | y :: rest => if strEq y x then i else indexOfFrom (i + 1) rest x
  end.

Definition arrayIndexOf (l : list jsstring) (x : jsstring) : Z := indexOfFrom 0 l x.

(** Whether a value that is a string or [null]/[undefined] ([None])
    counts as true in a condition. *)
Definition truthy (v : option jsstring) : bool :=
  match v with
  | None => false
  | Some s => negb (isEmpty s)
  end.

Module Themes.

Definition THEMES : list jsstring := [str "light"; str "dark"; str "sepia"].

(** The variable [currentTheme] of the module and what it reads and
    writes outside: the attribute [data-theme] of the body, the item
    [theme-manual] of the local storage, the setting [theme] of the
    storage module, and whether the listener for changes of the
    system preference is installed. *)
Record ThemeState := mkThemeState {
  currentTheme : jsstring;
  dataTheme : option jsstring;
  themeManual : option jsstring;
  themeSetting : option jsstring;
  listening : bool
}.

(** The module as a page load leaves it, before [init]. *)
Definition loaded (attribute manual setting : option jsstring) : ThemeState :=
  mkThemeState (str "light") attribute manual setting false.

Definition applyTheme (theme : jsstring) (t : ThemeState) : ThemeState :=
  mkThemeState theme (Some theme) (themeManual t) (themeSetting t) (listening t).

(** [setTheme(theme)]; [stored] tells whether [Storage.setSetting]
    succeeded (a failure is caught and ignored). *)
Definition setTheme (stored : bool) (theme : jsstring) (t : ThemeState) : ThemeState :=
  if negb (arrayIncludes THEMES theme) then t
  else
    let t1 := applyTheme theme t in
    mkThemeState (currentTheme t1) (dataTheme t1) (Some (str "true"))
                 (if stored then Some theme else themeSetting t1) (listening t1).

(** [cycleTheme()]: the new state and the value returned. *)
Definition cycleTheme (stored : bool) (t : ThemeState) : ThemeState * option jsstring :=
  let nextIndex :=
    ((arrayIndexOf THEMES (currentTheme t) + 1) mod Z.of_nat (List.length THEMES))%Z in
  match nth_error THEMES (Z.to_nat nextIndex) with
  | Some theme => (setTheme stored theme t, Some theme)
  | None => (t, None)
  end.

(** [init()]; [readOk] tells whether [Storage.getSetting] answered
    (otherwise it threw or rejected), and [matchMedia] is [None] when
    [window.matchMedia] does not exist, else whether the system
    prefers the dark scheme.  Without [window.matchMedia] installing
    the listener throws, after the theme was applied. *)
Definition init (readOk : bool) (matchMedia : option bool) (t : ThemeState)
    : ThemeState :=
  if negb readOk then applyTheme (str "light") t
  else
    let savedTheme := themeSetting t in
    let theme :=
      match savedTheme with
      | Some th =>
          if truthy savedTheme && arrayIncludes THEMES th then th
          else if match matchMedia with Some m => m | None => false end
               then str "dark" else currentTheme t
      | None =>
          if match matchMedia with Some m => m | None => false end
          then str "dark" else currentTheme t
      end in
    let t1 := applyTheme theme t in
    match matchMedia with
    | Some _ =>
        mkThemeState (currentTheme t1) (dataTheme t1) (themeManual t1)
                     (themeSetting t1) true
    | None => applyTheme (str "light") t1
    end.

(** The listener [init] installs, run on a change of the system
    preference; [matches] is [e.matches]. *)
Definition systemChange (stored : bool) (matches : bool) (t : ThemeState)
    : ThemeState :=
  if listening t then
    if negb (truthy (themeManual t))
    then setTheme stored (if matches then str "dark" else str "light") t
    else t
  else t.

(** What can happen after [init]. *)
Inductive Event :=
| EvSetTheme (stored : bool) (theme : jsstring)
| EvCycleTheme (stored : bool)
| EvSystemChange (stored : bool) (matches : bool).

Definition run (e : Event) (t : ThemeState) : ThemeState :=
  match e with
  | EvSetTheme stored theme => setTheme stored theme t
  | EvCycleTheme stored => fst (cycleTheme stored t)
  | EvSystemChange stored matches => systemChange stored matches t
  end.

(** The states after a page load, [init] and any events. *)
Inductive reached : ThemeState -> Prop :=
| reached_init (attribute manual setting : option jsstring)
    (readOk : bool) (matchMedia : option bool) :
    reached (init readOk matchMedia (loaded attribute manual setting))
| reached_run (e : Event) (t : ThemeState) :
    reached t -> reached (run e t).

End Themes.

(** ** The storage module *)

(** The order of string keys in an object store: by code units. *)
Fixpoint strLtb (a b : jsstring) : bool :=
  match a, b with
  | _, [] => false
  | [], _ :: _ => true
  | x :: a', y :: b' => (x <? y)%N || ((x =? y)%N && strLtb a' b')
  end.

(** An object store with a key path: the records, in the order of
    their keys. *)
Section ObjectStore.

Variable R : Type.
Variable keyOf : R -> jsstring.

(** [store.get(key)] *)
Fixpoint storeGet (key : jsstring) (st : list R) : option R :=
  match st with
  | [] => None
  | r :: rest => if strEq (keyOf r) key then Some r else storeGet key rest
  end.

(** [store.put(record)]: the record takes the place of the record
    with its key, or its place in the order of the keys. *)
Fixpoint storePut (record : R) (st : list R) : list R :=
  match st with
  | [] => [record]
  | r :: rest =>
      if strEq (keyOf r) (keyOf record) then record :: rest
      else if strLtb (keyOf record) (keyOf r) then record :: r :: rest
      else r :: storePut record rest
  end.

(** [store.add(record)]: fails ([None]) when the key is taken. *)
Definition storeAdd (record : R) (st : list R) : option (list R) :=
  match storeGet (keyOf record) st with
  | Some _ => None
  | None => Some (storePut record st)
  end.

(** [store.delete(key)] *)
Fixpoint storeDelete (key : jsstring) (st : list R) : list R :=
  match st with
  | [] => []
  | r :: rest =>
      if strEq (keyOf r) key then storeDelete key rest
      else r :: storeDelete key rest
  end.

Variable indexOf : R -> jsstring.

(** [store.index(name).getAll(IDBKeyRange.only(value))]: the records
    with that value of the indexed property, in the order of their
    keys. *)
Fixpoint indexGetAll (value : jsstring) (st : list R) : list R :=
  match st with
  | [] => []
  | r :: rest =>
      if strEq (indexOf r) value then r :: indexGetAll value rest
      else indexGetAll value rest
  end.

(** The cursor loop of [deleteBook] over
    [index.openCursor(IDBKeyRange.only(value))]: the cursor visits the
    records with that value and each is deleted. *)
Fixpoint cursorDeleteAll (value : jsstring) (st : list R) : list R :=
  match st with
  | [] => []
  | r :: rest =>
      if strEq (indexOf r) value then cursorDeleteAll value rest
      else r :: cursorDeleteAll value rest
  end.

(** [array.sort(compare)]: the sort is stable, an element stays
    before the later elements that compare equal to it. *)
Variable compare : R -> R -> Z.

Fixpoint sortInsert (x : R) (sorted : list R) : list R :=
  match sorted with
  | [] => [x]
  | y :: rest =>
      if (compare x y <=? 0)%Z then x :: y :: rest
      else y :: sortInsert x rest
  end.

Definition arraySort (l : list R) : list R := fold_right sortInsert [] l.

End ObjectStore.

Module Storage.

(** An instant is the number of milliseconds [new Date(iso)] reads
    from the ISO string that [new Date().toISOString()] wrote. *)
Record Book := mkBook {
  b_id : jsstring;
  b_title : jsstring;
  b_data : list N;
  b_totalPages : Z;
  b_currentPage : Z;
  b_addedAt : Z;
  b_lastReadAt : option Z;
  b_coverImage : option jsstring
}.

Record Bookmark := mkBookmark {
  bm_id : jsstring;
  bm_bookId : jsstring;
  bm_page : Z;
  bm_createdAt : Z
}.

Record Note := mkNote {
  n_id : jsstring;
  n_bookId : jsstring;
  n_page : Z;
  n_text : jsstring;
  n_createdAt : Z
}.

Record Setting := mkSetting {
  key : jsstring;
  value : jsstring
}.

(** The four object stores of the database. *)
Record DB := mkDB {
  books : list Book;
  bookmarks : list Bookmark;
  notes : list Note;
  settings : list Setting
}.

(** The database [init] creates. *)
Definition emptyDB : DB := mkDB [] [] [] [].

(** How a promise settles. *)
Inductive Outcome (A : Type) :=
| Resolved (result : A)
| Rejected (error : jsstring).

Arguments Resolved {A} result.
Arguments Rejected {A} error.

(** [saveBook(bookData)]; [id] is what [generateId()] gives and [now]
    the instant of the call. *)
Definition saveBook (id : jsstring) (now : Z) (title : jsstring)
    (data : list N) (totalPages : Z) (coverImage : option jsstring)
    (db : DB) : Outcome Book * DB :=
  let book := mkBook id title data totalPages 1 now None
                     (if truthy coverImage then coverImage else None) in
  match storeAdd b_id book (books db) with
  | Some books' =>
      (Resolved book, mkDB books' (bookmarks db) (notes db) (settings db))
  | None => (Rejected (str "ConstraintError"), db)
  end.

Definition getBook (bookId : jsstring) (db : DB) : option Book :=
  storeGet b_id bookId (books db).

(** The comparison of [getAllBooks]. *)
Definition lastActive (b : Book) : Z :=
  match b_lastReadAt b with
  | Some t => t
  | None => b_addedAt b
  end.

Definition getAllBooks (db : DB) : list Book :=
  arraySort (fun a b => lastActive b - lastActive a)%Z (books db).

Definition updateBookProgress (bookId : jsstring) (currentPage : Z) (now : Z)
    (db : DB) : Outcome Book * DB :=
  match storeGet b_id bookId (books db) with
  | Some book =>
      let book' := mkBook (b_id book) (b_title book) (b_data book)
                          (b_totalPages book) currentPage (b_addedAt book)
                          (Some now) (b_coverImage book) in
      (Resolved book',
       mkDB (storePut b_id book' (books db)) (bookmarks db) (notes db)
            (settings db))
  | None => (Rejected (str "Book not found"), db)
  end.

Definition deleteBook (bookId : jsstring) (db : DB) : DB :=
  mkDB (storeDelete b_id bookId (books db))
       (cursorDeleteAll bm_bookId bookId (bookmarks db))
       (cursorDeleteAll n_bookId bookId (notes db))
       (settings db).

Definition addBookmark (id : jsstring) (now : Z) (bookId : jsstring) (page : Z)
    (db : DB) : Outcome Bookmark * DB :=
  let bookmark := mkBookmark id bookId page now in
  match storeAdd bm_id bookmark (bookmarks db) with
  | Some bookmarks' =>
      (Resolved bookmark, mkDB (books db) bookmarks' (notes db) (settings db))
  | None => (Rejected (str "ConstraintError"), db)
  end.

Definition getBookmarks (bookId : jsstring) (db : DB) : list Bookmark :=
  arraySort (fun a b => bm_page a - bm_page b)%Z
            (indexGetAll bm_bookId bookId (bookmarks db)).

Definition deleteBookmark (bookmarkId : jsstring) (db : DB) : DB :=
  mkDB (books db) (storeDelete bm_id bookmarkId (bookmarks db)) (notes db)
       (settings db).

Definition addNote (id : jsstring) (now : Z) (bookId : jsstring) (page : Z)
    (text : jsstring) (db : DB) : Outcome Note * DB :=
  let note := mkNote id bookId page text now in
  match storeAdd n_id note (notes db) with
  | Some notes' =>
      (Resolved note, mkDB (books db) (bookmarks db) notes' (settings db))
  | None => (Rejected (str "ConstraintError"), db)
  end.

Definition getNotes (bookId : jsstring) (db : DB) : list Note :=
  arraySort (fun a b => n_page a - n_page b)%Z
            (indexGetAll n_bookId bookId (notes db)).

Definition deleteNote (noteId : jsstring) (db : DB) : DB :=
  mkDB (books db) (bookmarks db) (storeDelete n_id noteId (notes db))
       (settings db).

(** [getSetting(key)]: [request.result?.value], [None] is
    [undefined]. *)
Definition getSetting (k : jsstring) (db : DB) : option jsstring :=
  match storeGet key k (settings db) with
  | Some setting => Some (value setting)
  | None => None
  end.

Definition setSetting (k : jsstring) (v : jsstring) (db : DB) : DB :=
  mkDB (books db) (bookmarks db) (notes db)
       (storePut key (mkSetting k v) (settings db)).

End Storage.

(** * Properties *)

(** ** Numbers *)

Lemma Qltb_lt (a b : Q) : Qltb a b = true <-> a < b.
Proof.
  unfold Qltb. rewrite negb_true_iff.
  split; intro H.
  - apply Qnot_le_lt. intro Hle. apply Qle_bool_iff in Hle. congruence.
  - destruct (Qle_bool b a) eqn:E; [|reflexivity].
    apply Qle_bool_iff in E. exfalso. apply (Qlt_not_le _ _ H E).
Qed.

Lemma Qltb_ge (a b : Q) : Qltb a b = false <-> b <= a.
Proof.
  unfold Qltb. rewrite negb_false_iff. apply Qle_bool_iff.
Qed.

Lemma inject_Z_lt_iff (a b : Z) : inject_Z a < inject_Z b <-> (a < b)%Z.
Proof. unfold Qlt; simpl. lia. Qed.

Lemma inject_Z_le_iff (a b : Z) : inject_Z a <= inject_Z b <-> (a <= b)%Z.
Proof. unfold Qle; simpl. lia. Qed.

Lemma floorBudget_ge (computed : Q) : 100 <= floorBudget computed.
Proof. unfold floorBudget. apply Q.le_max_l. Qed.

Lemma charsPerPage_floor (l : Layout) : 100 <= charsPerPage l.
Proof. unfold charsPerPage. apply floorBudget_ge. Qed.


Lemma toIndex_pos (q : Q) : 1 <= q -> (1 <= toIndex q)%nat.
Proof.
  intro H. unfold toIndex.
  assert (1 <= Qfloor q)%Z.
  { change 1%Z with (Qfloor 1). apply Qfloor_resp_le. exact H. }
  lia.
Qed.

(** ** Strings *)

Lemma len_nonneg (s : jsstring) : (0 <= len s)%Z.
Proof. unfold len. lia. Qed.

Lemma isEmpty_true {A : Type} (l : list A) : isEmpty l = true <-> l = [].
Proof. destruct l; simpl; split; congruence. Qed.

Lemma isEmpty_false {A : Type} (l : list A) : isEmpty l = false <-> l <> [].
Proof. destruct l; simpl; split; congruence. Qed.

Lemma trimStart_length (s : jsstring) :
  (List.length (trimStart s) <= List.length s)%nat.
Proof.
  induction s as [|c s IH]; simpl; [lia|].
  destruct (isWhiteSpace c); simpl; lia.
Qed.

Lemma trimEnd_length (s : jsstring) :
  (List.length (trimEnd s) <= List.length s)%nat.
Proof.
  unfold trimEnd. rewrite length_rev.
  rewrite <- (length_rev s). apply trimStart_length.
Qed.

Lemma trim_length (s : jsstring) :
  (List.length (trim s) <= List.length s)%nat.
Proof.
  unfold trim. etransitivity; [apply trimEnd_length | apply trimStart_length].
Qed.

Lemma lastIndexFrom_range (s pat : jsstring) (k : nat) :
  (-1 <= lastIndexFrom s pat k <= Z.of_nat k)%Z.
Proof.
  induction k as [|k IH]; cbn [lastIndexFrom].
  - destruct (startsWith pat (skipn 0 s)); lia.
  - destruct (startsWith pat (skipn (S k) s)); lia.
Qed.

Lemma lastIndexOf_range (s pat : jsstring) (position : Q) :
  (-1 <= lastIndexOf s pat position <= Z.of_nat (toIndex position))%Z.
Proof.
  unfold lastIndexOf.
  destruct (List.length s <? List.length pat)%nat; [lia|].
  pose proof (lastIndexFrom_range s pat
    (Nat.min (toIndex position) (List.length s - List.length pat))).
  lia.
Qed.

(** ** The split loop makes progress and ends *)

Section SplitLoop.

Variable cpp : Q.

Lemma above_half_pos (z : Z) :
  1 <= cpp -> cpp * (1 # 2) < inject_Z z -> (1 <= z)%Z.
Proof.
  intros Hc H.
  assert (Hlt : inject_Z 0 < inject_Z z) by (change (inject_Z 0) with 0; lra).
  apply (proj1 (inject_Z_lt_iff 0 z)) in Hlt. lia.
Qed.

Lemma breakPointOf_ge_1 (remaining : jsstring) :
  1 <= cpp -> remaining <> [] -> 1 <= breakPointOf cpp remaining.
Proof.
  intros Hc Hne. unfold breakPointOf.
  assert (Hlen : 1 <= inject_Z (len remaining)).
  { apply (proj2 (inject_Z_le_iff 1 _)). unfold len.
    destruct remaining; [congruence | simpl; lia]. }
  assert (Hmin : 1 <= Qmin (inject_Z (len remaining)) cpp)
    by (apply Q.min_glb; assumption).
  cbv zeta.
  destruct (Qltb _ (inject_Z (len remaining))); [|exact Hmin].
  match goal with
  | |- context [inject_Z ?se + 1] =>
      destruct (Qltb (cpp * (1 # 2)) (inject_Z se)) eqn:E1;
      [apply Qltb_lt in E1; apply (above_half_pos Hc) in E1;
       apply (proj2 (inject_Z_le_iff 1 _)) in E1;
       change (inject_Z 1) with 1 in E1; lra|]
  end.
  match goal with
  | |- context [Qltb (cpp * (1 # 2)) (inject_Z ?wb)] =>
      destruct (Qltb (cpp * (1 # 2)) (inject_Z wb)) eqn:E2;
      [apply Qltb_lt in E2; apply (above_half_pos Hc) in E2;
       apply (proj2 (inject_Z_le_iff 1 _)) in E2; exact E2 | exact Hmin]
  end.
Qed.

Lemma splitLoop_step_shrinks (remaining : jsstring) :
  1 <= cpp -> remaining <> [] ->
  (List.length (trim (substringFrom remaining (breakPointOf cpp remaining)))
   < List.length remaining)%nat.
Proof.
  intros Hc Hne.
  pose proof (toIndex_pos (breakPointOf_ge_1 Hc Hne)) as Hpos.
  pose proof (trim_length (substringFrom remaining (breakPointOf cpp remaining))) as Ht.
  unfold substringFrom in *. rewrite length_skipn in Ht.
  assert (0 < List.length remaining)%nat
    by (destruct remaining; [congruence | simpl; lia]).
  lia.
Qed.

Lemma splitLoop_total (fuel : nat) :
  1 <= cpp ->
  forall remaining cur pgs,
    (List.length remaining <= fuel)%nat ->
    exists r, splitLoop fuel cpp remaining cur pgs = Some r.
Proof.
  intro Hc. induction fuel as [|fuel IH]; intros remaining cur pgs Hlen.
  - destruct remaining; [|simpl in Hlen; lia]. simpl. eauto.
  - simpl. destruct (isEmpty remaining) eqn:E; [eauto|].
    apply isEmpty_false in E. apply IH.
    pose proof (splitLoop_step_shrinks Hc E). lia.
Qed.

Lemma splitLoop_fuel_mono (fuel : nat) :
  forall remaining cur pgs r,
    splitLoop fuel cpp remaining cur pgs = Some r ->
    forall fuel', (fuel <= fuel')%nat ->
                  splitLoop fuel' cpp remaining cur pgs = Some r.
Proof.
  induction fuel as [|fuel IH]; intros remaining cur pgs r H fuel' Hle.
  - simpl in H. destruct (isEmpty remaining) eqn:E; [|discriminate].
    destruct fuel'; simpl; rewrite E; exact H.
  - destruct fuel' as [|fuel']; [lia|].
    simpl in *. destruct (isEmpty remaining); [exact H|].
    eapply IH; [exact H | lia].
Qed.

End SplitLoop.

(** ** Every run ends *)

Section Totality.

Variable cpp : Q.
Hypothesis cpp_ge_1 : 1 <= cpp.

Lemma processParagraph_total (fuel : nat) (a : Acc) (p : Paragraph) :
  (List.length (ptext p) <= fuel)%nat ->
  exists a', processParagraph fuel cpp a p = Some a'.
Proof.
  intro Hlen. unfold processParagraph.
  destruct (Qltb cpp (inject_Z (plength p))); [|eauto].
  match goal with
  | |- context [splitLoop fuel cpp ?r ?c ?g] =>
      destruct (splitLoop_total cpp_ge_1 r c g Hlen) as [pgs ->]
  end.
  eauto.
Qed.

Lemma processParagraph_fuel_mono (fuel fuel' : nat) (a a' : Acc) (p : Paragraph) :
  processParagraph fuel cpp a p = Some a' -> (fuel <= fuel')%nat ->
  processParagraph fuel' cpp a p = Some a'.
Proof.
  unfold processParagraph. intros H Hle.
  destruct (Qltb cpp (inject_Z (plength p))); [|exact H].
  match type of H with
  | context [splitLoop fuel cpp ?r ?c ?g] =>
      destruct (splitLoop fuel cpp r c g) as [pgs|] eqn:E; [|discriminate];
      rewrite (splitLoop_fuel_mono _ _ _ _ E Hle)
  end.
  exact H.
Qed.

Lemma processAll_total (fuel : nat) (ps : list Paragraph) :
  (forall p, In p ps -> (List.length (ptext p) <= fuel)%nat) ->
  forall a, exists a', processAll fuel cpp a ps = Some a'.
Proof.
  induction ps as [|p ps IH]; intros Hlen a; simpl; [eauto|].
  destruct (@processParagraph_total fuel a p) as [a1 ->];
    [apply Hlen; now left|].
  apply IH. intros q Hq. apply Hlen. now right.
Qed.

Lemma processAll_fuel_mono (fuel fuel' : nat) (ps : list Paragraph) :
  (fuel <= fuel')%nat ->
  forall a a', processAll fuel cpp a ps = Some a' ->
               processAll fuel' cpp a ps = Some a'.
Proof.
  intro Hle. induction ps as [|p ps IH]; intros a a' H; simpl in *; [exact H|].
  destruct (processParagraph fuel cpp a p) as [a1|] eqn:E; [|discriminate].
  rewrite (processParagraph_fuel_mono _ _ E Hle). now apply IH.
Qed.

End Totality.

Lemma consHead_In (c : N) (l : list jsstring) (x : jsstring) :
  In x (consHead c l) ->
  (exists y, x = c :: y /\ (In y l \/ (l = [] /\ y = []))) \/ In x l.
Proof.
  destruct l as [|p ps]; simpl.
  - intros [<-|[]]. left. exists []. auto.
  - intros [<-|H]; [left; exists p; auto | right; right; exact H].
Qed.

Lemma splitNN_piece_length (s : jsstring) :
  forall x, In x (splitNN s) -> (List.length x <= List.length s)%nat.
Proof.
  induction s as [s IH] using (induction_ltof1 _ (@List.length N)).
  unfold ltof in IH. intros x Hx.
  destruct s as [|c rest]; simpl in Hx.
  - destruct Hx as [<-|[]]. simpl. lia.
  - assert (Hcons : In x (consHead c (splitNN rest)) ->
                    (List.length x <= List.length (c :: rest))%nat).
    { intro H. apply consHead_In in H.
      destruct H as [[y [-> [Hy|[_ ->]]]]|H].
      - apply IH in Hy; simpl in *; lia.
      - simpl. lia.
      - apply IH in H; simpl in *; lia. }
    destruct rest as [|c2 rest2]; [exact (Hcons Hx)|].
    destruct ((c =? NL) && (c2 =? NL))%N; [|exact (Hcons Hx)].
    destruct Hx as [<-|Hx]; [simpl; lia|].
    apply IH in Hx; simpl in *; lia.
Qed.

Lemma buildParagraphs_text (raw : list jsstring) :
  forall i p, In p (fst (buildParagraphs i raw)) ->
              exists r, In r raw /\ ptext p = trim r.
Proof.
  induction raw as [|r raw IH]; intros i p Hp; simpl in Hp; [contradiction|].
  destruct (isEmpty (trim r)).
  - destruct (IH _ _ Hp) as [r' [Hin Heq]]. exists r'. split; [now right|exact Heq].
  - simpl in Hp. destruct Hp as [<-|Hp].
    + exists r. split; [now left|reflexivity].
    + destruct (IH _ _ Hp) as [r' [Hin Heq]]. exists r'. split; [now right|exact Heq].
Qed.

Lemma paragraph_text_length (txt : list jsstring) (p : Paragraph) :
  In p (fst (buildParagraphs 0 (splitNN (joinNN txt)))) ->
  (List.length (ptext p) <= List.length (joinNN txt))%nat.
Proof.
  intro Hp. apply buildParagraphs_text in Hp. destruct Hp as [r [Hin ->]].
  etransitivity; [apply trim_length | now apply splitNN_piece_length].
Qed.

Lemma paginate_total (cpp : Q) (txt : list jsstring) :
  1 <= cpp ->
  exists pgs, forall fuel, (List.length (joinNN txt) <= fuel)%nat ->
                           paginate fuel cpp txt = Some pgs.
Proof.
  intro Hc.
  destruct (@processAll_total cpp Hc (List.length (joinNN txt))
              (fst (buildParagraphs 0 (splitNN (joinNN txt))))
              (@paragraph_text_length txt) initAcc) as [a Ha].
  exists (filter keepPage (pushLast (snd (buildParagraphs 0 (splitNN (joinNN txt)))) a)).
  intros fuel Hfuel. unfold paginate.
  now rewrite (@processAll_fuel_mono cpp _ _ _ Hfuel _ _ Ha).
Qed.

Lemma paginate_fuel_mono (cpp : Q) (txt : list jsstring) (fuel fuel' : nat) pgs :
  paginate fuel cpp txt = Some pgs -> (fuel <= fuel')%nat ->
  paginate fuel' cpp txt = Some pgs.
Proof.
  unfold paginate. intros H Hle.
  destruct (processAll fuel cpp initAcc _) as [a|] eqn:E; [|discriminate].
  now rewrite (@processAll_fuel_mono cpp _ _ _ Hle _ _ E).
Qed.

(** ** What [trim] leaves *)

Lemma trimStart_split (s : jsstring) :
  exists pre, s = pre ++ trimStart s /\ forallb isWhiteSpace pre = true.
Proof.
  induction s as [|c s [pre [IH1 IH2]]]; simpl.
  - exists []. auto.
  - destruct (isWhiteSpace c) eqn:E.
    + exists (c :: pre). simpl. rewrite E, IH2. split; [congruence|reflexivity].
    + exists []. auto.
Qed.

Lemma trimEnd_split (s : jsstring) :
  exists suf, s = trimEnd s ++ suf /\ forallb isWhiteSpace suf = true.
Proof.
  destruct (trimStart_split (rev s)) as [pre [H1 H2]].
  exists (rev pre). split.
  - unfold trimEnd. rewrite <- rev_app_distr, <- H1. now rewrite rev_involutive.
  - rewrite forallb_forall in *. intros x Hx. apply H2. now apply in_rev.
Qed.

Lemma trimStart_startsClean (s : jsstring) : startsClean (trimStart s).
Proof.
  induction s as [|c s IH]; simpl; [exact I|].
  destruct (isWhiteSpace c) eqn:E; [exact IH | exact E].
Qed.

Lemma trimStart_clean (s : jsstring) : startsClean s -> trimStart s = s.
Proof. destruct s as [|c s]; simpl; [reflexivity|]. now intros ->. Qed.

Lemma trimEnd_endsClean (s : jsstring) : endsClean (trimEnd s).
Proof.
  unfold endsClean, trimEnd. rewrite rev_involutive. apply trimStart_startsClean.
Qed.

Lemma trimEnd_clean (s : jsstring) : endsClean s -> trimEnd s = s.
Proof.
  unfold endsClean, trimEnd. intro H. rewrite (trimStart_clean _ H).
  apply rev_involutive.
Qed.

Lemma trimEnd_startsClean (s : jsstring) : startsClean s -> startsClean (trimEnd s).
Proof.
  intro H. destruct (trimEnd_split s) as [suf [Heq _]].
  destruct (trimEnd s) as [|c t]; [exact I|].
  rewrite Heq in H. exact H.
Qed.

Lemma trim_startsClean (s : jsstring) : startsClean (trim s).
Proof. apply trimEnd_startsClean, trimStart_startsClean. Qed.

Lemma trim_endsClean (s : jsstring) : endsClean (trim s).
Proof. apply trimEnd_endsClean. Qed.

Lemma trim_clean (s : jsstring) : startsClean s -> endsClean s -> trim s = s.
Proof.
  intros H1 H2. unfold trim. rewrite (trimStart_clean _ H1). now apply trimEnd_clean.
Qed.

Lemma trim_idempotent (s : jsstring) : trim (trim s) = trim s.
Proof. apply trim_clean; [apply trim_startsClean | apply trim_endsClean]. Qed.

Lemma Qfloor_lt_Z (q : Q) (z : Z) : q < inject_Z z -> (Qfloor q < z)%Z.
Proof.
  intro H. apply (proj1 (inject_Z_lt_iff _ _)).
  eapply Qle_lt_trans; [apply Qfloor_le | exact H].
Qed.

Lemma Qfloor_ge_Z (q : Q) (z : Z) : inject_Z z <= q -> (z <= Qfloor q)%Z.
Proof.
  intro H. rewrite <- (Qfloor_Z z). now apply Qfloor_resp_le.
Qed.

(** ** Without the floor the split loop can run for ever *)

Lemma breakPointOf_small (cpp : Q) (remaining : jsstring) :
  0 <= cpp -> cpp < 1 -> remaining <> [] ->
  toIndex (breakPointOf cpp remaining) = 0%nat.
Proof.
  intros H0 H1 Hne.
  assert (Hlen : 1 <= inject_Z (len remaining)).
  { apply (proj2 (inject_Z_le_iff 1 _)). unfold len.
    destruct remaining; [congruence | simpl; lia]. }
  assert (Hmin : Qmin (inject_Z (len remaining)) cpp == cpp)
    by (apply Q.min_r; lra).
  assert (Hidx : toIndex (Qmin (inject_Z (len remaining)) cpp) = 0%nat).
  { unfold toIndex. rewrite Hmin.
    assert (Qfloor cpp < 1)%Z by (apply Qfloor_lt_Z; exact H1). lia. }
  assert (Hno : forall pat,
             Qltb (cpp * (1 # 2))
                  (inject_Z (lastIndexOf remaining pat
                               (Qmin (inject_Z (len remaining)) cpp))) = false).
  { intro pat. apply Qltb_ge.
    pose proof (lastIndexOf_range remaining pat
                  (Qmin (inject_Z (len remaining)) cpp)) as Hr.
    rewrite Hidx in Hr.
    assert (inject_Z (lastIndexOf remaining pat
                        (Qmin (inject_Z (len remaining)) cpp)) <= 0)
      by (apply (proj2 (inject_Z_le_iff _ 0)); lia).
    lra. }
  unfold breakPointOf. cbv zeta. rewrite !Hno.
  destruct (Qltb _ _); exact Hidx.
Qed.

Lemma splitLoop_stuck (cpp : Q) (s : jsstring) :
  0 <= cpp -> cpp < 1 -> trim s <> [] ->
  forall fuel cur pgs, splitLoop fuel cpp (trim s) cur pgs = None.
Proof.
  intros H0 H1 Hne fuel.
  induction fuel as [|fuel IH]; intros cur pgs; simpl.
  - now rewrite (proj2 (isEmpty_false _) Hne).
  - rewrite (proj2 (isEmpty_false _) Hne).
    unfold substringTo, substringFrom.
    rewrite (breakPointOf_small H0 H1 Hne). simpl firstn. simpl skipn.
    rewrite trim_idempotent. change (trim []) with (@nil N). simpl isEmpty.
    apply IH.
Qed.

Lemma paginateContent_total (l : Layout) (s : State) :
  exists s', forall extra : nat,
    paginateContent (List.length (joinNN (extractedText s)) + extra) l s = Some s'.
Proof.
  pose proof (charsPerPage_floor l) as Hge.
  destruct (@paginate_total (charsPerPage l) (extractedText s)) as [pgs Hp]; [lra|].
  eexists. intro extra. unfold paginateContent.
  rewrite Hp by lia. reflexivity.
Qed.

(** C2. Minimum budget floor and termination: whatever value the
    viewport computation gives, the effective budget is at least 100
    (a computed value of 1 becomes 100), and with that budget the run,
    split loop included, ends with a page list: there is one result
    that every amount of fuel from the length of the text on returns,
    for the page list and for the module state. *)
Theorem minimum_budget_floor_terminates :
  forall (computed : Q) (txt : list jsstring) (l : Layout) (s : State),
    100 <= floorBudget computed
    /\ floorBudget 1 == 100
    /\ 100 <= charsPerPage l
    /\ (exists pgs : list Page,
          forall extra : nat,
            paginate (List.length (joinNN txt) + extra) (floorBudget computed) txt
            = Some pgs)
    /\ (exists s' : State,
          forall extra : nat,
            paginateContent (List.length (joinNN (extractedText s)) + extra) l s
            = Some s').
Proof.
  intros computed txt l s.
  split; [apply floorBudget_ge|]. split; [reflexivity|].
  split; [apply charsPerPage_floor|]. split; [|apply paginateContent_total].
  pose proof (floorBudget_ge computed) as Hge.
  destruct (@paginate_total (floorBudget computed) txt) as [pgs Hp]; [lra|].
  exists pgs. intro extra. apply Hp. lia.
Qed.

(** ** Titles *)


Lemma isTitleText_short (t : jsstring) : isTitleText t = true -> (len t < 100)%Z.
Proof.
  unfold isTitleText. destruct (len (filter isLetter t) <? 3)%Z; [discriminate|].
  rewrite andb_true_iff. intros [_ H]. now apply Z.ltb_lt.
Qed.

Lemma titleOnlyFirst_snoc (c : list jsstring) (t : jsstring) :
  titleOnlyFirst c -> (c = [] \/ isTitleText t = false) ->
  titleOnlyFirst (c ++ [t]).
Proof.
  intros Hc Ht x Hx. destruct c as [|h c]; simpl in Hx; [contradiction|].
  apply in_app_or in Hx. destruct Hx as [Hx|[<-|[]]].
  - apply Hc. exact Hx.
  - destruct Ht as [Ht|Ht]; [discriminate | exact Ht].
Qed.

Lemma splitLoop_pages (P : Page -> Prop) (cpp : Q) :
  (forall chunk s e, P (mkPage [chunk] s e)) ->
  forall fuel remaining cur pgs r,
    Forall P pgs ->
    splitLoop fuel cpp remaining cur pgs = Some r -> Forall P r.
Proof.
  intro Hsingle. induction fuel as [|fuel IH]; intros remaining cur pgs r Hp H;
    simpl in H; destruct (isEmpty remaining); try discriminate;
    try (injection H as <-; exact Hp).
  eapply IH; [|exact H].
  destruct (isEmpty _); [exact Hp|].
  apply Forall_app. split; [exact Hp|]. constructor; [apply Hsingle|constructor].
Qed.

Lemma titleOnlyFirst_nil : titleOnlyFirst [].
Proof. intros t []. Qed.

Lemma flushBefore_titles (z : Z) (a : Acc) : accTitles a -> accTitles (flushBefore z a).
Proof.
  intros [H1 H2]. split; simpl; [|apply titleOnlyFirst_nil].
  apply Forall_app. split; [exact H1|]. constructor; [exact H2|constructor].
Qed.

Lemma processParagraph_titles (fuel : nat) (cpp : Q) (a a' : Acc) (p : Paragraph) :
  accTitles a -> processParagraph fuel cpp a p = Some a' -> accTitles a'.
Proof.
  intros Ha H. unfold processParagraph in H.
  set (a1 := if Qeq_bool (currentPageOffsetStart a) (-1) then _ else a) in H.
  assert (H1 : accTitles a1) by (subst a1; destruct (Qeq_bool _ _); exact Ha).
  clearbody a1.
  set (a2 := if isTitleText (ptext p) && _ then _ else a1) in H.
  assert (H2 : accTitles a2 /\
               (currentPageContent a2 = [] \/ isTitleText (ptext p) = false)).
  { subst a2. destruct (isTitleText (ptext p)); simpl.
    - destruct (isEmpty (currentPageContent a1)) eqn:E; simpl.
      + split; [exact H1|]. left. now apply isEmpty_true.
      + split; [now apply flushBefore_titles|]. now left.
    - split; [exact H1|]. now right. }
  clearbody a2. destruct H2 as [H2 H2'].
  set (a3 := if Qltb cpp _ && _ then _ else a2) in H.
  assert (H3 : accTitles a3 /\
               (currentPageContent a3 = [] \/ isTitleText (ptext p) = false)).
  { subst a3. destruct (Qltb cpp _ && _).
    - split; [now apply flushBefore_titles|]. now left.
    - now split. }
  clearbody a3. destruct H3 as [H3 H3'].
  destruct (Qltb cpp (inject_Z (plength p))).
  - set (a4 := if negb _ then _ else a3) in H.
    assert (H4 : accTitles a4).
    { subst a4. destruct (negb _); [|exact H3].
      destruct H3 as [H31 H32]. split; simpl; [|apply titleOnlyFirst_nil].
      apply Forall_app. split; [exact H31|]. constructor; [exact H32|constructor]. }
    clearbody a4.
    destruct (splitLoop fuel cpp _ _ _) as [pgs|] eqn:E; [|discriminate].
    injection H as <-. destruct H4 as [H41 H42]. split; simpl; [|exact H42].
    eapply splitLoop_pages; [|exact H41|exact E].
    intros chunk s e. apply titleOnlyFirst_nil.
  - injection H as <-. destruct H3 as [H31 H32]. split; simpl; [exact H31|].
    now apply titleOnlyFirst_snoc.
Qed.

Lemma processAll_titles (fuel : nat) (cpp : Q) (ps : list Paragraph) :
  forall a a', accTitles a -> processAll fuel cpp a ps = Some a' -> accTitles a'.
Proof.
  induction ps as [|p ps IH]; intros a a' Ha H; simpl in H.
  - now injection H as <-.
  - destruct (processParagraph fuel cpp a p) as [a1|] eqn:E; [|discriminate].
    eapply IH; [|exact H]. eapply processParagraph_titles; eauto.
Qed.

Lemma paginate_titles (fuel : nat) (cpp : Q) (txt : list jsstring) (pgs : list Page) :
  paginate fuel cpp txt = Some pgs ->
  Forall (fun pg => titleOnlyFirst (content pg)) pgs.
Proof.
  unfold paginate. intro H.
  destruct (processAll fuel cpp initAcc _) as [a|] eqn:E; [|discriminate].
  injection H as <-.
  apply processAll_titles in E; [|split; [constructor | apply titleOnlyFirst_nil]].
  destruct E as [E1 E2].
  apply Forall_forall. intros pg Hpg. apply filter_In in Hpg. destruct Hpg as [Hpg _].
  unfold pushLast in Hpg. destruct (negb _ && negb _).
  - apply in_app_or in Hpg. destruct Hpg as [Hpg|[<-|[]]]; [|exact E2].
    rewrite Forall_forall in E1. now apply E1.
  - rewrite Forall_forall in E1. now apply E1.
Qed.

Lemma title_forces_break (fuel : nat) (cpp : Q) (a : Acc) (p : Paragraph) :
  100 <= cpp -> wellFormed p -> isTitleText (ptext p) = true ->
  currentPageContent a <> [] ->
  processParagraph fuel cpp a p
  = Some (mkAcc (pages a ++
                   [mkPage (currentPageContent a)
                           (if Qeq_bool (currentPageOffsetStart a) (-1)
                            then inject_Z (pstart p)
                            else currentPageOffsetStart a)
                           (inject_Z (pstart p) - 1)])
                [ptext p] (inject_Z (pstart p)) (plength p + 50)).
Proof.
  intros Hc Hwf Ht Hne.
  assert (Hshort : Qltb cpp (inject_Z (plength p)) = false).
  { apply Qltb_ge. apply isTitleText_short in Ht. rewrite Hwf.
    assert (inject_Z (len (ptext p)) <= inject_Z 100)
      by (apply (proj2 (inject_Z_le_iff _ _)); lia).
    change (inject_Z 100) with 100 in *. lra. }
  apply isEmpty_false in Hne.
  unfold processParagraph. rewrite Ht, Hshort.
  destruct (Qeq_bool (currentPageOffsetStart a) (-1)); simpl; rewrite Hne; simpl;
    rewrite andb_false_r; reflexivity.
Qed.

(** C1. Title isolation.  (1) When the loop meets a Title paragraph
    while the accumulator holds content, it pushes the accumulator as
    a page that ends at the paragraph's start - 1 and the Title becomes
    the first and only element of the new accumulator, which starts at
    the paragraph.  (2) In the page list of a run, an element of a page
    other than the first one is never a Title: nothing precedes a Title
    on its page. *)
Theorem title_isolation :
  (forall (fuel : nat) (l : Layout) (a : Acc) (p : Paragraph),
      wellFormed p -> isTitleText (ptext p) = true ->
      currentPageContent a <> [] ->
      exists flushed : Page,
        processParagraph fuel (charsPerPage l) a p
        = Some (mkAcc (pages a ++ [flushed]) [ptext p]
                      (inject_Z (pstart p)) (plength p + 50))
        /\ content flushed = currentPageContent a
        /\ endOff flushed = inject_Z (pstart p) - 1)
  /\ (forall (fuel : nat) (l : Layout) (txt : list jsstring) (pgs : list Page),
         paginate fuel (charsPerPage l) txt = Some pgs ->
         forall (pg : Page) (i : nat) (t : jsstring),
           In pg pgs -> nth_error (content pg) (S i) = Some t ->
           isTitleText t = false).
Proof.
  split.
  - intros fuel l a p Hwf Ht Hne. eexists. split; [|split].
    + apply title_forces_break; auto using charsPerPage_floor.
    + reflexivity.
    + reflexivity.
  - intros fuel l txt pgs H pg i t Hpg Hnth.
    apply paginate_titles in H. rewrite Forall_forall in H.
    apply (H pg Hpg). destruct (content pg) as [|h c]; [discriminate|].
    simpl in *. eapply nth_error_In; eauto.
Qed.

Lemma title_isolation_witness :
  (exists flushed : Page,
      processParagraph 0 (charsPerPage (mkLayout 40 20))
        (mkAcc [] [str "Some opening words."] 0 69)
        (mkParagraph (str "CHAPTER ONE") 21 11)
      = Some (mkAcc ([] ++ [flushed]) [str "CHAPTER ONE"] (inject_Z 21) (11 + 50))
      /\ content flushed = [str "Some opening words."]
      /\ endOff flushed = inject_Z 21 - 1)
  /\ (exists pgs : list Page,
         paginate 40 (charsPerPage (mkLayout 40 20))
           [str "Some opening words."; str "CHAPTER ONE"; str "The story begins."]
         = Some pgs
         /\ forall (pg : Page) (i : nat) (t : jsstring),
             In pg pgs -> nth_error (content pg) (S i) = Some t ->
             isTitleText t = false).
Proof.
  split.
  - apply (proj1 title_isolation 0%nat (mkLayout 40 20)
             (mkAcc [] [str "Some opening words."] 0 69)
             (mkParagraph (str "CHAPTER ONE") 21 11)).
    + reflexivity.
    + reflexivity.
    + discriminate.
  - destruct (paginate 40 (charsPerPage (mkLayout 40 20))
                [str "Some opening words."; str "CHAPTER ONE";
                 str "The story begins."]) as [pgs|] eqn:E.
    + exists pgs. split; [reflexivity|].
      exact (proj2 title_isolation 40%nat (mkLayout 40 20) _ pgs E).
    + vm_compute in E. discriminate.
Defined.

(** ** The Title rule *)

Lemma ratio_above_70 (u n : Z) :
  (0 < n)%Z -> ((70 # 100) < inject_Z u / inject_Z n <-> (7 * n < 10 * u)%Z).
Proof.
  intro Hn.
  assert (Hpos : 0 < inject_Z n) by (apply (proj2 (inject_Z_lt_iff 0 n)); exact Hn).
  assert (Hmul : (70 # 100) * inject_Z n < inject_Z u <-> (7 * n < 10 * u)%Z)
    by (unfold Qlt, Qmult, inject_Z; cbn [Qnum Qden];
        change (Z.pos (100 * 1)) with 100%Z; lia).
  rewrite <- Hmul. split; intro H.
  - apply (Qmult_lt_compat_r _ _ _ Hpos) in H.
    assert (Hne : ~ inject_Z n == 0) by lra.
    rewrite (Qmult_comm (inject_Z u / inject_Z n)), (Qmult_div_r _ _ Hne) in H.
    exact H.
  - now apply Qlt_shift_div_l.
Qed.

Lemma classes_agree_below_256 :
  forallb (fun c => existsb (N.eqb c) classesDiffer
                    || Bool.eqb (specLetter c) (isLetter c)
                       && Bool.eqb (specUppercase c) (isUpper c))
          (List.map N.of_nat (seq 0 256)) = true.
Proof. vm_compute. reflexivity. Qed.

Lemma classes_agree (c : N) :
  (c < 256)%N -> ~ In c classesDiffer ->
  specLetter c = isLetter c /\ specUppercase c = isUpper c.
Proof.
  intros Hc Hn.
  pose proof classes_agree_below_256 as H. rewrite forallb_forall in H.
  specialize (H c). 
  assert (Hin : In c (List.map N.of_nat (seq 0 256))).
  { apply in_map_iff. exists (N.to_nat c). split; [apply N2Nat.id|].
    apply in_seq. lia. }
  apply H in Hin. apply orb_true_iff in Hin. destruct Hin as [Hin|Hin].
  - apply existsb_exists in Hin. destruct Hin as [x [Hx E]].
    apply N.eqb_eq in E. subst x. contradiction.
  - apply andb_true_iff in Hin. destruct Hin as [H1 H2].
    split; now apply Bool.eqb_prop.
Qed.

Lemma plainText_filters (text : jsstring) :
  plainText text ->
  filter specLetter text = letters text
  /\ filter specUppercase (filter specLetter text) = filter isUpper (letters text).
Proof.
  intro Hp. unfold letters.
  assert (H1 : filter specLetter text = filter isLetter text).
  { apply filter_ext_in. intros c Hc. destruct (Hp c Hc) as [Ha Hb].
    now destruct (classes_agree Ha Hb). }
  split; [exact H1|]. rewrite H1. apply filter_ext_in. intros c Hc.
  apply filter_In in Hc. destruct Hc as [Hc _]. destruct (Hp c Hc) as [Ha Hb].
  now destruct (classes_agree Ha Hb).
Qed.

Lemma plainText_check (text : jsstring) :
  forallb (fun c => (c <? 256)%N && negb (existsb (N.eqb c) classesDiffer)) text = true ->
  plainText text.
Proof.
  intros H c Hc. rewrite forallb_forall in H. specialize (H c Hc).
  apply andb_true_iff in H. destruct H as [H1 H2]. apply N.ltb_lt in H1.
  split; [exact H1|]. intro Hin. apply negb_true_iff in H2.
  assert (E : existsb (N.eqb c) classesDiffer = true).
  { apply existsb_exists. exists c. split; [exact Hin | apply N.eqb_refl]. }
  congruence.
Qed.

(** C6, as the code has it.  A text is a Title exactly when at least
    three of its code units are in the class [a-zA-Z] or U+00C0 to
    U+00FF, more than 70% of these are in the class [A-Z] or U+00C0 to
    U+00DD, and it is under 100 characters; otherwise it is Body.
    Below U+0100 the two classes are the letters and the uppercase
    letters but for six code units, so for a text without them, and
    without anything from U+0100 on, a Title is a text of at least
    three letters that meets the rule of the specification. *)
Theorem title_classification_rule :
  (forall text : jsstring,
     isTitleText text = true
     <-> ((3 <= len (letters text))%Z
          /\ (70 # 100) < uppercaseRatio text
          /\ (len text < 100)%Z))
  /\ (forall c : N,
        (c < 256)%N -> ~ In c classesDiffer ->
        specLetter c = isLetter c /\ specUppercase c = isUpper c)
  /\ (forall text : jsstring,
        plainText text ->
        (isTitleText text = true
         <-> ((3 <= len (filter specLetter text))%Z /\ titleRuleSpec text))).
Proof.
  assert (Hcode : forall text : jsstring,
             isTitleText text = true
             <-> ((3 <= len (letters text))%Z
                  /\ (70 # 100) < uppercaseRatio text
                  /\ (len text < 100)%Z)).
  { intro text. unfold isTitleText, uppercaseRatio, upperCount.
    fold (letters text).
    destruct (len (letters text) <? 3)%Z eqn:E.
    - apply Z.ltb_lt in E. split; [discriminate | lia].
    - apply Z.ltb_ge in E.
      rewrite andb_true_iff, !Z.ltb_lt, ratio_above_70 by lia. tauto. }
  split; [exact Hcode|]. split; [exact classes_agree|].
  intros text Hp. rewrite Hcode.
  destruct (plainText_filters Hp) as [H1 H2].
  unfold titleRuleSpec, specUppercaseRatio, uppercaseRatio, upperCount.
  rewrite H2, H1. tauto.
Qed.

(** C6, as it is worded, fails on page texts a document can hold.
    "AB 1234567890" has two letters, both uppercase, and is under 100
    characters, yet the guard on the number of letters makes it Body;
    "2 x 2 x 2 x 2 = 16", written with the multiplication sign, has no
    letter at all, yet the code counts the three signs as uppercase
    letters and makes it a Title.  [extractAllText] stores both texts
    as they are. *)
Lemma title_rule_spec_counterexample :
  (In shortTitleText (extractedText (extractAllText [shortTitleText] initState))
   /\ ~ (isTitleText shortTitleText = true <-> titleRuleSpec shortTitleText))
  /\ (In multiplicationText
         (extractedText (extractAllText [multiplicationText] initState))
      /\ ~ (isTitleText multiplicationText = true <-> titleRuleSpec multiplicationText)).
Proof.
  split; split.
  - vm_compute. left. reflexivity.
  - intros [_ H].
    assert (Hspec : titleRuleSpec shortTitleText).
    { split; [|reflexivity]. reflexivity. }
    apply H in Hspec. vm_compute in Hspec. discriminate.
  - vm_compute. left. reflexivity.
  - intros [H _].
    assert (Hcode : isTitleText multiplicationText = true) by reflexivity.
    apply H in Hcode. destruct Hcode as [Hr _]. vm_compute in Hr. discriminate.
Qed.

Lemma title_classification_rule_witness :
  isTitleText (str "CHAPTER ONE") = true /\ isTitleText (str "Chapter one") = false.
Proof.
  split.
  - apply (proj2 (proj2 (proj2 title_classification_rule) (str "CHAPTER ONE")
                    (@plainText_check (str "CHAPTER ONE") eq_refl))).
    split; [vm_compute; discriminate|].
    split; [reflexivity | reflexivity].
  - destruct (isTitleText (str "Chapter one")) eqn:E; [|reflexivity].
    apply (proj1 (proj2 (proj2 title_classification_rule) (str "Chapter one")
                    (@plainText_check (str "Chapter one") eq_refl))) in E.
    destruct E as [_ [E _]]. vm_compute in E. discriminate.
Defined.

(** ** Font size *)

Lemma clamp_range (lo hi x : Q) : lo <= hi -> lo <= Qmax lo (Qmin hi x) <= hi.
Proof.
  intro H. split; [apply Q.le_max_l|].
  apply Q.max_lub; [exact H | apply Q.le_min_l].
Qed.

Lemma paginateContent_fontSize (fuel : nat) (l : Layout) (s s' : State) :
  paginateContent fuel l s = Some s' -> fontSize s' = fontSize s.
Proof.
  unfold paginateContent. destruct (paginate _ _ _); [|discriminate].
  now intros [= <-].
Qed.

Lemma renderTextContent_fontSize (fuel : nat) pt (l : Layout) (s s' : State) :
  renderTextContent fuel pt l s = Some s' -> fontSize s' = fontSize s.
Proof.
  unfold renderTextContent. intro H. apply paginateContent_fontSize in H.
  rewrite H. now destruct (isEmpty _).
Qed.

Lemma step_fontSize (fuel : nat) (op : Op) (s s' : State) :
  step fuel op s = Some s' ->
  fontSize s' = fontSize s
  \/ exists size, op = OpSetFontSize size /\ fontSize s' = Qmax 12 (Qmin 32 size).
Proof.
  destruct op; simpl; intro H;
    try (injection H as <-; left; reflexivity);
    try (left; apply renderTextContent_fontSize in H; exact H).
  - injection H as <-. right. eauto.
  - left. unfold nextPage in H. destruct (_ <? _)%Z; [|now injection H as <-].
    apply renderTextContent_fontSize in H. exact H.
  - left. unfold prevPage in H. destruct (_ <? _)%Z; [|now injection H as <-].
    apply renderTextContent_fontSize in H. exact H.
Qed.

(** C9. Font size clamp: [setFontSize] stores and returns
    max(12, min(32, size)); that value lies in [12, 32]; and from the
    initial value 18 on, after every sequence of calls of the module,
    the font size is within [12, 32]. *)
Theorem font_size_clamp_invariant :
  (forall (size : Q) (s : State),
      snd (setFontSize size s) = Qmax 12 (Qmin 32 size)
      /\ fontSize (fst (setFontSize size s)) = Qmax 12 (Qmin 32 size)
      /\ 12 <= snd (setFontSize size s) <= 32)
  /\ fontSize initState = 18
  /\ (forall s : State, reachable s -> 12 <= fontSize s <= 32).
Proof.
  split; [|split].
  - intros size s. split; [reflexivity|]. split; [reflexivity|].
    apply clamp_range. discriminate.
  - reflexivity.
  - intros s Hr. induction Hr as [|fuel op s s' Hr IH Hstep].
    + split; discriminate.
    + apply step_fontSize in Hstep. destruct Hstep as [->|[size [_ ->]]].
      * exact IH.
      * apply clamp_range. discriminate.
Qed.

Lemma font_size_clamp_invariant_witness :
  12 <= fontSize (fst (setFontSize 50 (fst (setFontSize 3 initState)))) <= 32.
Proof.
  apply (proj2 (proj2 font_size_clamp_invariant)).
  apply (@reach_step 0 (OpSetFontSize 50) (fst (setFontSize 3 initState))).
  - apply (@reach_step 0 (OpSetFontSize 3) initState).
    + apply reach_init.
    + reflexivity.
  - reflexivity.
Defined.

(** ** The offset locator *)

(** C10. Invalid-offset rejection: for an offset that is undefined,
    null or negative the locator answers -1 whatever the page list is;
    the answer is the same for every list, the empty one included, so
    no page takes part in it, and the function has a value (it cannot
    throw). *)
Theorem invalid_offset_rejected :
  forall (pgs : list Page) (offset : OffsetArg) (s : State),
    invalidOffset offset ->
    findPageForOffsetIn pgs offset = (-1)%Z
    /\ findPageForOffset offset s = (-1)%Z
    /\ findPageForOffsetIn pgs offset = findPageForOffsetIn [] offset.
Proof.
  intros pgs offset s H.
  assert (Hall : forall l, findPageForOffsetIn l offset = (-1)%Z).
  { intro l. destruct offset as [| |q]; simpl; try reflexivity.
    simpl in H. apply Qltb_lt in H. now rewrite H. }
  unfold findPageForOffset. rewrite !Hall. auto.
Qed.

Lemma invalid_offset_rejected_witness :
  findPageForOffsetIn [mkPage [str "first page"] (-10) 20] (Num (-3)) = (-1)%Z
  /\ findPageForOffsetIn [mkPage [str "first page"] 0 20] Null = (-1)%Z
  /\ findPageForOffsetIn [mkPage [str "first page"] 0 20] Undefined = (-1)%Z.
Proof.
  split; [|split].
  - apply (invalid_offset_rejected [mkPage [str "first page"] (-10) 20]
             (Num (-3)) initState). reflexivity.
  - apply (invalid_offset_rejected [mkPage [str "first page"] 0 20]
             Null initState). exact I.
  - apply (invalid_offset_rejected [mkPage [str "first page"] 0 20]
             Undefined initState). exact I.
Defined.

Lemma containsOffset_bool (pg : Page) (q : Q) :
  Qle_bool (start pg) q && Qle_bool q (endOff pg) = true <-> containsOffset pg q.
Proof.
  unfold containsOffset. now rewrite andb_true_iff, !Qle_bool_iff.
Qed.

Lemma scanContaining_none (q : Q) (pgs : list Page) :
  forall i, (forall pg, In pg pgs -> ~ containsOffset pg q) ->
            scanContaining q i pgs = None.
Proof.
  induction pgs as [|pg pgs IH]; intros i H; simpl; [reflexivity|].
  destruct (Qle_bool (start pg) q && Qle_bool q (endOff pg)) eqn:E.
  - apply containsOffset_bool in E. exfalso. apply (H pg); [now left | exact E].
  - apply IH. intros pg' Hin. apply H. now right.
Qed.

Lemma scanContaining_first (q : Q) (pgs : list Page) :
  forall (i : Z) (k : nat) (pg : Page),
    nth_error pgs k = Some pg -> containsOffset pg q ->
    (forall j pg', (j < k)%nat -> nth_error pgs j = Some pg' ->
                   ~ containsOffset pg' q) ->
    scanContaining q i pgs = Some (i + Z.of_nat k + 1)%Z.
Proof.
  induction pgs as [|pg0 pgs IH]; intros i k pg Hk Hc Hfirst.
  - destruct k; discriminate.
  - simpl. destruct k as [|k].
    + injection Hk as ->. apply containsOffset_bool in Hc. rewrite Hc.
      f_equal. simpl. lia.
    + destruct (Qle_bool (start pg0) q && Qle_bool q (endOff pg0)) eqn:E.
      * apply containsOffset_bool in E. exfalso.
        apply (Hfirst 0%nat pg0); [lia | reflexivity | exact E].
      * rewrite (IH (i + 1)%Z k pg Hk Hc).
        -- f_equal. lia.
        -- intros j pg' Hj Hn. apply (Hfirst (S j) pg'); [lia | exact Hn].
Qed.

Lemma scanClosest_keeps (q : Q) (pgs : list Page) :
  forall (i best : Z) (m : Q),
    (forall pg, In pg pgs -> m <= distanceTo q pg) ->
    scanClosest q i pgs best (Some m) = (best, Some m).
Proof.
  induction pgs as [|pg pgs IH]; intros i best m H; cbn [scanClosest];
    [reflexivity|].
  cbv zeta.
  assert (E : Qltb (Qabs (start pg - q)) m = false)
    by (apply Qltb_ge; apply (H pg); now left).
  rewrite E. apply IH. intros pg' Hin. apply H. now right.
Qed.

Lemma scanClosest_best (q : Q) (pgs : list Page) :
  forall (i best : Z) (m0 : option Q) (k : nat) (pg : Page),
    nth_error pgs k = Some pg ->
    (forall pg', In pg' pgs -> distanceTo q pg <= distanceTo q pg') ->
    (forall j pg', (j < k)%nat -> nth_error pgs j = Some pg' ->
                   distanceTo q pg < distanceTo q pg') ->
    match m0 with None => True | Some d => distanceTo q pg < d end ->
    scanClosest q i pgs best m0
    = ((i + Z.of_nat k + 1)%Z, Some (distanceTo q pg)).
Proof.
  induction pgs as [|pg0 pgs IH]; intros i best m0 k pg Hk Hmin Hfirst Hm0.
  - destruct k; discriminate.
  - cbn [scanClosest]. cbv zeta. destruct k as [|k].
    + injection Hk as ->.
      assert (Hb : match m0 with
                   | None => true
                   | Some m => Qltb (Qabs (start pg - q)) m
                   end = true)
        by (destruct m0; [now apply Qltb_lt | reflexivity]).
      rewrite Hb. rewrite scanClosest_keeps.
      * f_equal. simpl. lia.
      * intros pg' Hin. apply Hmin. now right.
    + assert (Hlt0 : distanceTo q pg < distanceTo q pg0)
        by (apply (Hfirst 0%nat pg0); [lia | reflexivity]).
      assert (Hrest : forall m1,
                 match m1 with None => True | Some d => distanceTo q pg < d end ->
                 forall b, scanClosest q (i + 1) pgs b m1
                           = ((i + Z.of_nat (S k) + 1)%Z, Some (distanceTo q pg))).
      { intros m1 Hm1 b. rewrite (IH (i + 1)%Z b m1 k pg Hk).
        - f_equal. lia.
        - intros pg' Hin. apply Hmin. now right.
        - intros j pg' Hj Hn. apply (Hfirst (S j) pg'); [lia | exact Hn].
        - exact Hm1. }
      destruct (match m0 with
                | None => true
                | Some m => Qltb (Qabs (start pg0 - q)) m
                end).
      * apply Hrest. exact Hlt0.
      * apply Hrest. exact Hm0.
Qed.

(** C5. Offset locator contract, for an anchor offset that is a non
    negative number.  (1) If some page's range [start, end] holds the
    offset, the answer is the (1-based) index of the first such page.
    (2) If no page does: on the empty list the answer is -1; otherwise
    take the page whose start is closest to the offset, the earliest
    one among equally close pages: the answer is its index when the
    distance is below 1000 and -1 when it is not.  (3) The answer
    depends on the page list and the offset only. *)
Theorem offset_locator_contract :
  forall (pgs : list Page) (q : Q),
    0 <= q ->
    (forall (k : nat) (pg : Page),
        nth_error pgs k = Some pg -> containsOffset pg q ->
        (forall j pg', (j < k)%nat -> nth_error pgs j = Some pg' ->
                       ~ containsOffset pg' q) ->
        findPageForOffsetIn pgs (Num q) = (Z.of_nat k + 1)%Z)
    /\ ((forall pg, In pg pgs -> ~ containsOffset pg q) ->
        (pgs = [] -> findPageForOffsetIn pgs (Num q) = (-1)%Z)
        /\ (forall (k : nat) (pg : Page),
               nth_error pgs k = Some pg ->
               (forall pg', In pg' pgs -> distanceTo q pg <= distanceTo q pg') ->
               (forall j pg', (j < k)%nat -> nth_error pgs j = Some pg' ->
                              distanceTo q pg < distanceTo q pg') ->
               (distanceTo q pg < 1000 ->
                findPageForOffsetIn pgs (Num q) = (Z.of_nat k + 1)%Z)
               /\ (1000 <= distanceTo q pg ->
                   findPageForOffsetIn pgs (Num q) = (-1)%Z)))
    /\ (forall s1 s2 : State,
           paginatedContent s1 = paginatedContent s2 ->
           findPageForOffset (Num q) s1 = findPageForOffset (Num q) s2).
Proof.
  intros pgs q Hq.
  assert (Hguard : Qltb q 0 = false) by (now apply Qltb_ge).
  split; [|split].
  - intros k pg Hk Hc Hfirst. unfold findPageForOffsetIn. rewrite Hguard.
    rewrite (@scanContaining_first q pgs 0%Z k pg Hk Hc Hfirst). reflexivity.
  - intro Hnone. split.
    + intros ->. unfold findPageForOffsetIn. rewrite Hguard. reflexivity.
    + intros k pg Hk Hmin Hfirst.
      unfold findPageForOffsetIn. rewrite Hguard.
      rewrite (@scanContaining_none q pgs 0%Z Hnone).
      rewrite (@scanClosest_best q pgs 0%Z (-1)%Z None k pg Hk Hmin Hfirst I).
      split; intro Hd.
      * apply Qltb_lt in Hd. rewrite Hd. reflexivity.
      * apply Qltb_ge in Hd. rewrite Hd. reflexivity.
  - intros s1 s2 Heq. unfold findPageForOffset. now rewrite Heq.
Qed.

Lemma offset_locator_contract_witness :
  findPageForOffsetIn examplePages (Num 11) = 2%Z
  /\ findPageForOffsetIn examplePages (Num 15) = 2%Z.
Proof.
  split.
  - apply (proj1 (@offset_locator_contract examplePages 11 ltac:(discriminate))
             1%nat (mkPage [str "second page"] 10 12)).
    + reflexivity.
    + split; discriminate.
    + intros j pg' Hj Hn. destruct j as [|j]; [|lia].
      injection Hn as <-. intros [_ H]. apply H. reflexivity.
  - assert (Hnone : forall pg, In pg examplePages -> ~ containsOffset pg 15).
    { intros pg [<-|[<-|[<-|[]]]] [H1 H2];
        first [apply H1; reflexivity | apply H2; reflexivity]. }
    apply (proj2 (proj1 (proj2 (@offset_locator_contract examplePages 15
                                  ltac:(discriminate))) Hnone)
             1%nat (mkPage [str "second page"] 10 12)).
    + reflexivity.
    + intros pg' [<-|[<-|[<-|[]]]]; discriminate.
    + intros j pg' Hj Hn. destruct j as [|j]; [|lia].
      injection Hn as <-. reflexivity.
    + reflexivity.
Defined.

(** ** Determinism *)

Lemma computedBudget_product (l : Layout) :
  computedBudget l = (charsPerLine l * linesPerPage l * 85) # 100.
Proof. reflexivity. Qed.

Lemma charsPerPage_cases (l : Layout) :
  (charsPerPage l = 100 /\ computedBudget l <= 100)
  \/ (charsPerPage l = computedBudget l /\ 100 < computedBudget l).
Proof.
  unfold charsPerPage, floorBudget, Qmax, GenericMinMax.gmax.
  destruct (100 ?= computedBudget l) eqn:E.
  - left. split; [reflexivity|]. apply Qeq_alt in E. rewrite <- E. apply Qle_refl.
  - right. split; [reflexivity|]. now apply Qlt_alt.
  - left. split; [reflexivity|]. apply Qlt_le_weak. now apply Qgt_alt.
Qed.

(** Two layouts that derive the same budget derive the same number. *)
Lemma charsPerPage_same (l1 l2 : Layout) :
  charsPerPage l1 == charsPerPage l2 -> charsPerPage l1 = charsPerPage l2.
Proof.
  intro H.
  destruct (charsPerPage_cases l1) as [[E1 H1]|[E1 H1]];
    destruct (charsPerPage_cases l2) as [[E2 H2]|[E2 H2]];
    rewrite E1, E2 in *; try reflexivity; try lra.
  rewrite !computedBudget_product in *.
  assert (charsPerLine l1 * linesPerPage l1 = charsPerLine l2 * linesPerPage l2)%Z
    as -> by (unfold Qeq in H; simpl in H; lia).
  reflexivity.
Qed.

Lemma paginate_fuel_irrelevant (cpp : Q) (txt : list jsstring)
    (fuel1 fuel2 : nat) (p1 p2 : list Page) :
  paginate fuel1 cpp txt = Some p1 -> paginate fuel2 cpp txt = Some p2 -> p1 = p2.
Proof.
  intros H1 H2.
  apply (@paginate_fuel_mono cpp txt fuel1 (Nat.max fuel1 fuel2)) in H1; [|lia].
  apply (@paginate_fuel_mono cpp txt fuel2 (Nat.max fuel1 fuel2)) in H2; [|lia].
  congruence.
Qed.

(** C8. Determinism: two runs of [paginateContent] on module states
    with the same extracted text, under layouts that derive the same
    budget, leave the same page list (the same contents in the same
    order with the same offsets) and the same page count, whatever
    the other variables of the module held before. *)
Theorem pagination_deterministic :
  forall (fuel1 fuel2 : nat) (l1 l2 : Layout) (s1 s2 s1' s2' : State),
    extractedText s1 = extractedText s2 ->
    charsPerPage l1 == charsPerPage l2 ->
    paginateContent fuel1 l1 s1 = Some s1' ->
    paginateContent fuel2 l2 s2 = Some s2' ->
    paginatedContent s1' = paginatedContent s2'
    /\ totalScreenPages s1' = totalScreenPages s2'
    /\ List.map content (paginatedContent s1')
       = List.map content (paginatedContent s2').
Proof.
  intros fuel1 fuel2 l1 l2 s1 s2 s1' s2' Htxt Hb H1 H2.
  apply charsPerPage_same in Hb.
  unfold paginateContent in H1, H2. rewrite <- Htxt, <- Hb in H2.
  destruct (paginate fuel1 _ _) as [p1|] eqn:E1; [|discriminate].
  destruct (paginate fuel2 _ _) as [p2|] eqn:E2; [|discriminate].
  rewrite (@paginate_fuel_irrelevant _ _ _ _ _ _ E1 E2) in H1.
  injection H1 as <-. injection H2 as <-. simpl. auto.
Qed.

Lemma pagination_deterministic_witness :
  exists s1' s2' : State,
    paginateContent 30 (mkLayout 40 20)
      (mkState exampleText examplePages 3 3 18 (18 # 10) (str "Lora")) = Some s1'
    /\ paginateContent 60 (mkLayout 20 40)
         (mkState exampleText [] 0 1 18 (18 # 10) (str "Lora")) = Some s2'
    /\ paginatedContent s1' = paginatedContent s2'.
Proof.
  destruct (paginateContent 30 (mkLayout 40 20)
              (mkState exampleText examplePages 3 3 18 (18 # 10) (str "Lora")))
    as [s1'|] eqn:E1; [|vm_compute in E1; discriminate].
  destruct (paginateContent 60 (mkLayout 20 40)
              (mkState exampleText [] 0 1 18 (18 # 10) (str "Lora")))
    as [s2'|] eqn:E2; [|vm_compute in E2; discriminate].
  exists s1', s2'. split; [reflexivity|]. split; [reflexivity|].
  apply (proj1 (@pagination_deterministic 30 60 (mkLayout 40 20) (mkLayout 20 40)
                  (mkState exampleText examplePages 3 3 18 (18 # 10) (str "Lora"))
                  (mkState exampleText [] 0 1 18 (18 # 10) (str "Lora"))
                  s1' s2' eq_refl ltac:(reflexivity) E1 E2)).
Defined.

(** ** Text as [extractAllText] leaves it *)

Lemma startsClean_next (s : jsstring) :
  startsClean s ->
  match s with [] => true | c2 :: _ => negb (isWhiteSpace c2) end = true.
Proof. destruct s as [|c s]; simpl; [reflexivity|]. now intros ->. Qed.

Lemma collapseFrom_singleSpaced (s : jsstring) :
  forall b, singleSpaced (collapseFrom b s) = true
            /\ (b = true -> startsClean (collapseFrom b s)).
Proof.
  induction s as [|c s IH]; intro b; simpl; [split; [reflexivity | intros _; exact I]|].
  destruct (isWhiteSpace c) eqn:E.
  - destruct b.
    + apply IH.
    + split; [|discriminate]. destruct (IH true) as [H1 H2].
      cbn [singleSpaced]. change (isWhiteSpace 32) with true. cbv iota.
      rewrite H1, (startsClean_next _ (H2 eq_refl)). reflexivity.
  - split.
    + cbn [singleSpaced]. rewrite E. apply (IH false).
    + intros _. exact E.
Qed.

Lemma collapseFrom_clean (s : jsstring) :
  startsClean s -> collapseFrom true s = collapseFrom false s.
Proof. destruct s as [|c s]; simpl; [reflexivity|]. now intros ->. Qed.

Lemma singleSpaced_tail (c : N) (s : jsstring) :
  singleSpaced (c :: s) = true -> singleSpaced s = true.
Proof. cbn [singleSpaced]. rewrite andb_true_iff. tauto. Qed.

Lemma singleSpaced_collapse (s : jsstring) :
  singleSpaced s = true -> collapseWhitespace s = s.
Proof.
  unfold collapseWhitespace. induction s as [|c s IH]; intro H; [reflexivity|].
  pose proof (singleSpaced_tail _ _ H) as Ht. specialize (IH Ht).
  cbn [singleSpaced] in H. cbn [collapseFrom].
  destruct (isWhiteSpace c) eqn:E; [|now rewrite IH].
  rewrite !andb_true_iff in H. destruct H as [[Hc Hnext] _].
  apply N.eqb_eq in Hc. subst c.
  rewrite collapseFrom_clean, IH; [reflexivity|].
  destruct s as [|c2 s]; [exact I|]. simpl. now apply negb_true_iff.
Qed.

Lemma singleSpaced_app_inv (a b : jsstring) :
  singleSpaced (a ++ b) = true -> singleSpaced a = true /\ singleSpaced b = true.
Proof.
  induction a as [|c a IH]; intro H; [now split|].
  rewrite <- app_comm_cons in H.
  destruct (IH (singleSpaced_tail _ _ H)) as [Ha Hb]. split; [|exact Hb].
  cbn [singleSpaced] in *. rewrite Ha, andb_true_r.
  rewrite andb_true_iff in H. destruct H as [H _].
  destruct (isWhiteSpace c); [|reflexivity].
  rewrite andb_true_iff in *. destruct H as [Hc Hn]. split; [exact Hc|].
  destruct a; [reflexivity | exact Hn].
Qed.

Lemma endsClean_cons (c : N) (a : jsstring) :
  a <> [] -> endsClean (c :: a) -> endsClean a.
Proof.
  unfold endsClean. simpl. intros Hne H.
  destruct (rev a) as [|x r] eqn:E; [exact I | exact H].
Qed.

Lemma endsClean_single (c : N) : endsClean [c] -> isWhiteSpace c = false.
Proof. intro H. exact H. Qed.

Lemma singleSpaced_app (a b : jsstring) :
  singleSpaced a = true -> singleSpaced b = true -> endsClean a ->
  singleSpaced (a ++ b) = true.
Proof.
  induction a as [|c a IH]; intros Ha Hb He; [exact Hb|].
  rewrite <- app_comm_cons. cbn [singleSpaced] in *.
  rewrite andb_true_iff in Ha. destruct Ha as [Hc Ha].
  destruct a as [|c2 a].
  - rewrite (endsClean_single He). simpl. exact Hb.
  - rewrite (IH Ha Hb), andb_true_r; [exact Hc|].
    apply (@endsClean_cons c (c2 :: a)); [discriminate | exact He].
Qed.

Lemma singleSpaced_firstn (n : nat) (s : jsstring) :
  singleSpaced s = true -> singleSpaced (firstn n s) = true.
Proof.
  intro H. rewrite <- (firstn_skipn n s) in H. now apply singleSpaced_app_inv in H.
Qed.

Lemma singleSpaced_skipn (n : nat) (s : jsstring) :
  singleSpaced s = true -> singleSpaced (skipn n s) = true.
Proof.
  intro H. rewrite <- (firstn_skipn n s) in H. now apply singleSpaced_app_inv in H.
Qed.

Lemma singleSpaced_trim (s : jsstring) :
  singleSpaced s = true -> singleSpaced (trim s) = true.
Proof.
  intro H. unfold trim.
  destruct (trimStart_split s) as [pre [E1 _]]. rewrite E1 in H.
  apply singleSpaced_app_inv in H. destruct H as [_ H].
  destruct (trimEnd_split (trimStart s)) as [suf [E2 _]]. rewrite E2 in H.
  now apply singleSpaced_app_inv in H.
Qed.

Lemma tidy_trim (s : jsstring) : singleSpaced s = true -> tidy (trim s).
Proof.
  intro H. split; [now apply singleSpaced_trim|].
  split; [apply trim_startsClean | apply trim_endsClean].
Qed.

Lemma concat_singleSpaced (c : list jsstring) :
  Forall tidy c -> singleSpaced (List.concat c) = true.
Proof.
  induction 1 as [|t c [H1 [_ H3]] _ IH]; simpl; [reflexivity|].
  now apply singleSpaced_app.
Qed.

Lemma singleSpaced_no_newline (s : jsstring) :
  singleSpaced s = true -> forall c, In c s -> c <> NL.
Proof.
  induction s as [|c0 s IH]; intros H c Hin; [contradiction|].
  destruct Hin as [<-|Hin].
  - cbn [singleSpaced] in H. intros ->. change (isWhiteSpace NL) with true in H.
    simpl in H. discriminate.
  - apply IH; [now apply singleSpaced_tail in H | exact Hin].
Qed.

Lemma replaceNewlineRuns_none (s : jsstring) :
  (forall c, In c s -> c <> NL) -> replaceNewlineRuns false s = s.
Proof.
  induction s as [|c s IH]; intro H; simpl; [reflexivity|].
  assert (E : (c =? NL)%N = false) by (apply N.eqb_neq, H; now left).
  rewrite E. simpl. f_equal. apply IH. intros c' Hin. apply H. now right.
Qed.

Lemma cleanPageText_tidy (pageText : jsstring) : tidy (cleanPageText pageText).
Proof.
  unfold cleanPageText, collapseWhitespace.
  destruct (collapseFrom_singleSpaced pageText false) as [H _].
  rewrite replaceNewlineRuns_none by (now apply singleSpaced_no_newline).
  now apply tidy_trim.
Qed.

Lemma extractAllText_tidy (pageTexts : list jsstring) (s : State) :
  Forall tidy (extractedText (extractAllText pageTexts s)).
Proof.
  simpl. apply Forall_forall. intros t Ht. apply filter_In in Ht.
  destruct Ht as [Ht _]. apply in_map_iff in Ht. destruct Ht as [p [<- _]].
  apply cleanPageText_tidy.
Qed.

Lemma splitNN_no_newline (x : jsstring) :
  (forall c, In c x -> c <> NL) -> splitNN x = [x].
Proof.
  induction x as [|c x IH]; intro H; [reflexivity|].
  assert (E : (c =? NL)%N = false) by (apply N.eqb_neq, H; now left).
  assert (IH' : splitNN x = [x]) by (apply IH; intros c' Hin; apply H; now right).
  cbn [splitNN]. rewrite E, IH'. simpl. now destruct x.
Qed.

Lemma splitNN_separator (x y : jsstring) :
  (forall c, In c x -> c <> NL) ->
  splitNN (x ++ NL :: NL :: y) = x :: splitNN y.
Proof.
  induction x as [|c x IH]; intro H.
  - reflexivity.
  - assert (E : (c =? NL)%N = false) by (apply N.eqb_neq, H; now left).
    assert (IH' : splitNN (x ++ NL :: NL :: y) = x :: splitNN y)
      by (apply IH; intros c' Hin; apply H; now right).
    rewrite <- app_comm_cons. cbn [splitNN]. rewrite E, IH'. simpl.
    now destruct (x ++ NL :: NL :: y).
Qed.

Lemma splitNN_joinNN (txt : list jsstring) :
  Forall tidy txt ->
  forall piece, In piece (splitNN (joinNN txt)) -> piece = [] \/ In piece txt.
Proof.
  induction 1 as [|x txt [Hx _] Htxt IH]; intros piece Hin.
  - left. destruct Hin as [<-|[]]. reflexivity.
  - pose proof (singleSpaced_no_newline _ Hx) as Hnl.
    destruct txt as [|y txt].
    + simpl in Hin. rewrite (splitNN_no_newline _ Hnl) in Hin.
      destruct Hin as [<-|[]]. right. now left.
    + change (joinNN (x :: y :: txt)) with (x ++ NL :: NL :: joinNN (y :: txt)) in Hin.
      rewrite (splitNN_separator _ _ Hnl) in Hin. destruct Hin as [<-|Hin].
      * right. now left.
      * destruct (IH _ Hin) as [->|Hp]; [now left | right; now right].
Qed.

Lemma paragraphs_tidy (txt : list jsstring) (p : Paragraph) :
  Forall tidy txt ->
  In p (fst (buildParagraphs 0 (splitNN (joinNN txt)))) -> tidy (ptext p).
Proof.
  intros Htxt Hp. apply buildParagraphs_text in Hp. destruct Hp as [r [Hin ->]].
  apply tidy_trim. destruct (splitNN_joinNN Htxt _ Hin) as [->|Hr]; [reflexivity|].
  rewrite Forall_forall in Htxt. now destruct (Htxt _ Hr).
Qed.

(** ** Pages made of tidy text *)

Lemma splitLoop_tidy (cpp : Q) (fuel : nat) :
  forall remaining cur pgs r,
    singleSpaced remaining = true -> Forall tidyPage pgs ->
    splitLoop fuel cpp remaining cur pgs = Some r -> Forall tidyPage r.
Proof.
  induction fuel as [|fuel IH]; intros remaining cur pgs r Hs Hp H;
    simpl in H; destruct (isEmpty remaining); try discriminate;
    try (injection H as <-; exact Hp).
  eapply IH; [| |exact H].
  - apply singleSpaced_trim. unfold substringFrom. now apply singleSpaced_skipn.
  - destruct (isEmpty _); [exact Hp|].
    apply Forall_app. split; [exact Hp|]. constructor; [|constructor].
    constructor; [|constructor].
    apply tidy_trim. unfold substringTo. now apply singleSpaced_firstn.
Qed.

Lemma pushPage_tidy (a : Acc) (s e : Q) :
  tidyAcc a -> Forall tidyPage (pages a ++ [mkPage (currentPageContent a) s e]).
Proof.
  intros [H1 H2]. apply Forall_app. split; [exact H1|].
  constructor; [exact H2 | constructor].
Qed.

Lemma flushBefore_tidy (z : Z) (a : Acc) : tidyAcc a -> tidyAcc (flushBefore z a).
Proof. intro H. split; simpl; [now apply pushPage_tidy | constructor]. Qed.

Lemma processParagraph_tidy (fuel : nat) (cpp : Q) (a a' : Acc) (p : Paragraph) :
  tidy (ptext p) -> tidyAcc a ->
  processParagraph fuel cpp a p = Some a' -> tidyAcc a'.
Proof.
  intros Hp Ha H. unfold processParagraph in H.
  set (a1 := if Qeq_bool (currentPageOffsetStart a) (-1) then _ else a) in H.
  assert (H1 : tidyAcc a1) by (subst a1; destruct (Qeq_bool _ _); exact Ha).
  clearbody a1.
  set (a2 := if isTitleText (ptext p) && _ then _ else a1) in H.
  assert (H2 : tidyAcc a2)
    by (subst a2; destruct (isTitleText (ptext p) && _);
        [now apply flushBefore_tidy | exact H1]).
  clearbody a2.
  set (a3 := if Qltb cpp _ && _ then _ else a2) in H.
  assert (H3 : tidyAcc a3)
    by (subst a3; destruct (Qltb cpp _ && _);
        [now apply flushBefore_tidy | exact H2]).
  clearbody a3.
  destruct (Qltb cpp (inject_Z (plength p))).
  - set (a4 := if negb _ then _ else a3) in H.
    assert (H4 : tidyAcc a4).
    { subst a4. destruct (negb _); [|exact H3].
      split; simpl; [now apply pushPage_tidy | constructor]. }
    clearbody a4.
    destruct (splitLoop fuel cpp _ _ _) as [pgs|] eqn:E; [|discriminate].
    injection H as <-. destruct H4 as [H41 H42]. split; simpl; [|exact H42].
    eapply splitLoop_tidy; [|exact H41|exact E]. apply Hp.
  - injection H as <-. destruct H3 as [H31 H32]. split; simpl; [exact H31|].
    apply Forall_app. split; [exact H32 | constructor; [exact Hp | constructor]].
Qed.

Lemma processAll_tidy (fuel : nat) (cpp : Q) (ps : list Paragraph) :
  (forall p, In p ps -> tidy (ptext p)) ->
  forall a a', tidyAcc a -> processAll fuel cpp a ps = Some a' -> tidyAcc a'.
Proof.
  induction ps as [|p ps IH]; intros Hps a a' Ha H; simpl in H.
  - now injection H as <-.
  - destruct (processParagraph fuel cpp a p) as [a1|] eqn:E; [|discriminate].
    eapply IH; [| |exact H].
    + intros q Hq. apply Hps. now right.
    + eapply processParagraph_tidy; [|exact Ha|exact E]. apply Hps. now left.
Qed.

Lemma paginate_tidy (fuel : nat) (cpp : Q) (txt : list jsstring) (pgs : list Page) :
  Forall tidy txt -> paginate fuel cpp txt = Some pgs -> Forall tidyPage pgs.
Proof.
  unfold paginate. intros Htxt H.
  destruct (processAll fuel cpp initAcc _) as [a|] eqn:E; [|discriminate].
  injection H as <-.
  apply processAll_tidy in E;
    [|intros p Hp; now apply (@paragraphs_tidy txt p Htxt)|split; constructor].
  apply Forall_forall. intros pg Hpg. apply filter_In in Hpg. destruct Hpg as [Hpg _].
  assert (Hall : Forall tidyPage (pushLast (snd (buildParagraphs 0 (splitNN (joinNN txt)))) a)).
  { unfold pushLast. destruct (negb _ && negb _); [now apply pushPage_tidy | apply E]. }
  rewrite Forall_forall in Hall. now apply Hall.
Qed.

Lemma paginate_kept (fuel : nat) (cpp : Q) (txt : list jsstring) (pgs : list Page) :
  paginate fuel cpp txt = Some pgs ->
  forall pg, In pg pgs -> (5 < len (List.concat (content pg)))%Z.
Proof.
  unfold paginate. intro H.
  destruct (processAll fuel cpp initAcc _) as [a|]; [|discriminate].
  injection H as <-. intros pg Hpg. apply filter_In in Hpg.
  destruct Hpg as [_ Hk]. now apply Z.ltb_lt.
Qed.

Lemma paginateContent_text (fuel : nat) (l : Layout) (s s' : State) :
  paginateContent fuel l s = Some s' -> extractedText s' = extractedText s.
Proof.
  unfold paginateContent. destruct (paginate _ _ _); [|discriminate].
  now intros [= <-].
Qed.

Lemma renderTextContent_tidy (fuel : nat) pt (l : Layout) (s s' : State) :
  Forall tidy (extractedText s) ->
  renderTextContent fuel pt l s = Some s' -> Forall tidy (extractedText s').
Proof.
  unfold renderTextContent. intros Hs H. apply paginateContent_text in H.
  rewrite H. destruct (isEmpty _); [apply extractAllText_tidy | exact Hs].
Qed.

Lemma reachable_tidy (s : State) : reachable s -> Forall tidy (extractedText s).
Proof.
  induction 1 as [|fuel op s s' Hr IH Hstep]; [constructor|].
  destruct op; simpl in Hstep;
    try (injection Hstep as <-; simpl; first [exact IH | constructor]);
    try (eapply renderTextContent_tidy; [|exact Hstep]; exact IH).
  - injection Hstep as <-. apply extractAllText_tidy.
  - unfold nextPage in Hstep. destruct (_ <? _)%Z; [|now injection Hstep as <-].
    eapply renderTextContent_tidy; [|exact Hstep]. exact IH.
  - unfold prevPage in Hstep. destruct (_ <? _)%Z; [|now injection Hstep as <-].
    eapply renderTextContent_tidy; [|exact Hstep]. exact IH.
Qed.

(** C7. Degenerate page filter.  (1) For every text and budget, the
    joined content of every page of the final list has more than 5
    characters: the others were dropped before the count of pages was
    taken.  (2) In every state the module can reach, the extracted
    text has its white space collapsed already, and then the joined
    content of every page has more than 5 characters after white space
    collapse too. *)
Theorem degenerate_pages_dropped :
  (forall (fuel : nat) (cpp : Q) (txt : list jsstring) (pgs : list Page),
      paginate fuel cpp txt = Some pgs ->
      forall pg, In pg pgs -> (5 < len (List.concat (content pg)))%Z)
  /\ (forall (fuel : nat) (l : Layout) (s s' : State),
         reachable s ->
         paginateContent fuel l s = Some s' ->
         totalScreenPages s' = Z.of_nat (List.length (paginatedContent s'))
         /\ forall pg, In pg (paginatedContent s') ->
              collapseWhitespace (List.concat (content pg)) = List.concat (content pg)
              /\ (5 < len (collapseWhitespace (List.concat (content pg))))%Z).
Proof.
  split; [exact paginate_kept|].
  intros fuel l s s' Hr H. apply reachable_tidy in Hr.
  unfold paginateContent in H.
  destruct (paginate fuel (charsPerPage l) (extractedText s)) as [pgs|] eqn:E;
    [|discriminate].
  injection H as <-. simpl. split; [reflexivity|].
  intros pg Hpg.
  pose proof (@paginate_tidy _ _ _ _ Hr E) as Ht. rewrite Forall_forall in Ht.
  assert (Hc : collapseWhitespace (List.concat (content pg)) = List.concat (content pg))
    by (apply singleSpaced_collapse, concat_singleSpaced, Ht, Hpg).
  split; [exact Hc|]. rewrite Hc. exact (@paginate_kept _ _ _ _ E pg Hpg).
Qed.

Lemma degenerate_pages_dropped_witness :
  exists s' : State,
    paginateContent 60 (mkLayout 40 20) (extractAllText exampleRawText initState)
    = Some s'
    /\ forall pg, In pg (paginatedContent s') ->
         (5 < len (collapseWhitespace (List.concat (content pg))))%Z.
Proof.
  destruct (paginateContent 60 (mkLayout 40 20)
              (extractAllText exampleRawText initState)) as [s'|] eqn:E;
    [|vm_compute in E; discriminate].
  exists s'. split; [reflexivity|].
  intros pg Hpg.
  apply (proj2 degenerate_pages_dropped 60%nat (mkLayout 40 20)
           (extractAllText exampleRawText initState) s').
  - apply (@reach_step 0 (OpExtractAllText exampleRawText) initState).
    + apply reach_init.
    + reflexivity.
  - exact E.
  - exact Hpg.
Defined.

(** ** The split of a long paragraph *)



(** C3, the input on which the bound on the chunks fails.  The budget
    is 100; the paragraph has a sentence end right at index 100, the
    search for the sentence boundary starts at that index and the cut
    is placed after the full stop: the first chunk has 101
    characters. *)
Theorem oversize_chunk_exceeds_budget :
  charsPerPage (mkLayout 10 10) == 100
  /\ breakPointOf (charsPerPage (mkLayout 10 10)) sentenceAtBudget == 101
  /\ exists (first second : Page),
       paginate 10 (charsPerPage (mkLayout 10 10)) [sentenceAtBudget]
       = Some [first; second]
       /\ content first = [repeat 97%N 100 ++ str "."]
       /\ content second = [str "The end."]
       /\ len (List.concat (content first)) = 101%Z.
Proof.
  split; [reflexivity|]. split; [reflexivity|].
  eexists. eexists. split; [vm_compute; reflexivity|].
  split; [reflexivity|]. split; reflexivity.
Qed.

(** ** Start offsets *)

(** C4, the input on which the order of the start offsets fails.  The
    budget is 21 * 7 * 0.85 = 124.95.  The first paragraph has 1122
    characters and no space: it is cut nine times at the hard limit,
    124 characters each time, while the running start advances by
    124.95; its tenth chunk starts at 1124.55.  The second paragraph
    starts at 1124. *)
Theorem start_offsets_not_increasing :
  charsPerPage (mkLayout 21 7) == 12495 # 100
  /\ exists (pgs : list Page) (tenth eleventh : Page),
       paginate 12 (charsPerPage (mkLayout 21 7)) unbrokenText = Some pgs
       /\ nth_error pgs 9 = Some tenth
       /\ nth_error pgs 10 = Some eleventh
       /\ start tenth == 112455 # 100
       /\ start eleventh == 1124
       /\ start eleventh < start tenth.
Proof.
  split; [reflexivity|].
  destruct (paginate 12 (charsPerPage (mkLayout 21 7)) unbrokenText)
    as [pgs|] eqn:E; [|vm_compute in E; discriminate].
  vm_compute in E. injection E as <-.
  eexists. eexists. eexists. split; [reflexivity|].
  split; [reflexivity|]. split; [reflexivity|].
  split; [reflexivity|]. split; reflexivity.
Qed.

(** ** Start offsets under an integral budget *)

Lemma below_weaken (b b' : Q) (pgs : list Page) :
  b <= b' -> below b pgs -> below b' pgs.
Proof.
  intros Hb H. unfold below in *. rewrite Forall_forall in *.
  intros pg Hpg. specialize (H pg Hpg). lra.
Qed.

Lemma below_push (b : Q) (pgs : list Page) (pg : Page) :
  below b pgs -> start pg < b -> below b (pgs ++ [pg]).
Proof.
  intros H Hpg. apply Forall_app. split; [exact H | constructor; [exact Hpg | constructor]].
Qed.

Lemma below_filter (f : Page -> bool) (b : Q) (pgs : list Page) :
  below b pgs -> below b (filter f pgs).
Proof.
  unfold below. rewrite !Forall_forall. intros H pg Hpg.
  apply filter_In in Hpg. apply H, Hpg.
Qed.

Lemma increasing_filter (f : Page -> bool) (pgs : list Page) :
  increasing pgs -> increasing (filter f pgs).
Proof.
  induction 1 as [|pgs pg Hinc IH Hb]; [constructor|].
  rewrite filter_app. simpl. destruct (f pg).
  - constructor; [exact IH | now apply below_filter].
  - now rewrite app_nil_r.
Qed.

Lemma increasing_adjacent (pgs : list Page) :
  increasing pgs ->
  forall i p q, nth_error pgs i = Some p -> nth_error pgs (S i) = Some q ->
                start p < start q.
Proof.
  induction 1 as [|pgs pg Hinc IH Hb]; intros i p q Hp Hq.
  - destruct i; discriminate.
  - destruct (Nat.lt_ge_cases (S i) (List.length pgs)) as [Hlt|Hge].
    + rewrite nth_error_app1 in Hp by lia. rewrite nth_error_app1 in Hq by lia.
      eapply IH; eauto.
    + rewrite nth_error_app2 in Hq by lia.
      destruct (S i - List.length pgs)%nat as [|k] eqn:E;
        [|destruct k; discriminate].
      injection Hq as <-.
      rewrite nth_error_app1 in Hp by lia.
      unfold below in Hb. rewrite Forall_forall in Hb.
      apply Hb. eapply nth_error_In; eauto.
Qed.

Lemma integral_inject_Z (z : Z) : integral (inject_Z z).
Proof. unfold integral. now rewrite Qfloor_Z. Qed.

Lemma integral_index (q : Q) :
  integral q -> 0 <= q -> inject_Z (Z.of_nat (toIndex q)) == q.
Proof.
  unfold integral, toIndex. intros Hi H0.
  assert (0 <= Qfloor q)%Z by (apply (Qfloor_ge_Z (z:=0)); exact H0).
  rewrite Z2Nat.id by assumption. exact Hi.
Qed.

Lemma integral_min (a b : Q) : integral a -> integral b -> integral (Qmin a b).
Proof.
  intros Ha Hb. unfold integral in *.
  destruct (Q.min_spec a b) as [[_ E]|[_ E]]; rewrite (Qfloor_comp _ _ E).
  - now rewrite Ha, E.
  - now rewrite Hb, E.
Qed.

Lemma lastIndexOf_fits (s pat : jsstring) (position : Q) :
  (lastIndexOf s pat position + Z.of_nat (List.length pat)
   <= Z.max (Z.of_nat (List.length s)) (Z.of_nat (List.length pat) - 1))%Z.
Proof.
  unfold lastIndexOf. destruct (List.length s <? List.length pat)%nat eqn:E.
  - lia.
  - apply Nat.ltb_ge in E.
    pose proof (lastIndexFrom_range s pat
      (Nat.min (toIndex position) (List.length s - List.length pat))).
    lia.
Qed.

(** With an integral budget of at least 1, a cut is an integer between
    1 and the length of what remains. *)
Lemma breakPointOf_integral (cpp : Q) (remaining : jsstring) :
  integral cpp -> 1 <= cpp -> remaining <> [] ->
  integral (breakPointOf cpp remaining)
  /\ breakPointOf cpp remaining <= inject_Z (len remaining).
Proof.
  intros Hi Hc Hne.
  assert (Hm : integral (Qmin (inject_Z (len remaining)) cpp))
    by (apply integral_min; [apply integral_inject_Z | exact Hi]).
  assert (Hl : Qmin (inject_Z (len remaining)) cpp <= inject_Z (len remaining))
    by apply Q.le_min_l.
  assert (Hlen : (1 <= len remaining)%Z)
    by (unfold len; destruct remaining; [congruence | simpl; lia]).
  unfold breakPointOf. cbv zeta.
  destruct (Qltb _ (inject_Z (len remaining))); [|now split].
  pose proof (lastIndexOf_fits remaining [DOT; SP]
                (Qmin (inject_Z (len remaining)) cpp)) as Hse.
  pose proof (lastIndexOf_fits remaining [SP]
                (Qmin (inject_Z (len remaining)) cpp)) as Hwb.
  simpl List.length in Hse, Hwb. fold (len remaining) in Hse, Hwb.
  match goal with
  | |- context [inject_Z ?se + 1] => destruct (Qltb (cpp * (1 # 2)) (inject_Z se))
  end.
  - match goal with
    | |- context [inject_Z ?z + 1] =>
        change (inject_Z z + 1) with (inject_Z z + inject_Z 1)
    end.
    rewrite <- inject_Z_plus.
    split; [apply integral_inject_Z|]. apply (proj2 (inject_Z_le_iff _ _)). lia.
  - destruct (Qltb (cpp * (1 # 2)) (inject_Z _)); [|now split].
    split; [apply integral_inject_Z|]. apply (proj2 (inject_Z_le_iff _ _)). lia.
Qed.

Section IntegralBudget.

Variable cpp : Q.
Hypothesis cpp_integral : integral cpp.
Hypothesis cpp_ge_1 : 1 <= cpp.

Lemma splitLoop_increasing (fuel : nat) :
  forall remaining cur pgs r bound,
    increasing pgs -> below cur pgs ->
    cur + inject_Z (len remaining) <= bound ->
    splitLoop fuel cpp remaining cur pgs = Some r ->
    increasing r /\ below bound r.
Proof.
  induction fuel as [|fuel IH]; intros remaining cur pgs r bound Hinc Hb Hbound H;
    simpl in H; destruct (isEmpty remaining) eqn:Eempty; try discriminate.
  - injection H as <-. split; [exact Hinc|]. apply (below_weaken (b:=cur)); [|exact Hb].
    pose proof (len_nonneg remaining) as Hl. apply (proj2 (inject_Z_le_iff 0 _)) in Hl.
    change (inject_Z 0) with 0 in Hl. lra.
  - injection H as <-. split; [exact Hinc|]. apply (below_weaken (b:=cur)); [|exact Hb].
    pose proof (len_nonneg remaining) as Hl. apply (proj2 (inject_Z_le_iff 0 _)) in Hl.
    change (inject_Z 0) with 0 in Hl. lra.
  - apply isEmpty_false in Eempty.
    destruct (breakPointOf_integral cpp_integral cpp_ge_1 Eempty) as [Hbi Hble].
    pose proof (breakPointOf_ge_1 cpp_ge_1 Eempty) as Hbge.
    set (bp := breakPointOf cpp remaining) in *.
    assert (Hidx : inject_Z (Z.of_nat (toIndex bp)) == bp)
      by (apply integral_index; [exact Hbi | lra]).
    assert (Hn : (Z.of_nat (toIndex bp) <= len remaining)%Z).
    { apply (proj1 (inject_Z_le_iff _ _)). rewrite Hidx. exact Hble. }
    assert (Hrest : inject_Z (len (trim (substringFrom remaining bp)))
                    + inject_Z (Z.of_nat (toIndex bp))
                    <= inject_Z (len remaining)).
    { rewrite <- inject_Z_plus. apply (proj2 (inject_Z_le_iff _ _)).
      pose proof (trim_length (substringFrom remaining bp)) as Ht.
      unfold substringFrom in *. rewrite length_skipn in Ht.
      unfold len in *. lia. }
    eapply IH; [| |
      |exact H].
    + destruct (isEmpty _); [exact Hinc|]. constructor; [exact Hinc | exact Hb].
    + destruct (isEmpty _).
      * apply (below_weaken (b:=cur)); [lra | exact Hb].
      * apply below_push; [apply (below_weaken (b:=cur)); [lra | exact Hb]|].
        simpl. lra.
    + lra.
Qed.

Lemma flushBefore_orderedAt (b : Q) (z : Z) (a : Acc) :
  currentPageContent a <> [] -> orderedAt b z a -> orderedAt b z (flushBefore z a).
Proof.
  intros Hne (Hinc & Hb & [(_ & Ho & Hbo)|(He & _)]); [|contradiction].
  split; [|split]; simpl.
  - constructor; assumption.
  - apply below_push; [exact Hb | simpl; lra].
  - right. split; reflexivity.
Qed.

Lemma processParagraph_ordered (fuel : nat) (a a' : Acc) (p : Paragraph)
    (b b' : Q) :
  ordered b a ->
  b <= inject_Z (pstart p) ->
  (1 <= plength p)%Z -> plength p = len (ptext p) ->
  inject_Z (pstart p + plength p) <= b' ->
  processParagraph fuel cpp a p = Some a' -> ordered b' a'.
Proof.
  intros (H0 & Hinc & Hb & Hempty & Hfull) Hbp Hlen Hwf Hb' H.
  assert (Hpb' : inject_Z (pstart p) < b').
  { rewrite inject_Z_plus in Hb'.
    apply (proj2 (inject_Z_le_iff 1 _)) in Hlen. change (inject_Z 1) with 1 in Hlen. lra. }
  unfold processParagraph in H.
  set (a1 := if Qeq_bool (currentPageOffsetStart a) (-1) then _ else a) in H.
  assert (H1 : orderedAt b (pstart p) a1).
  { subst a1. destruct (currentPageContent a) as [|t c] eqn:Ec.
    - rewrite (proj2 (Qeq_bool_iff _ _) (Hempty eq_refl)).
      split; [exact Hinc|]. split; [exact Hb|]. right. simpl. split; reflexivity.
    - destruct (Hfull ltac:(discriminate)) as [Ho Hbo].
      assert (E : Qeq_bool (currentPageOffsetStart a) (-1) = false).
      { destruct (Qeq_bool _ _) eqn:E; [|reflexivity].
        apply Qeq_bool_iff in E. lra. }
      rewrite E. split; [exact Hinc|]. split; [exact Hb|]. left.
      split; [rewrite Ec; discriminate|]. now split. }
  clearbody a1.
  set (a2 := if isTitleText (ptext p) && _ then _ else a1) in H.
  assert (H2 : orderedAt b (pstart p) a2).
  { subst a2. destruct (isTitleText (ptext p)); [|exact H1]. simpl.
    destruct (isEmpty (currentPageContent a1)) eqn:E; [exact H1|].
    apply flushBefore_orderedAt; [now apply isEmpty_false | exact H1]. }
  clearbody a2.
  set (a3 := if Qltb cpp _ && _ then _ else a2) in H.
  assert (H3 : orderedAt b (pstart p) a3).
  { subst a3.
    destruct (Qltb cpp (inject_Z (currentCharCount a2 + plength p)));
      [|exact H2].
    simpl.
    destruct (isEmpty (currentPageContent a2)) eqn:E; [exact H2|].
    apply flushBefore_orderedAt; [now apply isEmpty_false | exact H2]. }
  clearbody a3.
  destruct (Qltb cpp (inject_Z (plength p))).
  - set (a4 := if negb _ then _ else a3) in H.
    assert (H4 : increasing (pages a4) /\ below b (pages a4)
                 /\ currentPageContent a4 = []).
    { subst a4. destruct H3 as (Hi3 & Hb3 & [(Hne & Ho & Hbo)|(He & _)]).
      - rewrite (proj2 (isEmpty_false _) Hne). simpl.
        split; [constructor; assumption|].
        split; [apply below_push; [exact Hb3 | simpl; lra] | reflexivity].
      - rewrite He. simpl. now split. }
    clearbody a4. destruct H4 as (Hi4 & Hb4 & He4).
    destruct (splitLoop fuel cpp _ _ _) as [pgs|] eqn:E; [|discriminate].
    injection H as <-.
    apply (@splitLoop_increasing fuel _ _ _ _ b') in E;
      [|exact Hi4|apply (below_weaken (b:=b)); assumption|rewrite Hwf in Hb';
        rewrite inject_Z_plus in Hb'; exact Hb'].
    destruct E as [E1 E2].
    split; [lra|]. split; [exact E1|]. split; [exact E2|]. simpl.
    split; [reflexivity | intro Hc; rewrite He4 in Hc; contradiction].
  - injection H as <-. destruct H3 as (Hi3 & Hb3 & Hcase).
    split; [lra|]. split; [exact Hi3|].
    split; [apply (below_weaken (b:=b)); [lra | exact Hb3]|]. simpl.
    split; [intro Hc; apply app_eq_nil in Hc; destruct Hc; discriminate|].
    intros _. destruct Hcase as [(Hne & Ho & Hbo)|(He & ->)].
    + split; [lra | exact Hbo].
    + split; [lra|]. apply (below_weaken (b:=b)); assumption.
Qed.

Lemma ordered_weaken (b b' : Q) (a : Acc) :
  b <= b' -> ordered b a -> ordered b' a.
Proof.
  intros Hb (H0 & Hinc & Hbl & Hempty & Hfull).
  split; [lra|]. split; [exact Hinc|].
  split; [apply (below_weaken (b:=b)); assumption|].
  split; [exact Hempty|]. intro Hne. destruct (Hfull Hne) as [Ho Hbo].
  split; [lra | exact Hbo].
Qed.

Lemma processAll_ordered (fuel : nat) (raw : list jsstring) :
  forall i a a',
    ordered (inject_Z i) a ->
    processAll fuel cpp a (fst (buildParagraphs i raw)) = Some a' ->
    ordered (inject_Z (snd (buildParagraphs i raw))) a'.
Proof.
  induction raw as [|r raw IH]; intros i a a' Ha H; simpl in *.
  - now injection H as <-.
  - assert (Hstep : inject_Z i <= inject_Z (i + len r + 2)).
    { apply (proj2 (inject_Z_le_iff _ _)). pose proof (len_nonneg r). lia. }
    destruct (isEmpty (trim r)) eqn:E.
    + apply IH in H; [exact H|]. now apply (ordered_weaken Hstep).
    + simpl in H.
      destruct (processParagraph fuel cpp a _) as [a1|] eqn:E1; [|discriminate].
      apply IH in H; [exact H|].
      apply (@processParagraph_ordered fuel a a1
               (mkParagraph (trim r) i (len (trim r)))
               (inject_Z i) (inject_Z (i + len r + 2)))
        in E1; [exact E1|exact Ha|apply Qle_refl| | |]; simpl.
      * apply isEmpty_false in E. unfold len.
        destruct (trim r); [congruence | simpl; lia].
      * reflexivity.
      * apply (proj2 (inject_Z_le_iff _ _)). pose proof (trim_length r). unfold len. lia.
Qed.

Lemma paginate_increasing (fuel : nat) (txt : list jsstring) (pgs : list Page) :
  paginate fuel cpp txt = Some pgs -> increasing pgs.
Proof.
  unfold paginate. intro H.
  destruct (processAll fuel cpp initAcc _) as [a|] eqn:E; [|discriminate].
  injection H as <-. apply increasing_filter.
  apply (@processAll_ordered fuel _ 0%Z initAcc a) in E.
  - destruct E as (_ & Hinc & _ & _ & Hfull). unfold pushLast.
    destruct (isEmpty (currentPageContent a)) eqn:Ee; [exact Hinc|]. simpl.
    destruct (negb _); [|exact Hinc].
    constructor; [exact Hinc|]. simpl. apply Hfull. now apply isEmpty_false.
  - split; [apply Qle_refl|]. split; [constructor|]. split; [constructor|].
    split; [reflexivity | intro Hc; now elim Hc].
Qed.

End IntegralBudget.

Lemma charsPerPage_integral (l : Layout) :
  ((charsPerLine l * linesPerPage l) mod 20 = 0)%Z \/ computedBudget l <= 100 ->
  integral (charsPerPage l).
Proof.
  intros H. destruct (charsPerPage_cases l) as [[-> _]|[-> Hgt]].
  - reflexivity.
  - destruct H as [H|H]; [|lra].
    rewrite computedBudget_product. unfold integral.
    apply Z.mod_divide in H; [|lia]. destruct H as [k Hk]. rewrite Hk.
    unfold Qfloor, Qeq. cbn [Qnum Qden inject_Z].
    replace (k * 20 * 85)%Z with (k * 17 * 100)%Z by lia.
    rewrite Z.div_mul by lia. lia.
Qed.

(** X16. With an integral budget, in particular whenever
    [charsPerLine * linesPerPage] is a multiple of 20 or the floor of
    100 applies, the start offsets of the final list strictly
    increase. *)
Lemma start_offsets_increasing_integral (fuel : nat) (l : Layout)
    (txt : list jsstring) (pgs : list Page) :
  integral (charsPerPage l) ->
  paginate fuel (charsPerPage l) txt = Some pgs ->
  forall i p q, nth_error pgs i = Some p -> nth_error pgs (S i) = Some q ->
                start p < start q.
Proof.
  intros Hi H. apply increasing_adjacent.
  pose proof (charsPerPage_floor l).
  apply (@paginate_increasing (charsPerPage l) Hi ltac:(lra) fuel txt pgs H).
Qed.

(** ** A long paragraph without any white space *)

Lemma noWhiteSpace_trim (s : jsstring) : noWhiteSpace s -> trim s = s.
Proof.
  intro H. apply trim_clean.
  - destruct s as [|c s]; [exact I|]. apply H. now left.
  - unfold endsClean. destruct (rev s) as [|c r] eqn:E; [exact I|].
    apply H. apply in_rev. rewrite E. now left.
Qed.

Lemma noWhiteSpace_firstn (n : nat) (s : jsstring) :
  noWhiteSpace s -> noWhiteSpace (firstn n s).
Proof.
  intros H c Hc. apply H. rewrite <- (firstn_skipn n s). apply in_or_app. now left.
Qed.

Lemma noWhiteSpace_skipn (n : nat) (s : jsstring) :
  noWhiteSpace s -> noWhiteSpace (skipn n s).
Proof.
  intros H c Hc. apply H. rewrite <- (firstn_skipn n s). apply in_or_app. now right.
Qed.

Lemma lastIndexFrom_absent (s pat : jsstring) :
  (forall k, startsWith pat (skipn k s) = false) ->
  forall k, lastIndexFrom s pat k = (-1)%Z.
Proof.
  intros H k. induction k as [|k IH]; cbn [lastIndexFrom]; rewrite H;
    [reflexivity | exact IH].
Qed.

Lemma lastIndexOf_no_space (s : jsstring) (position : Q) :
  noWhiteSpace s ->
  lastIndexOf s [DOT; SP] position = (-1)%Z
  /\ lastIndexOf s [SP] position = (-1)%Z.
Proof.
  intro H.
  assert (Hsp : forall t, noWhiteSpace t -> startsWith [SP] t = false).
  { intros [|c t] Ht; [reflexivity|]. cbn [startsWith]. rewrite andb_true_r.
    apply N.eqb_neq. intros <-. specialize (Ht SP (or_introl eq_refl)).
    discriminate. }
  assert (Hdot : forall t, noWhiteSpace t -> startsWith [DOT; SP] t = false).
  { intros [|c [|c2 t]] Ht; [reflexivity | apply andb_false_r |].
    cbn [startsWith].
    assert (E : (SP =? c2)%N = false).
    { apply N.eqb_neq. intros <-.
      specialize (Ht SP (or_intror (or_introl eq_refl))). discriminate. }
    rewrite E. apply andb_false_r. }
  unfold lastIndexOf. split.
  - destruct (_ <? _)%nat; [reflexivity|]. apply lastIndexFrom_absent.
    intro k. apply Hdot. now apply noWhiteSpace_skipn.
  - destruct (_ <? _)%nat; [reflexivity|]. apply lastIndexFrom_absent.
    intro k. apply Hsp. now apply noWhiteSpace_skipn.
Qed.

Lemma toIndex_min (z : Z) (cpp : Q) :
  (0 <= z)%Z -> 0 <= cpp ->
  toIndex (Qmin (inject_Z z) cpp) = Nat.min (Z.to_nat z) (toIndex cpp).
Proof.
  intros Hz Hc. unfold toIndex.
  destruct (Q.min_spec (inject_Z z) cpp) as [[Hlt E]|[Hle E]];
    rewrite (Qfloor_comp _ _ E).
  - rewrite Qfloor_Z.
    assert (z <= Qfloor cpp)%Z by (apply Qfloor_ge_Z; lra). lia.
  - assert (Qfloor cpp <= z)%Z.
    { apply (proj1 (inject_Z_le_iff _ _)). pose proof (Qfloor_le cpp). lra. }
    lia.
Qed.

Lemma breakPointOf_unbroken (cpp : Q) (remaining : jsstring) :
  1 <= cpp -> noWhiteSpace remaining ->
  toIndex (breakPointOf cpp remaining)
  = Nat.min (List.length remaining) (toIndex cpp).
Proof.
  intros Hc Hno. unfold breakPointOf. cbv zeta.
  destruct (lastIndexOf_no_space (Qmin (inject_Z (len remaining)) cpp) Hno)
    as [-> ->].
  assert (E : Qltb (cpp * (1 # 2)) (inject_Z (-1)) = false)
    by (apply Qltb_ge; change (inject_Z (-1)) with (-1 # 1); lra).
  rewrite E.
  assert (Hidx : toIndex (Qmin (inject_Z (len remaining)) cpp)
                 = Nat.min (List.length remaining) (toIndex cpp)).
  { rewrite toIndex_min; [|apply len_nonneg|lra]. unfold len.
    now rewrite Nat2Z.id. }
  destruct (Qltb (Qmin _ cpp) _); exact Hidx.
Qed.

Lemma ceil_div_small (n L : nat) :
  (1 <= L <= n)%nat -> ((L + n - 1) / n = 1)%nat.
Proof.
  intro H. symmetry. apply (Nat.div_unique _ _ _ (L - 1)); lia.
Qed.

Lemma ceil_div_step (n L : nat) :
  (1 <= n < L)%nat -> ((L + n - 1) / n = S ((L - n + n - 1) / n))%nat.
Proof.
  intro H. replace (L + n - 1)%nat with ((L - n + n - 1) + 1 * n)%nat by lia.
  rewrite Nat.div_add by lia. lia.
Qed.

(** The split of a text without white space: the hard limit each
    time, hence as many chunks as the length divided by the whole part
    of the budget, rounded up; each is a page of its own. *)
Lemma splitLoop_unbroken (cpp : Q) (fuel : nat) :
  1 <= cpp ->
  forall remaining cur pgs r,
    noWhiteSpace remaining ->
    splitLoop fuel cpp remaining cur pgs = Some r ->
    exists chunks,
      r = pgs ++ chunks
      /\ List.length chunks
         = ((List.length remaining + toIndex cpp - 1) / toIndex cpp)%nat
      /\ Forall (chunkPage (toIndex cpp)) chunks.
Proof.
  intro Hc. pose proof (toIndex_pos Hc) as Hn.
  induction fuel as [|fuel IH]; intros remaining cur pgs r Hno H;
    simpl in H; destruct (isEmpty remaining) eqn:Ee; try discriminate.
  - apply isEmpty_true in Ee. subst remaining. injection H as <-.
    exists []. rewrite app_nil_r. simpl. split; [reflexivity|].
    split; [|constructor]. symmetry. apply Nat.div_small. lia.
  - apply isEmpty_true in Ee. subst remaining. injection H as <-.
    exists []. rewrite app_nil_r. simpl. split; [reflexivity|].
    split; [|constructor]. symmetry. apply Nat.div_small. lia.
  - apply isEmpty_false in Ee.
    assert (HL : (1 <= List.length remaining)%nat)
      by (destruct remaining; [congruence | simpl; lia]).
    unfold substringTo, substringFrom in H.
    rewrite (breakPointOf_unbroken Hc Hno) in H.
    set (m := Nat.min (List.length remaining) (toIndex cpp)) in *.
    rewrite !noWhiteSpace_trim in H
      by (first [now apply noWhiteSpace_firstn | now apply noWhiteSpace_skipn]).
    assert (Hchunk : (List.length (firstn m remaining) = m)%nat)
      by (rewrite length_firstn; lia).
    destruct (firstn m remaining) as [|c0 chunk] eqn:Ef;
      [simpl in Hchunk; lia|].
    cbn [isEmpty] in H.
    apply IH in H; [|now apply noWhiteSpace_skipn].
    destruct H as (chunks & -> & Hlen & Hall).
    eexists (_ :: chunks). rewrite <- app_assoc. split; [reflexivity|].
    rewrite length_skipn in Hlen. split.
    + cbn [List.length]. rewrite Hlen.
      destruct (Nat.le_gt_cases (List.length remaining) (toIndex cpp)) as [Hle|Hgt].
      * rewrite (ceil_div_small (n:=toIndex cpp) (L:=List.length remaining)) by lia.
        replace (List.length remaining - m)%nat with 0%nat by lia.
        simpl. rewrite Nat.div_small by lia. reflexivity.
      * rewrite (ceil_div_step (n:=toIndex cpp) (L:=List.length remaining)) by lia.
        replace m with (toIndex cpp) by lia. reflexivity.
    + constructor; [|exact Hall]. eexists. split; [reflexivity|]. lia.
Qed.

(** The example of the specification: a paragraph of length five
    times the budget, without white space, gives 5 or 6 chunks. *)
Lemma five_budgets_unbroken (cpp : Q) (fuel : nat) (text : jsstring)
    (cur : Q) (pgs r : list Page) :
  100 <= cpp -> noWhiteSpace text ->
  inject_Z (len text) == 5 * cpp ->
  splitLoop fuel cpp text cur pgs = Some r ->
  exists chunks,
    r = pgs ++ chunks
    /\ (5 <= List.length chunks <= 6)%nat
    /\ Forall (chunkPage (toIndex cpp)) chunks.
Proof.
  intros Hc Hno Hlen H.
  apply splitLoop_unbroken in H; [|lra|exact Hno].
  destruct H as (chunks & -> & Hcount & Hall).
  exists chunks. split; [reflexivity|]. split; [|exact Hall].
  rewrite Hcount. clear Hcount Hall.
  pose proof (Qfloor_le cpp) as Hlo. pose proof (Qlt_floor cpp) as Hhi.
  assert (H100 : (100 <= Qfloor cpp)%Z) by (apply Qfloor_ge_Z; exact Hc).
  assert (H1 : (5 * Qfloor cpp <= len text)%Z).
  { apply (proj1 (inject_Z_le_iff _ _)). rewrite inject_Z_mult.
    change (inject_Z 5) with 5. lra. }
  assert (H2 : (len text < 5 * (Qfloor cpp + 1))%Z).
  { apply (proj1 (inject_Z_lt_iff _ _)). rewrite inject_Z_mult.
    change (inject_Z 5) with 5. lra. }
  unfold toIndex, len in *.
  set (n := Z.to_nat (Qfloor cpp)) in *.
  assert (Hn : Qfloor cpp = Z.of_nat n) by (subst n; lia).
  rewrite Hn in *. split.
  - apply Nat.div_le_lower_bound; lia.
  - apply Nat.lt_succ_r. apply Nat.Div0.div_lt_upper_bound; lia.
Qed.

(** * Further properties of the handler *)

(** ** Capacity of a page *)




Section Capacity.

Variable cpp : Q.
Hypothesis cpp_ge_1 : 1 <= cpp.







End Capacity.



(** ** The range of a page *)

Section Ranges.

Variable cpp : Q.
Hypothesis cpp_ge_1 : 1 <= cpp.

Lemma splitLoop_ranged (fuel : nat) :
  forall remaining cur pgs r,
    0 <= cur -> Forall pageRanged pgs ->
    splitLoop fuel cpp remaining cur pgs = Some r -> Forall pageRanged r.
Proof.
  induction fuel as [|fuel IH]; intros remaining cur pgs r Hcur Hp H;
    simpl in H; destruct (isEmpty remaining) eqn:Ee; try discriminate;
    try (injection H as <-; exact Hp).
  apply isEmpty_false in Ee.
  pose proof (breakPointOf_ge_1 cpp_ge_1 Ee) as Hbp.
  eapply IH; [| |exact H].
  - lra.
  - destruct (isEmpty _); [exact Hp|].
    apply Forall_app. split; [exact Hp|]. constructor; [|constructor].
    unfold pageRanged. simpl.
    match goal with
    | |- context [inject_Z (len ?c)] =>
        pose proof (proj2 (inject_Z_le_iff 0 _) (len_nonneg c)) as Hl
    end.
    change (inject_Z 0) with 0 in Hl. lra.
Qed.

Lemma flushBefore_rangedAt (z : Z) (a : Acc) :
  currentPageOffsetStart a + 1 <= inject_Z z ->
  rangedAt z a -> rangedAt z (flushBefore z a).
Proof.
  intros Hlt (H1 & H2). split; simpl; [|lra].
  apply Forall_app. split; [exact H1|]. constructor; [|constructor].
  unfold pageRanged. simpl. lra.
Qed.

Lemma processParagraph_ranged (fuel : nat) (a a' : Acc) (p : Paragraph)
    (b b' : Q) :
  rangedAcc b a ->
  b <= inject_Z (pstart p) ->
  inject_Z (pstart p) + 1 <= b' ->
  processParagraph fuel cpp a p = Some a' -> rangedAcc b' a'.
Proof.
  intros (H0 & Hp & Hempty & Hfull) Hb Hb' H.
  unfold processParagraph in H.
  set (a1 := if Qeq_bool (currentPageOffsetStart a) (-1) then _ else a) in H.
  (* after the first statement the start of the page is known, and
     when the accumulator holds content it lies one below the
     paragraph at least *)
  assert (H1 : rangedAt (pstart p) a1
               /\ (currentPageContent a1 <> [] ->
                   currentPageOffsetStart a1 + 1 <= inject_Z (pstart p))).
  { subst a1. destruct (Qeq_bool (currentPageOffsetStart a) (-1)) eqn:E.
    - apply Qeq_bool_iff in E. simpl. split.
      + split; simpl; [exact Hp | lra].
      + intro Hne. destruct (Hfull Hne) as [Hc _]. lra.
    - assert (Hne : currentPageContent a <> []).
      { intro He. apply Hempty in He. apply Qeq_bool_iff in He. congruence. }
      destruct (Hfull Hne) as [Hc1 Hc2]. split.
      + split; [exact Hp | lra].
      + intros _. lra. }
  clearbody a1.
  set (a2 := if isTitleText (ptext p) && _ then _ else a1) in H.
  assert (H2 : rangedAt (pstart p) a2
               /\ (currentPageContent a2 <> [] ->
                   currentPageOffsetStart a2 + 1 <= inject_Z (pstart p))).
  { subst a2. destruct (isTitleText (ptext p)); [|exact H1]. simpl.
    destruct (isEmpty (currentPageContent a1)) eqn:E; [exact H1|]. simpl.
    apply isEmpty_false in E. destruct H1 as [H1 H1'].
    split; [apply flushBefore_rangedAt; auto|]. simpl. intro Hc. now elim Hc. }
  clearbody a2.
  set (a3 := if Qltb cpp _ && _ then _ else a2) in H.
  assert (H3 : rangedAt (pstart p) a3
               /\ (currentPageContent a3 <> [] ->
                   currentPageOffsetStart a3 + 1 <= inject_Z (pstart p))).
  { subst a3.
    destruct (Qltb cpp (inject_Z (currentCharCount a2 + plength p)));
      [|exact H2].
    simpl. destruct (isEmpty (currentPageContent a2)) eqn:E; [exact H2|]. simpl.
    apply isEmpty_false in E. destruct H2 as [H2 H2'].
    split; [apply flushBefore_rangedAt; auto|]. simpl. intro Hc. now elim Hc. }
  clearbody a3. destruct H3 as [[H31 H32] H33].
  assert (Hps : 0 <= inject_Z (pstart p)) by lra.
  destruct (Qltb cpp (inject_Z (plength p))).
  - set (a4 := if negb _ then _ else a3) in H.
    assert (H4 : Forall pageRanged (pages a4) /\ currentPageContent a4 = []).
    { subst a4. destruct (isEmpty (currentPageContent a3)) eqn:E; simpl.
      - split; [exact H31 | now apply isEmpty_true].
      - apply isEmpty_false in E. specialize (H33 E). split; [|reflexivity].
        apply Forall_app. split; [exact H31|]. constructor; [|constructor].
        unfold pageRanged. simpl. lra. }
    clearbody a4. destruct H4 as [H41 H42].
    destruct (splitLoop fuel cpp _ _ _) as [pgs|] eqn:E; [|discriminate].
    injection H as <-. split; [lra|]. split; simpl.
    + eapply splitLoop_ranged; [exact Hps | exact H41 | exact E].
    + split; [reflexivity | intro Hc; rewrite H42 in Hc; now elim Hc].
  - injection H as <-. split; [lra|]. split; [exact H31|]. simpl.
    split; [intro Hc; apply app_eq_nil in Hc; destruct Hc; discriminate|].
    intros _. lra.
Qed.

Lemma rangedAcc_weaken (b b' : Q) (a : Acc) :
  b <= b' -> rangedAcc b a -> rangedAcc b' a.
Proof.
  intros Hb (H0 & Hp & Hempty & Hfull).
  split; [lra|]. split; [exact Hp|]. split; [exact Hempty|].
  intro Hne. destruct (Hfull Hne). split; lra.
Qed.

Lemma processAll_ranged (fuel : nat) (raw : list jsstring) :
  forall i a a',
    rangedAcc (inject_Z i) a ->
    processAll fuel cpp a (fst (buildParagraphs i raw)) = Some a' ->
    rangedAcc (inject_Z (snd (buildParagraphs i raw))) a'.
Proof.
  induction raw as [|r raw IH]; intros i a a' Ha H; simpl in *.
  - now injection H as <-.
  - assert (Hstep : inject_Z i + 1 <= inject_Z (i + len r + 2)).
    { change 1 with (inject_Z 1). rewrite <- inject_Z_plus.
      apply (proj2 (inject_Z_le_iff _ _)). pose proof (len_nonneg r). lia. }
    destruct (isEmpty (trim r)) eqn:E.
    + apply IH in H; [exact H|]. apply (@rangedAcc_weaken (inject_Z i)); [lra | exact Ha].
    + simpl in H.
      destruct (processParagraph fuel cpp a _) as [a1|] eqn:E1; [|discriminate].
      apply IH in H; [exact H|].
      apply (@processParagraph_ranged fuel a a1
               (mkParagraph (trim r) i (len (trim r)))
               (inject_Z i) (inject_Z (i + len r + 2)) Ha) in E1;
        [exact E1 | apply Qle_refl | exact Hstep].
Qed.

Lemma paginate_ranged (fuel : nat) (txt : list jsstring) (pgs : list Page) :
  paginate fuel cpp txt = Some pgs -> Forall pageRanged pgs.
Proof.
  unfold paginate. intro H.
  destruct (processAll fuel cpp initAcc _) as [a|] eqn:E; [|discriminate].
  injection H as <-.
  apply (@processAll_ranged fuel _ 0%Z initAcc a) in E.
  - destruct E as (_ & Hp & _ & Hfull).
    apply Forall_forall. intros pg Hpg. apply filter_In in Hpg.
    destruct Hpg as [Hpg _]. unfold pushLast in Hpg.
    rewrite Forall_forall in Hp.
    destruct (isEmpty (currentPageContent a)) eqn:Ee; simpl in Hpg;
      [now apply Hp|].
    destruct (negb _); [|now apply Hp].
    apply in_app_or in Hpg. destruct Hpg as [Hpg|[<-|[]]]; [now apply Hp|].
    apply isEmpty_false in Ee. destruct (Hfull Ee). unfold pageRanged. simpl. lra.
  - split; [apply Qle_refl|]. split; [constructor|].
    split; [reflexivity | intro Hc; now elim Hc].
Qed.

End Ranges.

Lemma page_range_bounds_aux (fuel : nat) (l : Layout) (txt : list jsstring)
    (pgs : list Page) (pg : Page) :
  paginate fuel (charsPerPage l) txt = Some pgs -> In pg pgs ->
  0 <= start pg /\ start pg <= endOff pg.
Proof.
  intros H Hpg.
  pose proof (charsPerPage_floor l) as Hge.
  assert (H1 : 1 <= charsPerPage l) by lra.
  pose proof (paginate_ranged H1 _ _ H) as Hall.
  rewrite Forall_forall in Hall. exact (Hall pg Hpg).
Qed.

(** X2. Every page of the final list has a range that starts at a
    non negative offset and ends at or after its start. *)
Theorem page_range_well_formed :
  forall (fuel : nat) (l : Layout) (txt : list jsstring) (pgs : list Page)
         (pg : Page),
    paginate fuel (charsPerPage l) txt = Some pgs ->
    In pg pgs ->
    0 <= start pg /\ start pg <= endOff pg.
Proof.
  intros fuel l txt pgs pg H Hpg. now apply (@page_range_bounds_aux fuel l txt pgs).
Qed.

Lemma page_range_well_formed_witness :
  exists pgs : list Page,
    paginate 12 (charsPerPage (mkLayout 21 7)) unbrokenText = Some pgs
    /\ forall pg, In pg pgs -> 0 <= start pg /\ start pg <= endOff pg.
Proof.
  destruct (paginate 12 (charsPerPage (mkLayout 21 7)) unbrokenText)
    as [pgs|] eqn:E; [|vm_compute in E; discriminate].
  exists pgs. split; [reflexivity|]. intros pg Hpg.
  exact (@page_range_well_formed 12 (mkLayout 21 7) unbrokenText pgs pg E Hpg).
Defined.

(** ** Locating the start of a page *)

Lemma scanContaining_at_most (q : Q) (pgs : list Page) :
  forall (i : Z) (k : nat) (pg : Page),
    nth_error pgs k = Some pg -> containsOffset pg q ->
    exists (j : nat) (pg' : Page),
      (j <= k)%nat /\ nth_error pgs j = Some pg' /\ containsOffset pg' q
      /\ scanContaining q i pgs = Some (i + Z.of_nat j + 1)%Z.
Proof.
  induction pgs as [|pg0 pgs IH]; intros i k pg Hk Hc.
  - destruct k; discriminate.
  - simpl. destruct (Qle_bool (start pg0) q && Qle_bool q (endOff pg0)) eqn:E.
    + apply containsOffset_bool in E. exists 0%nat, pg0.
      split; [lia|]. split; [reflexivity|]. split; [exact E|].
      f_equal. simpl. lia.
    + destruct k as [|k].
      * injection Hk as ->. apply containsOffset_bool in Hc. congruence.
      * destruct (IH (i + 1)%Z k pg Hk Hc) as (j & pg' & Hj & Hn & Hc' & Hs).
        exists (S j), pg'. split; [lia|]. split; [exact Hn|]. split; [exact Hc'|].
        rewrite Hs. f_equal. lia.
Qed.

(** X3. The offset a page starts at is always located: in the page
    list of a run, [findPageForOffset] applied to the start of the
    page of index [k] answers the (1-based) index of a page that holds
    that offset in its range, and that page is the page [k] itself or
    one before it. *)
Theorem page_start_is_located :
  forall (fuel : nat) (l : Layout) (txt : list jsstring) (pgs : list Page)
         (k : nat) (pg : Page),
    paginate fuel (charsPerPage l) txt = Some pgs ->
    nth_error pgs k = Some pg ->
    exists (j : nat) (found : Page),
      (j <= k)%nat
      /\ nth_error pgs j = Some found
      /\ containsOffset found (start pg)
      /\ findPageForOffsetIn pgs (Num (start pg)) = (Z.of_nat j + 1)%Z.
Proof.
  intros fuel l txt pgs k pg H Hk.
  destruct (@page_range_bounds_aux fuel l txt pgs pg H (nth_error_In _ _ Hk))
    as [H0 H1].
  destruct (@scanContaining_at_most (start pg) pgs 0%Z k pg Hk (conj (Qle_refl _) H1))
    as (j & found & Hj & Hn & Hc & Hs).
  exists j, found. split; [exact Hj|]. split; [exact Hn|]. split; [exact Hc|].
  unfold findPageForOffsetIn.
  rewrite (proj2 (Qltb_ge _ _) H0), Hs. reflexivity.
Qed.

Lemma page_start_is_located_witness :
  exists (pgs : list Page) (pg : Page) (j : nat),
    paginate 12 (charsPerPage (mkLayout 21 7)) unbrokenText = Some pgs
    /\ nth_error pgs 3 = Some pg
    /\ (j <= 3)%nat
    /\ findPageForOffsetIn pgs (Num (start pg)) = (Z.of_nat j + 1)%Z.
Proof.
  destruct (paginate 12 (charsPerPage (mkLayout 21 7)) unbrokenText)
    as [pgs|] eqn:E; [|vm_compute in E; discriminate].
  destruct (nth_error pgs 3) as [pg|] eqn:E3;
    [|vm_compute in E; injection E as <-; vm_compute in E3; discriminate].
  destruct (@page_start_is_located 12 (mkLayout 21 7) unbrokenText pgs 3 pg E E3)
    as (j & found & Hj & _ & _ & Hf).
  exists pgs, pg, j. split; [reflexivity|]. split; [exact E3|].
  split; [exact Hj | exact Hf].
Defined.

(** ** Integral budgets *)

Lemma start_offsets_increasing_integral_witness :
  exists pgs : list Page,
    paginate 40 (charsPerPage (mkLayout 40 20)) exampleText = Some pgs
    /\ forall i p q, nth_error pgs i = Some p -> nth_error pgs (S i) = Some q ->
                     start p < start q.
Proof.
  destruct (paginate 40 (charsPerPage (mkLayout 40 20)) exampleText)
    as [pgs|] eqn:E; [|vm_compute in E; discriminate].
  exists pgs. split; [reflexivity|].
  apply (@start_offsets_increasing_integral 40 (mkLayout 40 20) exampleText pgs);
    [|exact E].
  apply charsPerPage_integral. left. reflexivity.
Defined.

(** ** A document that is one unbroken paragraph *)

Lemma pagesText_app (a b : list Page) : pagesText (a ++ b) = pagesText a ++ pagesText b.
Proof. unfold pagesText. now rewrite map_app, concat_app. Qed.

Lemma noWhiteSpace_no_newline (s : jsstring) :
  noWhiteSpace s -> forall c, In c s -> c <> NL.
Proof. intros H c Hc ->. specialize (H NL Hc). discriminate. Qed.

(** The split of a text without white space, as the filter leaves
    it: single chunks of more than 5 and at most [toIndex cpp]
    characters which, put end to end, give the text back but for a
    last chunk of 5 characters or fewer. *)
Lemma splitLoop_unbroken_kept (cpp : Q) (fuel : nat) :
  100 <= cpp ->
  forall remaining cur r,
    noWhiteSpace remaining ->
    splitLoop fuel cpp remaining cur [] = Some r ->
    exists tail : jsstring,
      pagesText (filter keepPage r) ++ tail = remaining
      /\ (List.length tail <= 5)%nat
      /\ (List.length (filter keepPage r) + (if isEmpty tail then 0 else 1)
          = chunksNeeded (toIndex cpp) (List.length remaining))%nat
      /\ Forall (chunkPage (toIndex cpp)) (filter keepPage r).
Proof.
  intro Hc. assert (Hc1 : 1 <= cpp) by lra.
  assert (Hn : (100 <= toIndex cpp)%nat).
  { unfold toIndex. assert (100 <= Qfloor cpp)%Z by (apply Qfloor_ge_Z; exact Hc). lia. }
  assert (Hgen : forall fuel remaining cur pgs r,
             noWhiteSpace remaining ->
             splitLoop fuel cpp remaining cur pgs = Some r ->
             exists chunks tail,
               r = pgs ++ chunks
               /\ pagesText (filter keepPage chunks) ++ tail = remaining
               /\ (List.length tail <= 5)%nat
               /\ (List.length (filter keepPage chunks)
                   + (if isEmpty tail then 0 else 1)
                   = chunksNeeded (toIndex cpp) (List.length remaining))%nat
               /\ Forall (chunkPage (toIndex cpp)) (filter keepPage chunks)).
  { clear fuel. induction fuel as [|fuel IH]; intros remaining cur pgs r Hno H;
      simpl in H; destruct (isEmpty remaining) eqn:Ee; try discriminate.
    - apply isEmpty_true in Ee. subst remaining. injection H as <-.
      exists [], []. rewrite app_nil_r. simpl. unfold chunksNeeded. simpl.
      repeat split; try lia; try constructor.
      symmetry. apply Nat.div_small. lia.
    - apply isEmpty_true in Ee. subst remaining. injection H as <-.
      exists [], []. rewrite app_nil_r. simpl. unfold chunksNeeded. simpl.
      repeat split; try lia; try constructor.
      symmetry. apply Nat.div_small. lia.
    - apply isEmpty_false in Ee.
      assert (HL : (1 <= List.length remaining)%nat)
        by (destruct remaining; [congruence | simpl; lia]).
      unfold substringTo, substringFrom in H.
      rewrite (breakPointOf_unbroken Hc1 Hno) in H.
      set (m := Nat.min (List.length remaining) (toIndex cpp)) in *.
      rewrite !noWhiteSpace_trim in H
        by (first [now apply noWhiteSpace_firstn | now apply noWhiteSpace_skipn]).
      assert (Hchunk : (List.length (firstn m remaining) = m)%nat)
        by (rewrite length_firstn; lia).
      destruct (isEmpty (firstn m remaining)) eqn:Ef.
      { apply isEmpty_true in Ef. rewrite Ef in Hchunk. simpl in Hchunk. lia. }
      apply IH in H; [|now apply noWhiteSpace_skipn].
      destruct H as (chunks & tail & -> & Htext & Htail & Hcount & Hall).
      rewrite length_skipn in Hcount.
      destruct (Nat.le_gt_cases (List.length remaining) (toIndex cpp)) as [Hle|Hgt].
      + (* the last chunk: what remains fits *)
        assert (Hm : m = List.length remaining) by lia.
        assert (Hsk : skipn m remaining = []).
        { apply length_zero_iff_nil. rewrite length_skipn. lia. }
        rewrite Hsk in Htext.
        assert (Hnil : pagesText (filter keepPage chunks) = [] /\ tail = [])
          by (now apply app_eq_nil).
        destruct Hnil as [Hnil ->].
        assert (Hchunks : filter keepPage chunks = []).
        { destruct (filter keepPage chunks) as [|pg0 rest] eqn:Efl; [reflexivity|].
          rewrite Forall_forall in Hall.
          destruct (Hall pg0 (or_introl eq_refl)) as (c0 & Hc0 & Hl0).
          unfold pagesText in Hnil. simpl in Hnil. rewrite Hc0 in Hnil. simpl in Hnil.
          destruct c0; [simpl in Hl0; lia | discriminate]. }
        assert (Hfull : firstn m remaining = remaining)
          by (rewrite Hm; apply firstn_all).
        rewrite Hfull.
        assert (Hneed : chunksNeeded (toIndex cpp) (List.length remaining) = 1%nat)
          by (apply ceil_div_small; lia).
        destruct (keepPage (mkPage [remaining] cur (cur + inject_Z (len remaining))))
          eqn:Ek.
        * eexists (_ :: chunks), []. rewrite <- app_assoc.
          split; [reflexivity|]. cbn [filter].
          match goal with
          | |- context [keepPage ?pg] =>
              replace (keepPage pg) with (keepPage (mkPage [remaining] cur (cur + inject_Z (len remaining)))) by reflexivity
          end.
          rewrite Ek, Hchunks.
          unfold pagesText. simpl. rewrite !app_nil_r.
          split; [reflexivity|]. split; [lia|]. split; [now rewrite Hneed|].
          constructor; [|constructor]. exists remaining. split; [reflexivity | lia].
        * eexists (_ :: chunks), remaining. rewrite <- app_assoc.
          split; [reflexivity|]. cbn [filter].
          match goal with
          | |- context [keepPage ?pg] =>
              replace (keepPage pg) with (keepPage (mkPage [remaining] cur (cur + inject_Z (len remaining)))) by reflexivity
          end.
          rewrite Ek, Hchunks.
          unfold pagesText. simpl.
          split; [reflexivity|].
          unfold keepPage in Ek. simpl in Ek. rewrite app_nil_r in Ek.
          apply Z.ltb_ge in Ek. unfold len in Ek.
          split; [lia|]. split; [|constructor].
          rewrite Hneed. now destruct remaining.
      + (* a full chunk, kept by the filter *)
        assert (Hm : m = toIndex cpp) by lia.
        assert (Ek : keepPage (mkPage [firstn m remaining] cur
                                 (cur + inject_Z (len (firstn m remaining)))) = true).
        { unfold keepPage. simpl. rewrite app_nil_r. apply Z.ltb_lt.
          unfold len. rewrite Hchunk. lia. }
        eexists (_ :: chunks), tail. rewrite <- app_assoc.
        split; [reflexivity|]. cbn [filter].
        match goal with
        | |- context [keepPage ?pg] =>
            replace (keepPage pg) with true by (symmetry; exact Ek)
        end.
        split.
        { unfold pagesText in *. simpl. rewrite app_nil_r, <- app_assoc, Htext.
          apply firstn_skipn. }
        split; [exact Htail|]. split.
        { cbn [List.length Nat.add]. rewrite Hcount. unfold chunksNeeded.
          rewrite (ceil_div_step (n:=toIndex cpp) (L:=List.length remaining)) by lia.
          rewrite Hm. reflexivity. }
        constructor; [|exact Hall]. eexists. split; [reflexivity|]. lia. }
  intros remaining cur r Hno H.
  destruct (Hgen fuel remaining cur [] r Hno H) as (chunks & tail & -> & H1 & H2 & H3 & H4).
  exists tail. simpl. auto.
Qed.

Lemma processParagraph_first_oversize (fuel : nat) (cpp : Q) (text : jsstring)
    (L : Z) :
  Qltb cpp (inject_Z L) = true ->
  processParagraph fuel cpp initAcc (mkParagraph text 0 L)
  = match splitLoop fuel cpp text 0 [] with
    | None => None
    | Some pgs => Some (mkAcc pgs [] (-1) 0)
    end.
Proof.
  intro H. unfold processParagraph, initAcc.
  cbn [currentPageOffsetStart currentPageContent currentCharCount pages
       ptext pstart plength].
  change (Qeq_bool (-1) (-1)) with true. cbv iota.
  cbn [currentPageOffsetStart currentPageContent currentCharCount pages
       isEmpty negb].
  rewrite !andb_false_r. cbv iota.
  cbn [currentPageOffsetStart currentPageContent currentCharCount pages
       isEmpty negb].
  rewrite H. reflexivity.
Qed.

Lemma paginate_single_oversize (fuel : nat) (cpp : Q) (text : jsstring)
    (pgs : list Page) :
  noWhiteSpace text -> text <> [] -> cpp < inject_Z (len text) ->
  paginate fuel cpp [text] = Some pgs ->
  exists r, splitLoop fuel cpp text 0 [] = Some r /\ pgs = filter keepPage r.
Proof.
  intros Hno Hne Hover H. unfold paginate in H. cbn [joinNN] in H.
  rewrite (splitNN_no_newline _ (noWhiteSpace_no_newline Hno)) in H.
  cbn [buildParagraphs] in H. cbv zeta in H.
  rewrite (noWhiteSpace_trim Hno) in H.
  rewrite (proj2 (isEmpty_false _) Hne) in H.
  cbn [fst snd processAll] in H.
  rewrite (@processParagraph_first_oversize fuel cpp text (len text)
             (proj2 (Qltb_lt _ _) Hover)) in H.
  destruct (splitLoop fuel cpp text 0 []) as [r|] eqn:E; [|discriminate].
  exists r. split; [reflexivity|].
  unfold pushLast in H. cbn [currentPageContent isEmpty negb andb pages] in H.
  now injection H as <-.
Qed.

Lemma splitLoop_unbroken_contents (cpp : Q) (fuel : nat) :
  100 <= cpp ->
  forall remaining cur pgs r,
    noWhiteSpace remaining ->
    splitLoop fuel cpp remaining cur pgs = Some r ->
    exists chunks,
      r = pgs ++ chunks
      /\ forall i pg,
           nth_error (filter keepPage chunks) i = Some pg ->
           content pg
           = [firstn (toIndex cpp) (skipn (i * toIndex cpp) remaining)].
Proof.
  intro Hc. assert (Hc1 : 1 <= cpp) by lra.
  assert (Hn : (100 <= toIndex cpp)%nat).
  { unfold toIndex. assert (100 <= Qfloor cpp)%Z by (apply Qfloor_ge_Z; exact Hc). lia. }
  induction fuel as [|fuel IH]; intros remaining cur pgs r Hno H;
    simpl in H; destruct (isEmpty remaining) eqn:Ee; try discriminate.
  - injection H as <-. exists []. rewrite app_nil_r. split; [reflexivity|].
    intros [|i] pg Hi; discriminate.
  - injection H as <-. exists []. rewrite app_nil_r. split; [reflexivity|].
    intros [|i] pg Hi; discriminate.
  - apply isEmpty_false in Ee.
    assert (HL : (1 <= List.length remaining)%nat)
      by (destruct remaining; [congruence | simpl; lia]).
    unfold substringTo, substringFrom in H.
    rewrite (breakPointOf_unbroken Hc1 Hno) in H.
    set (m := Nat.min (List.length remaining) (toIndex cpp)) in *.
    rewrite !noWhiteSpace_trim in H
      by (first [now apply noWhiteSpace_firstn | now apply noWhiteSpace_skipn]).
    assert (Hchunk : (List.length (firstn m remaining) = m)%nat)
      by (rewrite length_firstn; lia).
    destruct (isEmpty (firstn m remaining)) eqn:Ef.
    { apply isEmpty_true in Ef. rewrite Ef in Hchunk. simpl in Hchunk. lia. }
    apply IH in H; [|now apply noWhiteSpace_skipn].
    destruct H as (chunks & -> & Hrest).
    assert (Hfirst : firstn m remaining = firstn (toIndex cpp) remaining).
    { destruct (Nat.le_gt_cases (List.length remaining) (toIndex cpp)) as [Hle|Hgt].
      - replace m with (List.length remaining) by lia.
        rewrite firstn_all. symmetry. now apply firstn_all2.
      - now replace m with (toIndex cpp) by lia. }
    assert (Hlater : forall j,
               firstn (toIndex cpp) (skipn (j * toIndex cpp) (skipn m remaining))
               = firstn (toIndex cpp) (skipn (S j * toIndex cpp) remaining)).
    { intro j. rewrite skipn_skipn.
      destruct (Nat.le_gt_cases (List.length remaining) (toIndex cpp)) as [Hle|Hgt].
      - rewrite !skipn_all2 by (cbn [Nat.mul]; lia). reflexivity.
      - replace m with (toIndex cpp) by lia. f_equal. f_equal. cbn [Nat.mul]. lia. }
    eexists (_ :: chunks). rewrite <- app_assoc. split; [reflexivity|].
    intros i pg Hi. cbn [filter] in Hi.
    match type of Hi with
    | context [keepPage ?p] => destruct (keepPage p) eqn:Ek
    end.
    + destruct i as [|j]; cbn [nth_error] in Hi.
      * injection Hi as <-. cbn [content Nat.mul skipn]. now rewrite Hfirst.
      * rewrite (Hrest j pg Hi). now rewrite Hlater.
    + (* the chunk is dropped: it is short, nothing remains after it *)
      unfold keepPage in Ek. cbn [content List.concat] in Ek.
      rewrite app_nil_r in Ek. apply Z.ltb_ge in Ek. unfold len in Ek.
      assert (Hm : m = List.length remaining) by lia.
      assert (Hkept : keepPage pg = true).
      { apply nth_error_In in Hi. now apply filter_In in Hi. }
      unfold keepPage in Hkept. rewrite (Hrest i pg Hi) in Hkept |- *.
      assert (Hsk : skipn m remaining = []).
      { apply length_zero_iff_nil. rewrite length_skipn. lia. }
      rewrite Hsk, skipn_nil, firstn_nil in Hkept.
      vm_compute in Hkept. discriminate.
Qed.

(** X4. A document that is one paragraph longer than the budget and
    without any white space is cut at the hard limit only: with n the
    whole part of charsPerPage, the page of index i of the final list
    holds exactly the n characters of the text from i * n on (fewer
    for the last page), every page is one chunk of more than 5 and at
    most n characters, the pages put end to end give the text back
    except for a tail of 5 characters or fewer (the last chunk, which
    the filter drops when it is that short), and the number of pages,
    counting a dropped tail, is the length of the text divided by n,
    rounded up. *)
Theorem unbroken_document_pages :
  forall (fuel : nat) (l : Layout) (text : jsstring) (pgs : list Page),
    noWhiteSpace text ->
    charsPerPage l < inject_Z (len text) ->
    paginate fuel (charsPerPage l) [text] = Some pgs ->
    let n := toIndex (charsPerPage l) in
    (forall i pg, nth_error pgs i = Some pg ->
                  content pg = [firstn n (skipn (i * n) text)])
    /\ Forall (fun pg => exists chunk,
                   content pg = [chunk] /\ (5 < List.length chunk <= n)%nat) pgs
    /\ exists tail : jsstring,
         pagesText pgs ++ tail = text
         /\ (List.length tail <= 5)%nat
         /\ (List.length pgs + (if isEmpty tail then 0 else 1)
             = chunksNeeded n (List.length text))%nat.
Proof.
  intros fuel l text pgs Hno Hover H n.
  pose proof (charsPerPage_floor l) as Hge.
  assert (Hne : text <> []).
  { intros ->. change (inject_Z (len [])) with 0 in Hover. lra. }
  pose proof (@paginate_kept fuel (charsPerPage l) [text] pgs H) as Hkept.
  destruct (@paginate_single_oversize fuel (charsPerPage l) text pgs Hno Hne Hover H)
    as (r & Hr & ->).
  destruct (@splitLoop_unbroken_contents (charsPerPage l) fuel Hge text 0 [] r Hno Hr)
    as (chunks & Hchunks & Hcontents).
  cbn [app] in Hchunks. subst chunks.
  destruct (@splitLoop_unbroken_kept (charsPerPage l) fuel Hge text 0 r Hno Hr)
    as (tail & H1 & H2 & H3 & H4).
  split; [exact Hcontents|]. split; [|exists tail; auto].
  apply Forall_forall. intros pg Hpg.
  rewrite Forall_forall in H4. destruct (H4 pg Hpg) as (chunk & Hc & Hl).
  exists chunk. split; [exact Hc|].
  specialize (Hkept pg Hpg). rewrite Hc in Hkept. cbn [List.concat] in Hkept.
  rewrite app_nil_r in Hkept. unfold len in Hkept. fold n in Hl. lia.
Qed.

Lemma unbroken_document_pages_witness :
  exists (pgs : list Page) (tail : jsstring),
    paginate 12 (charsPerPage (mkLayout 21 7)) [repeat 120%N 1121] = Some pgs
    /\ pagesText pgs ++ tail = repeat 120%N 1121
    /\ (List.length tail <= 5)%nat
    /\ (forall i pg, nth_error pgs i = Some pg ->
                     content pg = [firstn 124 (skipn (i * 124) (repeat 120%N 1121))]).
Proof.
  assert (Hno : noWhiteSpace (repeat 120%N 1121)).
  { intros c Hc. apply repeat_spec in Hc. now subst c. }
  destruct (paginate 12 (charsPerPage (mkLayout 21 7)) [repeat 120%N 1121])
    as [pgs|] eqn:E; [|vm_compute in E; discriminate].
  destruct (@unbroken_document_pages 12 (mkLayout 21 7) (repeat 120%N 1121) pgs
              Hno ltac:(reflexivity) E) as (Hc & _ & tail & H1 & H2 & _).
  exists pgs, tail. split; [reflexivity|]. split; [exact H1|].
  split; [exact H2 | exact Hc].
Defined.

(** ** The start offsets of the paragraphs *)

Lemma splitNN_nonempty (s : jsstring) : splitNN s <> [].
Proof.
  assert (Hc : forall c l, consHead c l <> []) by (intros c [|p ps]; discriminate).
  destruct s as [|c rest]; [discriminate|]. cbn [splitNN].
  destruct rest as [|c2 rest2]; [apply Hc|].
  destruct ((c =? NL) && (c2 =? NL))%N; [discriminate | apply Hc].
Qed.

Lemma joinNN_cons_head (c : N) (p : jsstring) (ps : list jsstring) :
  joinNN ((c :: p) :: ps) = c :: joinNN (p :: ps).
Proof. destruct ps; reflexivity. Qed.

Lemma joinNN_consHead (c : N) (l : list jsstring) :
  l <> [] -> joinNN (consHead c l) = c :: joinNN l.
Proof. destruct l as [|p ps]; [congruence|]. intros _. apply joinNN_cons_head. Qed.

(** Joining what [split] gave restores the text. *)
Lemma joinNN_splitNN (s : jsstring) : joinNN (splitNN s) = s.
Proof.
  induction s as [s IH] using (induction_ltof1 _ (@List.length N)).
  unfold ltof in IH.
  destruct s as [|c rest]; [reflexivity|].
  assert (Hcons : joinNN (consHead c (splitNN rest)) = c :: rest).
  { rewrite joinNN_consHead by apply splitNN_nonempty.
    rewrite IH by (simpl; lia). reflexivity. }
  cbn [splitNN]. destruct rest as [|c2 rest2]; [exact Hcons|].
  destruct ((c =? NL) && (c2 =? NL))%N eqn:E; [|exact Hcons].
  apply andb_true_iff in E. destruct E as [E1 E2].
  apply N.eqb_eq in E1, E2. subst c c2.
  pose proof (splitNN_nonempty rest2) as Hne.
  destruct (splitNN rest2) as [|p ps] eqn:Es; [congruence|].
  change (joinNN ([] :: p :: ps)) with (NL :: NL :: joinNN (p :: ps)).
  rewrite <- Es, IH by (simpl; lia). reflexivity.
Qed.

Lemma spanOf_nonneg (pieces : list jsstring) : (0 <= spanOf pieces)%Z.
Proof.
  induction pieces as [|x rest IH]; simpl; [lia|].
  pose proof (len_nonneg x). lia.
Qed.

Lemma joinNN_skip (pre rest : list jsstring) :
  rest <> [] ->
  skipn (Z.to_nat (spanOf pre)) (joinNN (pre ++ rest)) = joinNN rest.
Proof.
  intro Hne. induction pre as [|x pre IH]; [reflexivity|].
  assert (Htail : pre ++ rest <> []) by (destruct pre; [exact Hne | discriminate]).
  rewrite <- app_comm_cons.
  destruct (pre ++ rest) as [|y l] eqn:E; [congruence|].
  change (joinNN (x :: y :: l)) with (x ++ NL :: NL :: joinNN (y :: l)).
  cbn [spanOf]. pose proof (spanOf_nonneg pre). pose proof (len_nonneg x).
  replace (Z.to_nat (len x + 2 + spanOf pre))
    with (List.length (x ++ [NL; NL]) + Z.to_nat (spanOf pre))%nat
    by (rewrite length_app; unfold len in *; simpl; lia).
  replace (x ++ NL :: NL :: joinNN (y :: l))
    with ((x ++ [NL; NL]) ++ joinNN (y :: l))
    by (now rewrite <- app_assoc).
  rewrite skipn_app, skipn_all2 by lia.
  replace (List.length (x ++ [NL; NL]) + Z.to_nat (spanOf pre)
           - List.length (x ++ [NL; NL]))%nat
    with (Z.to_nat (spanOf pre)) by lia.
  exact IH.
Qed.

Lemma joinNN_head (r : jsstring) (post : list jsstring) :
  firstn (List.length r) (joinNN (r :: post)) = r.
Proof.
  destruct post as [|y l].
  - apply firstn_all.
  - change (joinNN (r :: y :: l)) with (r ++ NL :: NL :: joinNN (y :: l)).
    rewrite firstn_app, firstn_all, Nat.sub_diag. simpl. apply app_nil_r.
Qed.

Lemma buildParagraphs_offsets (raw : list jsstring) :
  forall i p,
    In p (fst (buildParagraphs i raw)) ->
    exists pre r post,
      raw = pre ++ r :: post
      /\ ptext p = trim r
      /\ pstart p = (i + spanOf pre)%Z
      /\ plength p = len (trim r).
Proof.
  induction raw as [|r0 raw IH]; intros i p Hp; simpl in Hp; [contradiction|].
  assert (Hrest : In p (fst (buildParagraphs (i + len r0 + 2) raw)) ->
                  exists pre r post,
                    r0 :: raw = pre ++ r :: post /\ ptext p = trim r
                    /\ pstart p = (i + spanOf pre)%Z /\ plength p = len (trim r)).
  { intro H. destruct (IH _ _ H) as (pre & r & post & -> & H1 & H2 & H3).
    exists (r0 :: pre), r, post. split; [reflexivity|]. split; [exact H1|].
    split; [|exact H3]. rewrite H2. simpl. lia. }
  destruct (isEmpty (trim r0)); [exact (Hrest Hp)|].
  simpl in Hp. destruct Hp as [<-|Hp]; [|exact (Hrest Hp)].
  exists [], r0, raw. simpl. repeat split. lia.
Qed.

(** X5. The start offset recorded for a paragraph is exact.  The
    paragraph comes from one piece of the split of the full text (the
    extracted texts joined by two line feeds): its text is that piece
    trimmed, its length field the length of its text, and its start
    offset the number of characters that the pieces before it and
    their separators take, so from that offset on the full text reads
    the piece and then what follows it.  When the extracted texts are
    tidy, as [extractAllText] leaves them, the piece is the
    paragraph's text itself. *)
Theorem paragraph_offsets_exact :
  forall (txt : list jsstring) (p : Paragraph),
    In p (fst (buildParagraphs 0 (splitNN (joinNN txt)))) ->
    exists (pre : list jsstring) (piece : jsstring) (post : list jsstring),
      splitNN (joinNN txt) = pre ++ piece :: post
      /\ pstart p = spanOf pre
      /\ ptext p = trim piece
      /\ plength p = len (ptext p)
      /\ skipn (Z.to_nat (pstart p)) (joinNN txt) = joinNN (piece :: post)
      /\ firstn (List.length piece) (skipn (Z.to_nat (pstart p)) (joinNN txt))
         = piece
      /\ (Forall tidy txt -> ptext p = piece).
Proof.
  intros txt p Hp.
  destruct (buildParagraphs_offsets _ _ _ Hp) as (pre & r & post & Hraw & H1 & H2 & H3).
  exists pre, r, post. rewrite Z.add_0_l in H2.
  assert (Hskip : skipn (Z.to_nat (pstart p)) (joinNN txt) = joinNN (r :: post)).
  { rewrite H2. rewrite <- (joinNN_splitNN (joinNN txt)) at 1. rewrite Hraw.
    apply joinNN_skip. discriminate. }
  split; [exact Hraw|]. split; [exact H2|]. split; [exact H1|].
  split; [now rewrite H1|]. split; [exact Hskip|].
  split; [rewrite Hskip; apply joinNN_head|].
  intro Ht. rewrite H1.
  assert (Hin : In r (splitNN (joinNN txt))) by (rewrite Hraw; apply in_elt).
  destruct (@splitNN_joinNN txt Ht r Hin) as [->|Hin']; [reflexivity|].
  rewrite Forall_forall in Ht. destruct (Ht r Hin') as (_ & Hs & He).
  now apply trim_clean.
Qed.

Lemma paragraph_offsets_exact_witness :
  exists (pre : list jsstring) (piece : jsstring) (post : list jsstring),
    splitNN (joinNN exampleRawText) = pre ++ piece :: post
    /\ 38%Z = spanOf pre
    /\ str "Second    page of text." = trim piece
    /\ firstn (List.length piece) (skipn 38 (joinNN exampleRawText)) = piece.
Proof.
  destruct (@paragraph_offsets_exact exampleRawText
              (mkParagraph (str "Second    page of text.") 38 23))
    as (pre & r & post & H1 & H2 & H3 & _ & _ & H6 & _).
  - vm_compute. right. right. left. reflexivity.
  - exists pre, r, post. repeat split; assumption.
Defined.

(** ** What [extractAllText] stores *)

Lemma splitNN_joinNN_tidy (txt : list jsstring) :
  txt <> [] -> Forall tidy txt -> splitNN (joinNN txt) = txt.
Proof.
  intros Hne Ht. induction Ht as [|x txt [Hx _] Htxt IH]; [congruence|].
  pose proof (singleSpaced_no_newline _ Hx) as Hnl.
  destruct txt as [|y txt].
  - simpl. now apply splitNN_no_newline.
  - change (joinNN (x :: y :: txt)) with (x ++ NL :: NL :: joinNN (y :: txt)).
    rewrite (splitNN_separator _ _ Hnl), IH by discriminate. reflexivity.
Qed.

Lemma buildParagraphs_tidy_texts (raw : list jsstring) :
  Forall (fun t => tidy t /\ t <> []) raw ->
  forall i, List.map ptext (fst (buildParagraphs i raw)) = raw.
Proof.
  induction 1 as [|r raw [[_ [H1 H2]] Hne] _ IH]; intro i; [reflexivity|].
  cbn [buildParagraphs]. cbv zeta. rewrite (trim_clean _ H1 H2).
  rewrite (proj2 (isEmpty_false _) Hne). simpl. now rewrite IH.
Qed.

Lemma extracted_text_long (pageTexts : list jsstring) (s : State) (t : jsstring) :
  In t (extractedText (extractAllText pageTexts s)) -> (10 < len t)%Z.
Proof.
  simpl. intro H. apply filter_In in H. destruct H as [_ H]. now apply Z.ltb_lt.
Qed.

(** X6. In the text [extractAllText] stores, every page of the
    document is exactly one paragraph: splitting the joined text gives
    the stored page texts back, in order, nothing trimmed away and
    none skipped. *)
Theorem extracted_pages_are_the_paragraphs :
  forall (pageTexts : list jsstring) (s : State),
    List.map ptext
      (fst (buildParagraphs 0
              (splitNN (joinNN (extractedText (extractAllText pageTexts s))))))
    = extractedText (extractAllText pageTexts s).
Proof.
  intros pageTexts s.
  pose proof (extractAllText_tidy pageTexts s) as Ht.
  destruct (extractedText (extractAllText pageTexts s)) as [|x txt] eqn:E;
    [reflexivity|].
  rewrite splitNN_joinNN_tidy by (first [discriminate | exact Ht]).
  apply buildParagraphs_tidy_texts.
  rewrite Forall_forall in *. intros t Hin. split; [now apply Ht|].
  rewrite <- E in Hin. apply extracted_text_long in Hin.
  intros ->. unfold len in Hin. simpl in Hin. lia.
Qed.

(** X7. Every page text [extractAllText] stores is longer than 10
    characters, neither starts nor ends with white space, and has no
    white space but single spaces; in particular it holds no line
    feed. *)
Theorem stored_page_text_is_clean :
  forall (pageTexts : list jsstring) (s : State) (t : jsstring),
    In t (extractedText (extractAllText pageTexts s)) ->
    (10 < len t)%Z
    /\ trim t = t
    /\ collapseWhitespace t = t
    /\ (forall c, In c t -> isWhiteSpace c = true -> c = SP).
Proof.
  intros pageTexts s t Hin.
  pose proof (extractAllText_tidy pageTexts s) as Ht.
  rewrite Forall_forall in Ht. destruct (Ht t Hin) as (H1 & H2 & H3).
  split; [eapply extracted_text_long; eauto|].
  split; [now apply trim_clean|]. split; [now apply singleSpaced_collapse|].
  clear - H1. induction t as [|c0 t IH]; intros c Hc Hw; [contradiction|].
  destruct Hc as [<-|Hc].
  - cbn [singleSpaced] in H1. rewrite Hw in H1.
    rewrite !andb_true_iff in H1. destruct H1 as [[H1 _] _]. now apply N.eqb_eq.
  - apply IH; [now apply singleSpaced_tail in H1 | exact Hc | exact Hw].
Qed.

Lemma stored_page_text_is_clean_witness :
  (10 < len (str "A first page of text."))%Z
  /\ trim (str "A first page of text.") = str "A first page of text.".
Proof.
  destruct (@stored_page_text_is_clean exampleRawText initState
              (str "A first page of text.")) as (H1 & H2 & _).
  - vm_compute. left. reflexivity.
  - split; assumption.
Defined.

Lemma collapseFrom_second_space (b : bool) (u z : jsstring) (w w' : N) :
  isWhiteSpace w = true -> isWhiteSpace w' = true ->
  collapseFrom b (u ++ w :: w' :: z) = collapseFrom b (u ++ w :: z).
Proof.
  intros Hw Hw'. revert b. induction u as [|c u IH]; intro b.
  - simpl. rewrite Hw, Hw'. reflexivity.
  - simpl. destruct (isWhiteSpace c); [destruct b|]; now rewrite IH.
Qed.

Lemma buildPageText_collapse (items : list TextItem) :
  forall (b : bool) (pageText : jsstring) (lastY : option Q),
    (lastY <> None ->
     exists u w, pageText = u ++ [w] /\ isWhiteSpace w = true) ->
    collapseFrom b (buildPageText pageText lastY items)
    = collapseFrom b (pageText ++ itemsText items).
Proof.
  induction items as [|item rest IH]; intros b pageText lastY Hlast.
  - simpl. now rewrite app_nil_r.
  - cbn [buildPageText]. cbv zeta.
    assert (Hnext : forall acc,
               collapseFrom b (buildPageText (acc ++ itemStr item ++ [SP])
                                 (Some (itemY item)) rest)
               = collapseFrom b (acc ++ itemsText (item :: rest))).
    { intro acc. rewrite IH.
      - unfold itemsText. simpl. now rewrite <- !app_assoc.
      - intros _. exists (acc ++ itemStr item), SP.
        split; [now rewrite <- app_assoc | reflexivity]. }
    destruct lastY as [y|]; [|apply Hnext].
    destruct (Qltb 12 (Qabs (itemY item - y))); [|apply Hnext].
    rewrite Hnext.
    destruct (Hlast ltac:(discriminate)) as (u & w & -> & Hw).
    rewrite <- !app_assoc. simpl.
    apply collapseFrom_second_space; [exact Hw | reflexivity].
Qed.

(** X8. The line breaks that [extractAllText] detects from the
    vertical positions of the text items never reach the stored text:
    the cleaned text of a page is the cleaned text of its item strings
    each followed by a space, wherever the items stand on the page. *)
Theorem stored_text_ignores_line_breaks :
  forall items : list TextItem,
    cleanPageText (buildPageText [] None items)
    = cleanPageText (itemsText items).
Proof.
  intro items. unfold cleanPageText, collapseWhitespace.
  rewrite buildPageText_collapse; [reflexivity | congruence].
Qed.

(** ** The current page *)

Lemma paginateContent_fields (fuel : nat) (l : Layout) (s s' : State) :
  paginateContent fuel l s = Some s' ->
  paginate fuel (charsPerPage l) (extractedText s) = Some (paginatedContent s')
  /\ totalScreenPages s' = Z.of_nat (List.length (paginatedContent s'))
  /\ currentScreenPage s'
     = Z.max 1 (Z.min (currentScreenPage s) (totalScreenPages s'))
  /\ extractedText s' = extractedText s
  /\ lineHeight s' = lineHeight s.
Proof.
  unfold paginateContent. destruct (paginate _ _ _) as [pgs|]; [|discriminate].
  intros [= <-]. simpl. repeat split.
  destruct (Z.of_nat (List.length pgs) <? currentScreenPage s)%Z eqn:E1;
    [apply Z.ltb_lt in E1 | apply Z.ltb_ge in E1];
    match goal with
    | |- (if (?c <? 1)%Z then _ else _) = _ =>
        destruct (c <? 1)%Z eqn:E2;
        [apply Z.ltb_lt in E2 | apply Z.ltb_ge in E2]
    end; lia.
Qed.

(** X9. After [paginateContent] the current page is never below 1,
    it is unchanged when it was a page of the new list, and as soon
    as the list has a page the current page is one of its pages: the
    page object exists and [getCurrentPageOffset] answers its start,
    not -1. *)
Theorem current_page_stays_in_range :
  forall (fuel : nat) (l : Layout) (s s' : State),
    paginateContent fuel l s = Some s' ->
    (1 <= currentScreenPage s')%Z
    /\ ((1 <= currentScreenPage s <= totalScreenPages s')%Z ->
        currentScreenPage s' = currentScreenPage s)
    /\ (paginatedContent s' <> [] ->
        (currentScreenPage s' <= totalScreenPages s')%Z
        /\ exists pg, currentPageObj s' = Some pg
                      /\ getCurrentPageOffset s' = start pg).
Proof.
  intros fuel l s s' H.
  destruct (paginateContent_fields _ _ _ H) as (_ & Htot & Hcur & _).
  split; [lia|]. split; [lia|].
  intro Hne.
  assert (Hlen : (1 <= totalScreenPages s')%Z).
  { rewrite Htot. destruct (paginatedContent s'); [congruence | simpl; lia]. }
  split; [lia|].
  assert (Hidx : (Z.to_nat (currentScreenPage s' - 1)
                  < List.length (paginatedContent s'))%nat) by lia.
  destruct (nth_error (paginatedContent s') (Z.to_nat (currentScreenPage s' - 1)))
    as [pg|] eqn:E; [|apply nth_error_None in E; lia].
  assert (Hneg : (currentScreenPage s' - 1 <? 0)%Z = false) by (apply Z.ltb_ge; lia).
  exists pg. unfold currentPageObj, getCurrentPageOffset. rewrite Hneg, E. auto.
Qed.

Lemma current_page_stays_in_range_witness :
  exists s' : State,
    paginateContent 30 (mkLayout 40 20)
      (mkState exampleText [] 0 7 18 (18 # 10) (str "Lora")) = Some s'
    /\ (1 <= currentScreenPage s')%Z.
Proof.
  destruct (paginateContent 30 (mkLayout 40 20)
              (mkState exampleText [] 0 7 18 (18 # 10) (str "Lora")))
    as [s'|] eqn:E; [|vm_compute in E; discriminate].
  exists s'. split; [reflexivity|].
  exact (proj1 (@current_page_stays_in_range 30 (mkLayout 40 20) _ s' E)).
Defined.

Lemma renderTextContent_current (fuel : nat) pt (l : Layout) (s s' : State) :
  renderTextContent fuel pt l s = Some s' ->
  (1 <= currentScreenPage s' <= Z.max 1 (totalScreenPages s'))%Z
  /\ lineHeight s' = lineHeight s.
Proof.
  unfold renderTextContent. intro H.
  destruct (paginateContent_fields _ _ _ H) as (_ & _ & Hcur & _ & Hlh).
  split; [lia|]. rewrite Hlh. now destruct (isEmpty _).
Qed.

(** *** Between two awaits *)

Lemma goToPageStart_bounds (n : Z) (s : State) :
  (0 <= totalScreenPages s)%Z ->
  (0 <= currentScreenPage (goToPageStart n s) <= Z.max 1 (totalScreenPages s))%Z
  /\ ((1 <= totalScreenPages s)%Z -> (1 <= currentScreenPage (goToPageStart n s))%Z).
Proof.
  intro Ht. unfold goToPageStart. cbv zeta. cbn [withCurrentScreenPage currentScreenPage].
  destruct (n <? 1)%Z eqn:E1; [apply Z.ltb_lt in E1 | apply Z.ltb_ge in E1];
    match goal with
    | |- context [(totalScreenPages s <? ?c)%Z] =>
        destruct (totalScreenPages s <? c)%Z eqn:E2;
        [apply Z.ltb_lt in E2 | apply Z.ltb_ge in E2]
    end; lia.
Qed.

Lemma extractPages_state (pageTexts : list jsstring) :
  forall s : State,
    fold_left (fun s0 t => extractPage t s0) pageTexts s
    = mkState (extractedText s
               ++ filter (fun t => (10 <? len t)%Z) (List.map cleanPageText pageTexts))
              (paginatedContent s) (totalScreenPages s) (currentScreenPage s)
              (fontSize s) (lineHeight s) (fontFamily s).
Proof.
  induction pageTexts as [|t pt IH]; intro s; cbn [fold_left List.map filter].
  - rewrite app_nil_r. now destruct s.
  - rewrite IH. unfold extractPage. cbv zeta.
    destruct (10 <? len (cleanPageText t))%Z; cbn; [|reflexivity].
    now rewrite <- app_assoc.
Qed.

Lemma observable_extractPages (pageTexts : list jsstring) :
  forall s : State,
    observable s ->
    observable (fold_left (fun s0 t => extractPage t s0) pageTexts s).
Proof.
  induction pageTexts as [|t pt IH]; intros s Hs; cbn [fold_left]; [exact Hs|].
  apply IH. now apply (@obs_segment 0 (SegExtractPage t) s).
Qed.

Lemma observable_extractAllText (pageTexts : list jsstring) (s : State) :
  observable s -> observable (extractAllText pageTexts s).
Proof.
  intro Hs.
  assert (H0 : observable (extractStart s))
    by now apply (@obs_segment 0 SegExtractStart s).
  apply (observable_extractPages pageTexts) in H0.
  rewrite extractPages_state in H0. exact H0.
Qed.

Lemma observable_renderTextContent (fuel : nat) pt (l : Layout) (s s' : State) :
  observable s -> renderTextContent fuel pt l s = Some s' -> observable s'.
Proof.
  unfold renderTextContent. intros Hs H.
  apply (@obs_segment fuel (SegPaginate l)
           (if isEmpty (extractedText s) then extractAllText pt s else s));
    [|exact H].
  destruct (isEmpty _); [now apply observable_extractAllText | exact Hs].
Qed.

Lemma observable_goToPage (fuel : nat) (n : Z) pt (l : Layout) (s s' : State) :
  observable s -> goToPage fuel n pt l s = Some s' -> observable s'.
Proof.
  intros Hs H. apply (@observable_renderTextContent fuel pt l (goToPageStart n s));
    [|exact H].
  now apply (@obs_segment 0 (SegGoToPage n) s).
Qed.

(** A state in which every call has run to its end is a state the
    module can be seen in. *)
Lemma reachable_observable (s : State) : reachable s -> observable s.
Proof.
  induction 1 as [|fuel op s s' Hr IH Hstep]; [apply obs_init|].
  destruct op; cbn [step] in Hstep.
  - injection Hstep as <-. now apply (@obs_segment 0 SegLoadPDF s).
  - injection Hstep as <-. now apply observable_extractAllText.
  - eapply observable_renderTextContent; [exact IH | exact Hstep].
  - injection Hstep as <-. now apply (@obs_segment 0 (SegSetFontSize size) s).
  - injection Hstep as <-. now apply (@obs_segment 0 (SegSetLineHeight height) s).
  - injection Hstep as <-. now apply (@obs_segment 0 (SegSetFontFamily family) s).
  - eapply observable_goToPage; [exact IH | exact Hstep].
  - unfold nextPage in Hstep.
    destruct (_ <? _)%Z; [|now injection Hstep as <-].
    eapply observable_goToPage; [exact IH | exact Hstep].
  - unfold prevPage in Hstep.
    destruct (_ <? _)%Z; [|now injection Hstep as <-].
    eapply observable_goToPage; [exact IH | exact Hstep].
  - eapply observable_renderTextContent; [|exact Hstep].
    now apply (@obs_segment 0 SegSetReadingMode s).
Qed.

(** X10. In every state the module can be seen in, also while a call
    waits for the text (between the assignment of [goToPage] and its
    render): the number of pages is not negative, the current page is
    at least 0 and at most the number of pages of the last run (or 1
    when that number is 0), it is at least 1 as soon as there is a
    page, and the line height is within [1.2, 2.5].  The current page
    0 does occur: [goToPage] on a module without pages sets it, and
    the pagination that follows puts it back to 1. *)
Theorem observable_state_bounds :
  forall s : State,
    observable s ->
    (0 <= totalScreenPages s)%Z
    /\ (0 <= currentScreenPage s <= Z.max 1 (totalScreenPages s))%Z
    /\ ((1 <= totalScreenPages s)%Z -> (1 <= currentScreenPage s)%Z)
    /\ (12 # 10) <= lineHeight s <= (25 # 10).
Proof.
  intros s Hs. induction Hs as [|fuel seg s s' Hs IH Hseg].
  - cbn. repeat split; try lia; discriminate.
  - destruct IH as (Ht & Hc & Hp & Hl).
    destruct seg; cbn [segment] in Hseg;
      try (injection Hseg as <-; cbn; repeat split; try lia; exact (proj1 Hl) || exact (proj2 Hl)).
    + (* a page of the text *)
      injection Hseg as <-. unfold extractPage. cbv zeta.
      destruct (10 <? len (cleanPageText pageText))%Z; cbn; repeat split; try lia;
        exact (proj1 Hl) || exact (proj2 Hl).
    + (* the pagination *)
      destruct (paginateContent_fields _ _ _ Hseg) as (_ & Htot & Hcur & _ & Hlh).
      rewrite Hlh. repeat split; try lia; exact (proj1 Hl) || exact (proj2 Hl).
    + (* the line height *)
      injection Hseg as <-. cbn. repeat split; try lia; apply clamp_range; discriminate.
    + (* the head of goToPage *)
      injection Hseg as <-. destruct (@goToPageStart_bounds pageNum s Ht) as [H1 H2].
      repeat split; try tauto; exact (proj1 Hl) || exact (proj2 Hl).
    + destruct (_ <? _)%Z; injection Hseg as <-.
      * destruct (@goToPageStart_bounds (currentScreenPage s + 1) s Ht) as [H1 H2].
        repeat split; try tauto; exact (proj1 Hl) || exact (proj2 Hl).
      * repeat split; try tauto.
    + destruct (_ <? _)%Z; injection Hseg as <-.
      * destruct (@goToPageStart_bounds (currentScreenPage s - 1) s Ht) as [H1 H2].
        repeat split; try tauto; exact (proj1 Hl) || exact (proj2 Hl).
      * repeat split; try tauto.
Qed.

Lemma observable_state_bounds_witness :
  currentScreenPage (goToPageStart 5 initState) = 0%Z
  /\ (0 <= currentScreenPage (goToPageStart 5 initState)
      <= Z.max 1 (totalScreenPages (goToPageStart 5 initState)))%Z.
Proof.
  split; [reflexivity|].
  apply (proj1 (proj2 (@observable_state_bounds (goToPageStart 5 initState)
                         (@obs_segment 0 (SegGoToPage 5) initState _
                            obs_init eq_refl)))).
Defined.

(** ** Turning pages *)

Lemma renderTextContent_fields (fuel : nat) pt (l : Layout) (s s' : State) :
  renderTextContent fuel pt l s = Some s' ->
  let text := if isEmpty (extractedText s)
              then extractedText (extractAllText pt s) else extractedText s in
  paginate fuel (charsPerPage l) text = Some (paginatedContent s')
  /\ totalScreenPages s' = Z.of_nat (List.length (paginatedContent s'))
  /\ currentScreenPage s'
     = Z.max 1 (Z.min (currentScreenPage s) (totalScreenPages s'))
  /\ extractedText s' = text
  /\ fontSize s' = fontSize s.
Proof.
  unfold renderTextContent. intro H.
  pose proof (paginateContent_fontSize _ _ _ H) as Hfs.
  destruct (paginateContent_fields _ _ _ H) as (H1 & H2 & H3 & H4 & _).
  destruct (isEmpty (extractedText s)); simpl in *; auto.
Qed.

Lemma goToPage_fields (fuel : nat) (n : Z) pt (l : Layout) (s s' : State) :
  goToPage fuel n pt l s = Some s' ->
  let text := if isEmpty (extractedText s)
              then extractedText (extractAllText pt s) else extractedText s in
  paginate fuel (charsPerPage l) text = Some (paginatedContent s')
  /\ totalScreenPages s' = Z.of_nat (List.length (paginatedContent s'))
  /\ currentScreenPage s'
     = Z.max 1 (Z.min (Z.min (Z.max 1 n) (totalScreenPages s))
                      (totalScreenPages s'))
  /\ extractedText s' = text.
Proof.
  unfold goToPage. intro H. apply renderTextContent_fields in H.
  cbn [extractedText withCurrentScreenPage currentScreenPage] in H.
  destruct H as (H1 & H2 & H3 & H4 & _).
  split; [exact H1|]. split; [exact H2|]. split; [|exact H4].
  rewrite H3. clear.
  destruct (n <? 1)%Z eqn:E1; [apply Z.ltb_lt in E1 | apply Z.ltb_ge in E1];
    match goal with
    | |- context [(totalScreenPages s <? ?c)%Z] =>
        destruct (totalScreenPages s <? c)%Z eqn:E2;
        [apply Z.ltb_lt in E2 | apply Z.ltb_ge in E2]
    end; lia.
Qed.

(** X11. Turning a page forward and back: from a page that is not
    the last one, [nextPage] moves to the next page, and when the
    run behind it finds as many pages as before (the layout did not
    change), [prevPage] with the same layout comes back to the page
    it started from, over the same page list. *)
Theorem next_then_prev_page :
  forall (fuel : nat) (pageTexts : list jsstring) (l : Layout)
         (s s1 s2 : State),
    (1 <= currentScreenPage s < totalScreenPages s)%Z ->
    nextPage fuel pageTexts l s = Some s1 ->
    totalScreenPages s1 = totalScreenPages s ->
    prevPage fuel pageTexts l s1 = Some s2 ->
    currentScreenPage s1 = (currentScreenPage s + 1)%Z
    /\ currentScreenPage s2 = currentScreenPage s
    /\ paginatedContent s2 = paginatedContent s1.
Proof.
  intros fuel pt l s s1 s2 Hcur H1 Htot H2.
  unfold nextPage in H1.
  rewrite (proj2 (Z.ltb_lt _ _) (proj2 Hcur)) in H1.
  apply goToPage_fields in H1. destruct H1 as (Hp1 & Hl1 & Hc1 & Ht1).
  assert (Hc1' : currentScreenPage s1 = (currentScreenPage s + 1)%Z) by lia.
  unfold prevPage in H2.
  assert (E : (1 <? currentScreenPage s1)%Z = true) by (apply Z.ltb_lt; lia).
  rewrite E in H2.
  apply goToPage_fields in H2. destruct H2 as (Hp2 & Hl2 & Hc2 & Ht2).
  assert (Htext : (if isEmpty (extractedText s1)
                   then extractedText (extractAllText pt s1) else extractedText s1)
                  = extractedText s1).
  { rewrite Ht1. destruct (isEmpty (extractedText s)) eqn:Ee; [|now rewrite Ee].
    destruct (isEmpty (extractedText (extractAllText pt s))); reflexivity. }
  rewrite Htext in Hp2. rewrite <- Ht1 in Hp1.
  assert (Hpages : paginatedContent s2 = paginatedContent s1) by congruence.
  split; [exact Hc1'|]. split; [|exact Hpages].
  rewrite Hpages, <- Hl1 in Hl2. lia.
Qed.

Lemma next_then_prev_page_witness :
  exists s1 s2 : State,
    nextPage 30 [] (mkLayout 40 20)
      (mkState exampleText [] 2 1 18 (18 # 10) (str "Lora")) = Some s1
    /\ prevPage 30 [] (mkLayout 40 20) s1 = Some s2
    /\ currentScreenPage s2 = 1%Z.
Proof.
  destruct (nextPage 30 [] (mkLayout 40 20)
              (mkState exampleText [] 2 1 18 (18 # 10) (str "Lora")))
    as [s1|] eqn:E1; [|vm_compute in E1; discriminate].
  destruct (prevPage 30 [] (mkLayout 40 20) s1) as [s2|] eqn:E2.
  - exists s1, s2. split; [reflexivity|]. split; [exact E2|].
    refine (proj1 (proj2 (@next_then_prev_page 30 [] (mkLayout 40 20) _ s1 s2
                            _ E1 _ E2))).
    + simpl. lia.
    + vm_compute in E1. injection E1 as <-. reflexivity.
  - vm_compute in E1. injection E1 as <-. vm_compute in E2. discriminate.
Defined.

(** ** The font buttons *)

(** X12. The font buttons of the application: while the size stays
    within [12, 32], a step of [delta] followed by a step of [-delta]
    gives the size back; a step beyond 32 stops at 32 and a step
    below 12 stops at 12. *)
Theorem font_step_there_and_back :
  forall (fuel : nat) (delta : Q) (pageTexts : list jsstring) (l : Layout)
         (s s1 s2 : State),
    adjustFontSize fuel delta pageTexts l s = Some s1 ->
    adjustFontSize fuel (- delta) pageTexts l s1 = Some s2 ->
    (12 <= fontSize s <= 32 -> 12 <= fontSize s + delta <= 32 ->
     fontSize s1 == fontSize s + delta /\ fontSize s2 == fontSize s)
    /\ (32 <= fontSize s + delta -> fontSize s1 == 32)
    /\ (fontSize s + delta <= 12 -> fontSize s1 == 12).
Proof.
  intros fuel delta pt l s s1 s2 H1 H2.
  unfold adjustFontSize in *.
  apply renderTextContent_fontSize in H1, H2. simpl in H1, H2.
  rewrite H2, H1. clear H1 H2.
  split; [|split].
  - intros Hs Hd.
    assert (E1 : Qmax 12 (Qmin 32 (fontSize s + delta)) == fontSize s + delta).
    { rewrite Q.min_r by lra. apply Q.max_r. lra. }
    split; [exact E1|]. rewrite E1.
    rewrite Q.min_r by lra. rewrite Q.max_r by lra. ring.
  - intro H. rewrite Q.min_l by lra. apply Q.max_r. lra.
  - intro H. apply Q.max_l.
    destruct (Q.min_spec 32 (fontSize s + delta)) as [[Hm E]|[Hm E]]; rewrite E; lra.
Qed.

Lemma font_step_there_and_back_witness :
  exists s1 s2 : State,
    adjustFontSize 0 2 [] (mkLayout 40 20) initState = Some s1
    /\ adjustFontSize 0 (- (2)) [] (mkLayout 40 20) s1 = Some s2
    /\ fontSize s1 == 20 /\ fontSize s2 == 18.
Proof.
  destruct (adjustFontSize 0 2 [] (mkLayout 40 20) initState)
    as [s1|] eqn:E1; [|vm_compute in E1; discriminate].
  destruct (adjustFontSize 0 (- (2)) [] (mkLayout 40 20) s1) as [s2|] eqn:E2.
  - exists s1, s2. split; [reflexivity|]. split; [exact E2|].
    destruct (proj1 (@font_step_there_and_back 0 2 [] (mkLayout 40 20)
                       initState s1 s2 E1 E2)) as [Ha Hb].
    + simpl. split; discriminate.
    + simpl. split; discriminate.
    + split; [rewrite Ha | rewrite Hb]; reflexivity.
  - vm_compute in E1. injection E1 as <-. vm_compute in E2. discriminate.
Defined.

(** ** Snippets *)

Lemma startsWith_spec (pat s : jsstring) :
  startsWith pat s = true <-> exists b, s = pat ++ b.
Proof.
  revert s. induction pat as [|a pat IH]; intro s; cbn [startsWith].
  - split; [intros _; now exists s | reflexivity].
  - destruct s as [|c s].
    + split; [discriminate | intros [b Hb]; discriminate].
    + rewrite andb_true_iff, N.eqb_eq, IH. split.
      * intros [-> [b ->]]. now exists b.
      * intros [b Hb]. injection Hb as -> ->. split; [reflexivity | now exists b].
Qed.

Lemma includes_spec (s pat : jsstring) :
  includes s pat = true <-> exists a b, s = a ++ pat ++ b.
Proof.
  unfold includes. rewrite existsb_exists. split.
  - intros [k [_ Hk]]. apply startsWith_spec in Hk. destruct Hk as [b Hb].
    exists (firstn k s), b. now rewrite <- Hb, firstn_skipn.
  - intros [a [b ->]]. exists (List.length a). split.
    + apply in_seq. rewrite !length_app. lia.
    + rewrite skipn_app, skipn_all, Nat.sub_diag. cbn [skipn app].
      apply startsWith_spec. now exists b.
Qed.

Lemma scanContent_spec (search : jsstring) (pgs : list Page) :
  forall i : Z,
    let r := scanContent search i pgs in
    (r = (-1)%Z /\ forall pg, In pg pgs -> includes (pageSearchText pg) search = false)
    \/ exists k pg,
         r = (i + Z.of_nat k + 1)%Z
         /\ nth_error pgs k = Some pg
         /\ includes (pageSearchText pg) search = true
         /\ forall j pg', (j < k)%nat -> nth_error pgs j = Some pg' ->
                          includes (pageSearchText pg') search = false.
Proof.
  induction pgs as [|pg pgs IH]; intro i; cbn [scanContent].
  - left. split; [reflexivity | contradiction].
  - fold (pageSearchText pg). cbv zeta.
    destruct (includes (pageSearchText pg) search) eqn:E.
    + right. exists 0%nat, pg. repeat split; [lia | exact E | intros; lia].
    + destruct (IH (i + 1)%Z) as [[Hr Hall] | (k & pg' & Hr & Hn & Hi & Hb)].
      * left. split; [exact Hr|]. intros pg' [<-|Hin]; [exact E | now apply Hall].
      * right. exists (S k), pg'. repeat split; [lia | exact Hn | exact Hi |].
        intros [|j] pg'' Hj Hn'; cbn [nth_error] in Hn'.
        -- now injection Hn' as <-.
        -- apply (Hb j); [lia | exact Hn'].
Qed.

(** X13. What [findPageForContent] answers: for a snippet that is
    missing, empty or shorter than 10 characters once its white space
    is collapsed and trimmed, -1; otherwise the number of the first
    page whose text (the paragraphs joined by a space, white space
    collapsed) has the normalised snippet as a substring, and -1 when
    no page has it. *)
Theorem content_locator_contract :
  forall (snippet : option jsstring) (s : State),
    let r := findPageForContent snippet s in
    let search := match snippet with
                  | Some sn => trim (collapseWhitespace sn)
                  | None => []
                  end in
    ((len search < 10)%Z -> r = (-1)%Z)
    /\ (r = (-1)%Z \/ (1 <= r <= Z.of_nat (List.length (paginatedContent s)))%Z)
    /\ ((1 <= r)%Z ->
        exists pg a b,
          nth_error (paginatedContent s) (Z.to_nat (r - 1)) = Some pg
          /\ pageSearchText pg = a ++ search ++ b
          /\ forall j pg', (Z.of_nat j < r - 1)%Z ->
               nth_error (paginatedContent s) j = Some pg' ->
               includes (pageSearchText pg') search = false)
    /\ ((10 <= len search)%Z -> r = (-1)%Z ->
        forall pg, In pg (paginatedContent s) ->
                   includes (pageSearchText pg) search = false).
Proof.
  intros snippet s r search.
  assert (Hshort : (len search < 10)%Z -> r = (-1)%Z).
  { subst r search. unfold findPageForContent. destruct snippet as [sn|]; [|reflexivity].
    intro H. destruct (isEmpty sn); [reflexivity|].
    cbv zeta. now rewrite (proj2 (Z.ltb_lt _ _) H). }
  split; [exact Hshort|].
  destruct (Z.ltb_spec (len search) 10) as [Hlt|Hge].
  { rewrite (Hshort Hlt). split; [now left|]. split; [lia|]. intro; lia. }
  assert (Hr : r = scanContent search 0 (paginatedContent s)).
  { subst r search. unfold findPageForContent. destruct snippet as [sn|].
    - destruct (isEmpty sn) eqn:Ee.
      + apply isEmpty_true in Ee. subst sn. vm_compute in Hge. now contradiction Hge.
      + cbv zeta. now rewrite (proj2 (Z.ltb_ge _ _) Hge).
    - vm_compute in Hge. now contradiction Hge. }
  destruct (scanContent_spec search (paginatedContent s) 0)
    as [[Hm Hall] | (k & pg & Hk & Hn & Hi & Hb)]; cbv zeta in *; rewrite <- Hr in *.
  - split; [now left|]. split; [lia|]. intros _ _. exact Hall.
  - assert (Hlen : (k < List.length (paginatedContent s))%nat).
    { apply nth_error_Some. congruence. }
    split; [right; lia|]. split; [|lia].
    intros _. apply includes_spec in Hi. destruct Hi as (a & b & Hab).
    exists pg, a, b. replace (Z.to_nat (r - 1)) with k by lia.
    split; [exact Hn|]. split; [exact Hab|].
    intros j pg' Hj. apply Hb. lia.
Qed.

Lemma trim_inside (s : jsstring) : exists a b, s = a ++ trim s ++ b.
Proof.
  destruct (trimStart_split s) as [pre [H1 _]].
  destruct (trimEnd_split (trimStart s)) as [suf [H2 _]].
  exists pre, suf. unfold trim. now rewrite <- H2.
Qed.

(** X14. A snippet taken from the current page is found again: when
    [getCurrentPageContentSnippet] gives at least 10 characters besides
    a last space, [findPageForContent] on it answers a page, the current
    one or an earlier page that holds the same text. *)
Theorem snippet_round_trip :
  forall s : State,
    (10 <= len (trim (getCurrentPageContentSnippet s)))%Z ->
    (1 <= findPageForContent (Some (getCurrentPageContentSnippet s)) s
       <= currentScreenPage s)%Z.
Proof.
  intros s Hlen.
  unfold getCurrentPageContentSnippet in *.
  destruct (currentPageObj s) as [pg|] eqn:Ecur;
    [|vm_compute in Hlen; now contradiction Hlen].
  cbv zeta in *. fold (pageSearchText pg) in *.
  set (sn := substringTo (trim (pageSearchText pg)) 150) in *.
  assert (Hss : singleSpaced sn = true).
  { apply singleSpaced_firstn, singleSpaced_trim, collapseFrom_singleSpaced. }
  assert (Hsearch : trim (collapseWhitespace sn) = trim sn).
  { now rewrite singleSpaced_collapse. }
  assert (Hinc : includes (pageSearchText pg) (trim sn) = true).
  { apply includes_spec.
    destruct (trim_inside (pageSearchText pg)) as (a1 & b1 & H1).
    destruct (trim_inside sn) as (a2 & b2 & H2).
    pose proof (firstn_skipn (toIndex 150) (trim (pageSearchText pg))) as H3.
    fold (substringTo (trim (pageSearchText pg)) 150) in H3. fold sn in H3.
    exists (a1 ++ a2), (b2 ++ skipn (toIndex 150) (trim (pageSearchText pg)) ++ b1).
    rewrite H1 at 1. rewrite <- H3 at 1. rewrite H2 at 1.
    now rewrite <- !app_assoc. }
  unfold currentPageObj in Ecur.
  destruct (currentScreenPage s - 1 <? 0)%Z eqn:Eneg; [discriminate|].
  apply Z.ltb_ge in Eneg.
  unfold findPageForContent.
  destruct (isEmpty sn) eqn:Ee.
  { apply isEmpty_true in Ee. rewrite Ee in Hlen. vm_compute in Hlen.
    now contradiction Hlen. }
  cbv zeta. rewrite Hsearch, (proj2 (Z.ltb_ge _ _) Hlen).
  destruct (scanContent_spec (trim sn) (paginatedContent s) 0)
    as [[_ Hall] | (k & pg' & Hk & Hn & _ & Hb)]; cbv zeta in *.
  - apply nth_error_In in Ecur. rewrite (Hall _ Ecur) in Hinc. discriminate.
  - rewrite Hk.
    destruct (Nat.lt_ge_cases (Z.to_nat (currentScreenPage s - 1)) k) as [Hlt|Hge].
    + rewrite (Hb _ _ Hlt Ecur) in Hinc. discriminate.
    + lia.
Qed.

Lemma snippet_round_trip_witness :
  (1 <= findPageForContent
          (Some (getCurrentPageContentSnippet
                   (mkState exampleText examplePages 3 2 18 (18 # 10) (str "Lora"))))
          (mkState exampleText examplePages 3 2 18 (18 # 10) (str "Lora"))
     <= 2)%Z.
Proof.
  apply (@snippet_round_trip
           (mkState exampleText examplePages 3 2 18 (18 # 10) (str "Lora"))).
  vm_compute. discriminate.
Defined.

(** ** Going to a page *)

(** X15. Where [goToPage] lands: always on a page from 1 to the new
    number of pages (1 when there is none); on the requested page when
    it is a page of the old and of the new list; on page 1 for a
    request below 1; and for a request beyond the old number of pages,
    on the old last page (or the new last page if that is smaller):
    the request is cut at the number of pages of the run before. *)
Theorem goToPage_lands :
  forall (fuel : nat) (n : Z) (pageTexts : list jsstring) (l : Layout)
         (s s' : State),
    goToPage fuel n pageTexts l s = Some s' ->
    (1 <= currentScreenPage s' <= Z.max 1 (totalScreenPages s'))%Z
    /\ ((1 <= n <= totalScreenPages s)%Z -> (n <= totalScreenPages s')%Z ->
        currentScreenPage s' = n)
    /\ ((n < 1)%Z -> currentScreenPage s' = 1%Z)
    /\ ((totalScreenPages s < n)%Z ->
        currentScreenPage s'
        = Z.max 1 (Z.min (totalScreenPages s) (totalScreenPages s'))).
Proof.
  intros fuel n pt l s s' H.
  apply goToPage_fields in H. destruct H as (_ & _ & Hc & _).
  repeat split; intros; lia.
Qed.

Lemma goToPage_lands_witness :
  exists s' : State,
    goToPage 30 2 [] (mkLayout 40 20)
      (mkState exampleText [] 2 1 18 (18 # 10) (str "Lora")) = Some s'
    /\ currentScreenPage s' = 2%Z.
Proof.
  destruct (goToPage 30 2 [] (mkLayout 40 20)
              (mkState exampleText [] 2 1 18 (18 # 10) (str "Lora")))
    as [s'|] eqn:E; [|vm_compute in E; discriminate].
  exists s'. split; [reflexivity|].
  refine (proj1 (proj2 (@goToPage_lands 30 2 [] (mkLayout 40 20) _ s' E)) _ _).
  - simpl. lia.
  - vm_compute in E. injection E as <-. simpl. lia.
Defined.

(** ** What is drawn *)

Lemma renderBlocks_texts (c : list jsstring) :
  Forall tidy c -> forall i, List.map blockText (renderBlocks i c) = c.
Proof.
  induction 1 as [|t c Ht _ IH]; intro i; cbn [renderBlocks List.map]; [reflexivity|].
  cbv zeta. rewrite IH. f_equal.
  destruct Ht as (_ & Hs & He).
  destruct (isTitle (trim t)); cbn [blockText]; now apply trim_clean.
Qed.

Lemma renderBlocks_paragraphs (c : list jsstring) :
  Forall tidy c -> (forall t, In t c -> isTitleText t = false) ->
  forall i, (0 < i)%Z ->
  forall b, In b (renderBlocks i c) -> exists t, b = Para true t.
Proof.
  induction 1 as [|t c Ht _ IH]; intros Hno i Hi b Hb; cbn [renderBlocks] in Hb;
    [contradiction|].
  cbv zeta in Hb. destruct Hb as [<-|Hb].
  - destruct Ht as (_ & Hs & He). rewrite (@trim_clean t Hs He).
    change (isTitle t) with (isTitleText t). rewrite (Hno t (or_introl eq_refl)).
    exists t. f_equal. apply negb_true_iff, Z.eqb_neq. lia.
  - apply (IH (fun u Hu => Hno u (or_intror Hu)) (i + 1)%Z); [lia | exact Hb].
Qed.

(** X17. What a render draws, in every state the module can reach:
    the blocks carry the strings of the current page as they are, in
    order (the trim changes nothing), and only the first block can be
    a heading: every later block is an ordinary paragraph with the
    first line indent. *)
Theorem only_first_block_is_heading :
  forall (fuel : nat) (pageTexts : list jsstring) (l : Layout) (s s' : State),
    reachable s ->
    renderTextContent fuel pageTexts l s = Some s' ->
    List.map blockText (drawnBlocks s')
    = match currentPageObj s' with Some pg => content pg | None => [] end
    /\ forall b, In b (tl (drawnBlocks s')) -> exists t, b = Para true t.
Proof.
  intros fuel pt l s s' Hr H.
  pose proof (reachable_tidy Hr) as Ht.
  apply renderTextContent_fields in H. cbv zeta in H.
  destruct H as (Hp & _ & _ & _ & _).
  assert (Htxt : Forall tidy
                   (if isEmpty (extractedText s)
                    then extractedText (extractAllText pt s) else extractedText s)).
  { destruct (isEmpty _); [apply extractAllText_tidy | exact Ht]. }
  pose proof (@paginate_tidy _ _ _ _ Htxt Hp) as Htidy.
  pose proof (@paginate_titles _ _ _ _ Hp) as Htitles.
  unfold drawnBlocks. cbv zeta.
  destruct (currentPageObj s') as [pg|] eqn:Ecur;
    [|split; [reflexivity | intros b []]].
  assert (Hin : In pg (paginatedContent s')).
  { unfold currentPageObj in Ecur. destruct (_ <? _)%Z; [discriminate|].
    now apply nth_error_In in Ecur. }
  rewrite Forall_forall in Htidy, Htitles.
  specialize (Htidy pg Hin). specialize (Htitles pg Hin).
  unfold tidyPage in Htidy. unfold titleOnlyFirst in Htitles.
  split; [now apply renderBlocks_texts|].
  destruct (content pg) as [|t c]; [intros b []|].
  cbn [renderBlocks tl]. intros b Hb.
  apply (@renderBlocks_paragraphs c) with (i := (0 + 1)%Z); [| |lia|exact Hb].
  - now inversion Htidy.
  - exact Htitles.
Qed.

Lemma only_first_block_is_heading_witness :
  exists s' : State,
    renderTextContent 30 [] (mkLayout 40 20)
      (extractAllText exampleRawText initState) = Some s'
    /\ forall b, In b (tl (drawnBlocks s')) -> exists t, b = Para true t.
Proof.
  destruct (renderTextContent 30 [] (mkLayout 40 20)
              (extractAllText exampleRawText initState))
    as [s'|] eqn:E; [|vm_compute in E; discriminate].
  exists s'. split; [reflexivity|].
  refine (proj2 (@only_first_block_is_heading 30 [] (mkLayout 40 20)
                   (extractAllText exampleRawText initState) s' _ E)).
  apply (@reach_step 0 (OpExtractAllText exampleRawText) initState);
    [apply reach_init | reflexivity].
Defined.

(** ** Themes *)

Lemma strEq_spec (a b : jsstring) : strEq a b = true <-> a = b.
Proof.
  revert b. induction a as [|x a IH]; intros [|y b]; cbn [strEq];
    try (split; [discriminate | discriminate]); [tauto|].
  rewrite andb_true_iff, N.eqb_eq, IH. split; [intros [-> ->]; reflexivity|].
  intros [= -> ->]. auto.
Qed.

Lemma arrayIncludes_In (l : list jsstring) (x : jsstring) :
  arrayIncludes l x = true <-> In x l.
Proof.
  unfold arrayIncludes. rewrite existsb_exists. split.
  - intros [y [Hy E]]. apply strEq_spec in E. now subst.
  - intro H. exists x. split; [exact H | now apply strEq_spec].
Qed.

Lemma themes_cases (th : jsstring) :
  In th Themes.THEMES -> th = str "light" \/ th = str "dark" \/ th = str "sepia".
Proof. intros [<-|[<-|[<-|[]]]]; auto. Qed.

Lemma setTheme_known (stored : bool) (theme : jsstring) (t : Themes.ThemeState) :
  In (Themes.currentTheme t) Themes.THEMES
  /\ Themes.dataTheme t = Some (Themes.currentTheme t) ->
  In (Themes.currentTheme (Themes.setTheme stored theme t)) Themes.THEMES
  /\ Themes.dataTheme (Themes.setTheme stored theme t)
     = Some (Themes.currentTheme (Themes.setTheme stored theme t)).
Proof.
  intro H. unfold Themes.setTheme.
  destruct (arrayIncludes Themes.THEMES theme) eqn:E; cbn [negb]; [|exact H].
  apply arrayIncludes_In in E. cbn. split; [exact E | reflexivity].
Qed.

(** X18. After [init], whatever the stored setting, the local storage
    and the system preference are and whatever calls follow, the
    current theme is one of light, dark and sepia, and the attribute
    [data-theme] of the body holds it. *)
Theorem theme_is_always_known :
  forall t : Themes.ThemeState,
    Themes.reached t ->
    In (Themes.currentTheme t) Themes.THEMES
    /\ Themes.dataTheme t = Some (Themes.currentTheme t).
Proof.
  induction 1 as [attribute manual setting readOk matchMedia | e t Hr IH].
  - unfold Themes.init, Themes.loaded. destruct readOk; cbn [negb].
    + cbn [Themes.themeSetting Themes.currentTheme].
      assert (Hth :
                 In (match setting with
                     | Some th' =>
                         if truthy setting && arrayIncludes Themes.THEMES th' then th'
                         else if match matchMedia with Some m => m | None => false end
                              then str "dark" else str "light"
                     | None =>
                         if match matchMedia with Some m => m | None => false end
                         then str "dark" else str "light"
                     end) Themes.THEMES).
      { destruct setting as [th'|].
        - destruct (truthy (Some th') && arrayIncludes Themes.THEMES th') eqn:E.
          + apply andb_true_iff in E. now apply arrayIncludes_In.
          + destruct matchMedia as [[|]|]; cbn; auto.
        - destruct matchMedia as [[|]|]; cbn; auto. }
      destruct matchMedia as [m|]; cbn -[str Themes.THEMES arrayIncludes truthy];
        [|split; [cbn; auto | reflexivity]].
      split; [exact Hth | reflexivity].
    + cbn. split; [auto | reflexivity].
  - destruct e as [stored theme | stored | stored matches]; cbn [Themes.run].
    + now apply setTheme_known.
    + unfold Themes.cycleTheme.
      destruct (nth_error Themes.THEMES _) as [theme|]; cbn [fst]; [|exact IH].
      now apply setTheme_known.
    + unfold Themes.systemChange. destruct (Themes.listening t); [|exact IH].
      destruct (negb _); [|exact IH]. now apply setTheme_known.
Qed.

Lemma theme_is_always_known_witness :
  In (Themes.currentTheme
        (Themes.run (Themes.EvCycleTheme true)
           (Themes.init true (Some true) (Themes.loaded None None None))))
     Themes.THEMES.
Proof.
  apply (@theme_is_always_known
           (Themes.run (Themes.EvCycleTheme true)
              (Themes.init true (Some true) (Themes.loaded None None None)))).
  apply Themes.reached_run. apply Themes.reached_init.
Defined.

(** X19. The theme button walks through the three themes: from a
    known theme, [cycleTheme] answers the theme it sets, three calls
    come back to the theme they started from, and the themes before,
    after one call and after two calls are all different; the order
    is light, dark, sepia. *)
Theorem cycle_walks_all_themes :
  forall (b1 b2 b3 : bool) (t : Themes.ThemeState),
    In (Themes.currentTheme t) Themes.THEMES ->
    let t1 := fst (Themes.cycleTheme b1 t) in
    let t2 := fst (Themes.cycleTheme b2 t1) in
    let t3 := fst (Themes.cycleTheme b3 t2) in
    snd (Themes.cycleTheme b1 t) = Some (Themes.currentTheme t1)
    /\ Themes.currentTheme t3 = Themes.currentTheme t
    /\ NoDup [Themes.currentTheme t; Themes.currentTheme t1; Themes.currentTheme t2]
    /\ (Themes.currentTheme t = str "light" -> Themes.currentTheme t1 = str "dark")
    /\ (Themes.currentTheme t = str "dark" -> Themes.currentTheme t1 = str "sepia")
    /\ (Themes.currentTheme t = str "sepia" -> Themes.currentTheme t1 = str "light").
Proof.
  intros b1 b2 b3 [cur attr manual setting lst] H. cbn [Themes.currentTheme] in H.
  apply themes_cases in H.
  assert (Hnd : forall a b c : jsstring,
             strEq a b = false -> strEq a c = false -> strEq b c = false ->
             NoDup [a; b; c]).
  { intros a b c H1 H2 H3.
    assert (a <> b) by (intro E; apply strEq_spec in E; congruence).
    assert (a <> c) by (intro E; apply strEq_spec in E; congruence).
    assert (b <> c) by (intro E; apply strEq_spec in E; congruence).
    repeat constructor; cbn; intuition congruence. }
  destruct H as [-> | [-> | ->]]; cbv zeta;
    (split; [reflexivity|]); (split; [reflexivity|]);
    (split; [apply Hnd; reflexivity|]);
    repeat split; intro E; first [reflexivity | vm_compute in E; discriminate].
Qed.

Lemma cycle_walks_all_themes_witness :
  Themes.currentTheme
    (fst (Themes.cycleTheme true
            (fst (Themes.cycleTheme true
                    (fst (Themes.cycleTheme true
                            (Themes.init true (Some false)
                               (Themes.loaded None None None))))))))
  = str "light".
Proof.
  apply (proj1 (proj2 (@cycle_walks_all_themes true true true
                         (Themes.init true (Some false)
                            (Themes.loaded None None None))
                         ltac:(cbn; auto)))).
Defined.

(** X20. A change of the system preference is followed once at most:
    with the listener installed and no manual mark the theme becomes
    dark or light as the system says, but the listener goes through
    [setTheme], which sets the manual mark, so a second change leaves
    everything as it is; so does any change after [setTheme] chose a
    known theme, and any change when the mark is already set. *)
Theorem system_preference_followed_once :
  forall (b1 b2 : bool) (m1 m2 : bool) (t : Themes.ThemeState),
    (Themes.listening t = true -> truthy (Themes.themeManual t) = false ->
     Themes.currentTheme (Themes.systemChange b1 m1 t)
     = if m1 then str "dark" else str "light")
    /\ Themes.systemChange b2 m2 (Themes.systemChange b1 m1 t)
       = Themes.systemChange b1 m1 t
    /\ (truthy (Themes.themeManual t) = true -> Themes.systemChange b1 m1 t = t)
    /\ (forall theme, In theme Themes.THEMES ->
          Themes.systemChange b2 m2 (Themes.setTheme b1 theme t)
          = Themes.setTheme b1 theme t).
Proof.
  intros b1 b2 m1 m2 [cur attr manual setting lst].
  split; [|split; [|split]].
  - cbn [Themes.listening Themes.themeManual]. intros -> Hm.
    unfold Themes.systemChange. cbn [Themes.listening Themes.themeManual].
    rewrite Hm. cbn [negb]. now destruct m1.
  - unfold Themes.systemChange at 2 3. cbn [Themes.listening Themes.themeManual].
    destruct lst; [|reflexivity].
    destruct (truthy manual) eqn:Hm; cbn [negb].
    + unfold Themes.systemChange. cbn [Themes.listening Themes.themeManual].
      now rewrite Hm.
    + destruct m1; reflexivity.
  - cbn [Themes.themeManual]. intro Hm. unfold Themes.systemChange.
    cbn [Themes.listening Themes.themeManual]. rewrite Hm. now destruct lst.
  - intros theme Hin. unfold Themes.setTheme.
    rewrite (proj2 (arrayIncludes_In _ _) Hin). cbn [negb]. cbv zeta.
    unfold Themes.systemChange. cbn. now destruct lst.
Qed.

(** X21. A theme that was chosen and stored is the theme of the next
    page load, when [init] can read the setting and
    [window.matchMedia] exists, whatever the system prefers; without
    [window.matchMedia], or when the setting cannot be read, the next
    page load ends in the light theme. *)
Theorem chosen_theme_is_restored :
  forall (theme : jsstring) (t : Themes.ThemeState) (attribute : option jsstring)
         (m : bool),
    In theme Themes.THEMES ->
    let t1 := Themes.setTheme true theme t in
    let next := Themes.loaded attribute (Themes.themeManual t1)
                              (Themes.themeSetting t1) in
    Themes.currentTheme (Themes.init true (Some m) next) = theme
    /\ Themes.currentTheme (Themes.init true None next) = str "light"
    /\ Themes.currentTheme (Themes.init false (Some m) next) = str "light".
Proof.
  intros theme t attribute m Hin. cbv zeta.
  assert (Hs : Themes.themeSetting (Themes.setTheme true theme t) = Some theme).
  { unfold Themes.setTheme. rewrite (proj2 (arrayIncludes_In _ _) Hin). reflexivity. }
  rewrite Hs. unfold Themes.init, Themes.loaded.
  cbn [negb Themes.themeSetting Themes.currentTheme].
  rewrite (proj2 (arrayIncludes_In _ _) Hin).
  assert (Ht : truthy (Some theme) = true).
  { apply themes_cases in Hin. destruct Hin as [-> | [-> | ->]]; reflexivity. }
  rewrite Ht. cbn [andb]. repeat split.
Qed.

Lemma chosen_theme_is_restored_witness :
  Themes.currentTheme
    (Themes.init true (Some true)
       (Themes.loaded None
          (Themes.themeManual
             (Themes.setTheme true (str "sepia") (Themes.loaded None None None)))
          (Themes.themeSetting
             (Themes.setTheme true (str "sepia") (Themes.loaded None None None)))))
  = str "sepia".
Proof.
  apply (proj1 (@chosen_theme_is_restored (str "sepia")
                  (Themes.loaded None None None) None true
                  ltac:(cbn; auto))).
Defined.

(** ** Object stores *)

Section ObjectStoreFacts.

Variable R : Type.
Variable keyOf : R -> jsstring.

Lemma strEq_refl (a : jsstring) : strEq a a = true.
Proof. now apply strEq_spec. Qed.

Lemma strEq_neq (a b : jsstring) : a <> b -> strEq a b = false.
Proof.
  intro H. destruct (strEq a b) eqn:E; [|reflexivity].
  apply strEq_spec in E. contradiction.
Qed.

Lemma storeGet_key (k : jsstring) (st : list R) (r : R) :
  storeGet keyOf k st = Some r -> keyOf r = k /\ In r st.
Proof.
  induction st as [|r' st IH]; cbn [storeGet]; [discriminate|].
  destruct (strEq (keyOf r') k) eqn:E.
  - intros [= <-]. apply strEq_spec in E. split; [exact E | now left].
  - intro H. destruct (IH H). split; [assumption | now right].
Qed.

Lemma storeGet_put_same (r : R) (st : list R) :
  storeGet keyOf (keyOf r) (storePut keyOf r st) = Some r.
Proof.
  induction st as [|r' st IH]; cbn [storePut storeGet].
  - now rewrite strEq_refl.
  - destruct (strEq (keyOf r') (keyOf r)) eqn:E; cbn [storeGet].
    + now rewrite strEq_refl.
    + destruct (strLtb (keyOf r) (keyOf r')); cbn [storeGet].
      * now rewrite strEq_refl.
      * now rewrite E.
Qed.

Lemma storeGet_put_other (k : jsstring) (r : R) (st : list R) :
  k <> keyOf r ->
  storeGet keyOf k (storePut keyOf r st) = storeGet keyOf k st.
Proof.
  intro Hk. assert (Hr : strEq (keyOf r) k = false) by (apply strEq_neq; congruence).
  induction st as [|r' st IH]; cbn [storePut storeGet].
  - now rewrite Hr.
  - destruct (strEq (keyOf r') (keyOf r)) eqn:E; cbn [storeGet].
    + apply strEq_spec in E. rewrite E, Hr. reflexivity.
    + destruct (strLtb (keyOf r) (keyOf r')); cbn [storeGet].
      * now rewrite Hr.
      * now rewrite IH.
Qed.

Lemma storePut_In (r x : R) (st : list R) :
  In x (storePut keyOf r st) -> x = r \/ In x st.
Proof.
  induction st as [|r' st IH]; cbn [storePut].
  - intros [<-|[]]. now left.
  - destruct (strEq (keyOf r') (keyOf r)).
    + intros [<-|H]; [now left | right; now right].
    + destruct (strLtb (keyOf r) (keyOf r')).
      * intros [<-|H]; [now left | now right].
      * intros [<-|H]; [right; now left|].
        destruct (IH H); [now left | right; now right].
Qed.

Lemma storePut_In_new (r : R) (st : list R) : In r (storePut keyOf r st).
Proof.
  induction st as [|r' st IH]; cbn [storePut]; [now left|].
  destruct (strEq (keyOf r') (keyOf r)); [now left|].
  destruct (strLtb (keyOf r) (keyOf r')); [now left | now right].
Qed.

Lemma storeGet_delete_same (k : jsstring) (st : list R) :
  storeGet keyOf k (storeDelete keyOf k st) = None.
Proof.
  induction st as [|r st IH]; cbn [storeDelete storeGet]; [reflexivity|].
  destruct (strEq (keyOf r) k) eqn:E; [exact IH|].
  cbn [storeGet]. now rewrite E.
Qed.

Lemma storeGet_delete_other (k k' : jsstring) (st : list R) :
  k' <> k ->
  storeGet keyOf k' (storeDelete keyOf k st) = storeGet keyOf k' st.
Proof.
  intro Hk. induction st as [|r st IH]; cbn [storeDelete storeGet]; [reflexivity|].
  destruct (strEq (keyOf r) k) eqn:E.
  - apply strEq_spec in E. rewrite IH.
    rewrite (@strEq_neq (keyOf r) k') by congruence. reflexivity.
  - cbn [storeGet]. now rewrite IH.
Qed.

Lemma storeDelete_absent (k : jsstring) (st : list R) :
  storeGet keyOf k st = None -> storeDelete keyOf k st = st.
Proof.
  induction st as [|r st IH]; cbn [storeDelete storeGet]; [reflexivity|].
  destruct (strEq (keyOf r) k); [discriminate|]. intro H. now rewrite IH.
Qed.

Lemma storeDelete_put_fresh (r : R) (st : list R) :
  storeGet keyOf (keyOf r) st = None ->
  storeDelete keyOf (keyOf r) (storePut keyOf r st) = st.
Proof.
  induction st as [|r' st IH]; cbn [storePut storeGet storeDelete].
  - now rewrite strEq_refl.
  - destruct (strEq (keyOf r') (keyOf r)) eqn:E; [discriminate|]. intro H.
    destruct (strLtb (keyOf r) (keyOf r')); cbn [storeDelete].
    + rewrite strEq_refl, E. now rewrite storeDelete_absent.
    + rewrite E. now rewrite IH.
Qed.

Variable indexOf : R -> jsstring.

Lemma indexGetAll_filter (v : jsstring) (st : list R) :
  indexGetAll indexOf v st = filter (fun r => strEq (indexOf r) v) st.
Proof.
  induction st as [|r st IH]; cbn [indexGetAll filter]; [reflexivity|].
  now rewrite IH.
Qed.

Lemma indexGetAll_deleted (v : jsstring) (st : list R) :
  indexGetAll indexOf v (cursorDeleteAll indexOf v st) = [].
Proof.
  induction st as [|r st IH]; cbn [cursorDeleteAll]; [reflexivity|].
  destruct (strEq (indexOf r) v) eqn:E; [exact IH|].
  cbn [indexGetAll]. now rewrite E.
Qed.

Lemma indexGetAll_kept (v v' : jsstring) (st : list R) :
  v' <> v ->
  indexGetAll indexOf v' (cursorDeleteAll indexOf v st) = indexGetAll indexOf v' st.
Proof.
  intro Hv. induction st as [|r st IH]; cbn [cursorDeleteAll indexGetAll]; [reflexivity|].
  destruct (strEq (indexOf r) v) eqn:E.
  - apply strEq_spec in E. rewrite IH.
    rewrite (@strEq_neq (indexOf r) v') by congruence. reflexivity.
  - cbn [indexGetAll]. now rewrite IH.
Qed.

Lemma indexGetAll_put_other (v : jsstring) (r : R) (st : list R) :
  storeGet keyOf (keyOf r) st = None -> v <> indexOf r ->
  indexGetAll indexOf v (storePut keyOf r st) = indexGetAll indexOf v st.
Proof.
  intros Hf Hv.
  assert (Hr : strEq (indexOf r) v = false) by (apply strEq_neq; congruence).
  induction st as [|r' st IH]; cbn [storePut storeGet indexGetAll] in *.
  - now rewrite Hr.
  - destruct (strEq (keyOf r') (keyOf r)) eqn:E; [discriminate|].
    destruct (strLtb (keyOf r) (keyOf r')); cbn [indexGetAll].
    + now rewrite Hr.
    + now rewrite IH.
Qed.

Variable compare : R -> R -> Z.

Lemma sortInsert_perm (x : R) (l : list R) :
  Permutation (sortInsert compare x l) (x :: l).
Proof.
  induction l as [|y l IH]; cbn [sortInsert]; [reflexivity|].
  destruct (compare x y <=? 0)%Z; [reflexivity|].
  rewrite IH. apply perm_swap.
Qed.

Lemma arraySort_perm (l : list R) : Permutation (arraySort compare l) l.
Proof.
  induction l as [|x l IH]; cbn [arraySort fold_right]; [reflexivity|].
  fold (arraySort compare l). rewrite sortInsert_perm. now constructor.
Qed.

Variable rank : R -> Z.
Hypothesis compare_rank : forall a b, compare a b = (rank a - rank b)%Z.

Lemma sortInsert_sorted (x : R) (l : list R) :
  StronglySorted (fun a b => (rank a <= rank b)%Z) l ->
  StronglySorted (fun a b => (rank a <= rank b)%Z) (sortInsert compare x l).
Proof.
  induction 1 as [|y l Hs IH Hall]; cbn [sortInsert].
  - constructor; constructor.
  - rewrite compare_rank. destruct (rank x - rank y <=? 0)%Z eqn:E.
    + apply Z.leb_le in E. constructor; [now constructor|].
      constructor; [lia|]. rewrite Forall_forall in *. intros z Hz.
      specialize (Hall z Hz). lia.
    + apply Z.leb_gt in E. constructor; [exact IH|].
      rewrite Forall_forall in *. intros z Hz.
      apply (Permutation_in _ (sortInsert_perm x l)) in Hz.
      destruct Hz as [<-|Hz]; [lia | now apply Hall].
Qed.

Lemma arraySort_sorted (l : list R) :
  StronglySorted (fun a b => (rank a <= rank b)%Z) (arraySort compare l).
Proof.
  induction l as [|x l IH]; cbn [arraySort fold_right]; [constructor|].
  now apply sortInsert_sorted.
Qed.

End ObjectStoreFacts.

(** ** Storage *)

(** X22. Deleting a book takes its bookmarks and notes with it and
    nothing else: afterwards the book is not found and has no
    bookmark and no note, while every other book, with its bookmarks
    and notes, and every setting read as before. *)
Theorem delete_book_cascade :
  forall (bookId : jsstring) (db : Storage.DB),
    let db' := Storage.deleteBook bookId db in
    Storage.getBook bookId db' = None
    /\ Storage.getBookmarks bookId db' = []
    /\ Storage.getNotes bookId db' = []
    /\ (forall other, other <> bookId ->
          Storage.getBook other db' = Storage.getBook other db
          /\ Storage.getBookmarks other db' = Storage.getBookmarks other db
          /\ Storage.getNotes other db' = Storage.getNotes other db)
    /\ (forall k, Storage.getSetting k db' = Storage.getSetting k db).
Proof.
  intros bookId db. cbv zeta.
  unfold Storage.getBook, Storage.getBookmarks, Storage.getNotes,
    Storage.getSetting, Storage.deleteBook.
  cbn [Storage.books Storage.bookmarks Storage.notes Storage.settings].
  split; [apply storeGet_delete_same|].
  split; [now rewrite indexGetAll_deleted|].
  split; [now rewrite indexGetAll_deleted|].
  split; [|reflexivity].
  intros other Ho.
  split; [now apply storeGet_delete_other|].
  split; now rewrite indexGetAll_kept.
Qed.

Lemma getBookmarks_perm (bookId : jsstring) (db : Storage.DB) :
  Permutation (Storage.getBookmarks bookId db)
              (filter (fun bm => strEq (Storage.bm_bookId bm) bookId)
                      (Storage.bookmarks db)).
Proof.
  unfold Storage.getBookmarks. rewrite arraySort_perm.
  now rewrite indexGetAll_filter.
Qed.

Lemma getBookmarks_In (bookId : jsstring) (db : Storage.DB) (bm : Storage.Bookmark) :
  In bm (Storage.getBookmarks bookId db)
  <-> In bm (Storage.bookmarks db) /\ Storage.bm_bookId bm = bookId.
Proof.
  pose proof (getBookmarks_perm bookId db) as Hp. split.
  - intro H. apply (Permutation_in _ Hp) in H. apply filter_In in H.
    destruct H as [H E]. apply strEq_spec in E. now split.
  - intros [H E]. apply (Permutation_in _ (Permutation_sym Hp)).
    apply filter_In. split; [exact H | now apply strEq_spec].
Qed.

(** X23. The bookmarks listed for a book are its bookmarks and only
    they, each as often as it is stored, in the order of their
    pages. *)
Theorem bookmarks_listed_by_page :
  forall (bookId : jsstring) (db : Storage.DB),
    StronglySorted (fun a b => (Storage.bm_page a <= Storage.bm_page b)%Z)
                   (Storage.getBookmarks bookId db)
    /\ Permutation (Storage.getBookmarks bookId db)
                   (filter (fun bm => strEq (Storage.bm_bookId bm) bookId)
                           (Storage.bookmarks db))
    /\ (forall bm, In bm (Storage.getBookmarks bookId db)
                   <-> In bm (Storage.bookmarks db) /\ Storage.bm_bookId bm = bookId).
Proof.
  intros bookId db.
  split; [|split; [apply getBookmarks_perm | intro bm; apply getBookmarks_In]].
  unfold Storage.getBookmarks.
  apply arraySort_sorted with (rank := Storage.bm_page). reflexivity.
Qed.

(** X24. Adding a bookmark under an identifier that is not taken and
    deleting it again: the bookmark is listed for its book, the lists
    of the other books are as before, and after [deleteBookmark] the
    database is what it was.  Under an identifier that is taken the
    call is rejected and the database is as before. *)
Theorem bookmark_add_then_delete :
  forall (id bookId : jsstring) (now page : Z) (db : Storage.DB),
    let bookmark := Storage.mkBookmark id bookId page now in
    let result := Storage.addBookmark id now bookId page db in
    (storeGet Storage.bm_id id (Storage.bookmarks db) = None ->
     fst result = Storage.Resolved bookmark
     /\ In bookmark (Storage.getBookmarks bookId (snd result))
     /\ (forall other, other <> bookId ->
           Storage.getBookmarks other (snd result) = Storage.getBookmarks other db)
     /\ Storage.deleteBookmark id (snd result) = db)
    /\ (storeGet Storage.bm_id id (Storage.bookmarks db) <> None ->
        snd result = db /\ exists e, fst result = Storage.Rejected e).
Proof.
  intros id bookId now page db. cbv zeta.
  unfold Storage.addBookmark, storeAdd. cbn [Storage.bm_id].
  split.
  - intro Hf. rewrite Hf. cbn [fst snd].
    split; [reflexivity|]. split; [|split].
    + apply (proj2 (getBookmarks_In _ _ _)).
      cbn [Storage.bookmarks Storage.bm_bookId]. split; [|reflexivity].
      apply storePut_In_new.
    + intros other Ho. unfold Storage.getBookmarks. cbn [Storage.bookmarks].
      rewrite indexGetAll_put_other; [reflexivity | exact Hf |].
      cbn [Storage.bm_bookId]. exact Ho.
    + unfold Storage.deleteBookmark.
      cbn [Storage.books Storage.bookmarks Storage.notes Storage.settings].
      pose proof (@storeDelete_put_fresh _ Storage.bm_id
                    (Storage.mkBookmark id bookId page now)
                    (Storage.bookmarks db) Hf) as Hd.
      cbn [Storage.bm_id] in Hd. rewrite Hd. now destruct db.
  - intro Hn. destruct (storeGet Storage.bm_id id (Storage.bookmarks db));
      [|congruence].
    cbn [fst snd]. split; [reflexivity | eexists; reflexivity].
Qed.

(** X25. A setting reads back as it was written: after [setSetting]
    the key gives the value, a second write replaces the first, every
    other key reads as before, and the books, bookmarks and notes are
    untouched. *)
Theorem setting_reads_back :
  forall (k v v' : jsstring) (db : Storage.DB),
    Storage.getSetting k (Storage.setSetting k v db) = Some v
    /\ Storage.getSetting k (Storage.setSetting k v' (Storage.setSetting k v db))
       = Some v'
    /\ (forall other, other <> k ->
          Storage.getSetting other (Storage.setSetting k v db)
          = Storage.getSetting other db)
    /\ Storage.books (Storage.setSetting k v db) = Storage.books db
    /\ Storage.bookmarks (Storage.setSetting k v db) = Storage.bookmarks db
    /\ Storage.notes (Storage.setSetting k v db) = Storage.notes db.
Proof.
  intros k v v' db.
  assert (Hget : forall w d, Storage.getSetting k (Storage.setSetting k w d) = Some w).
  { intros w d. unfold Storage.getSetting, Storage.setSetting.
    cbn [Storage.settings].
    pose proof (@storeGet_put_same _ Storage.key (Storage.mkSetting k w)
                  (Storage.settings d)) as H.
    cbn [Storage.key] in H. now rewrite H. }
  split; [apply Hget|]. split; [apply Hget|].
  split; [|repeat split].
  intros other Ho. unfold Storage.getSetting, Storage.setSetting.
  cbn [Storage.settings].
  now rewrite storeGet_put_other.
Qed.

Lemma updateBookProgress_found (bookId : jsstring) (page now : Z)
    (db : Storage.DB) (book : Storage.Book) :
  Storage.getBook bookId db = Some book ->
  let book' := Storage.mkBook bookId (Storage.b_title book) (Storage.b_data book)
                 (Storage.b_totalPages book) page (Storage.b_addedAt book)
                 (Some now) (Storage.b_coverImage book) in
  Storage.updateBookProgress bookId page now db
  = (Storage.Resolved book',
     Storage.mkDB (storePut Storage.b_id book' (Storage.books db))
                  (Storage.bookmarks db) (Storage.notes db) (Storage.settings db)).
Proof.
  unfold Storage.getBook, Storage.updateBookProgress. intro H. rewrite H.
  apply storeGet_key in H. destruct H as [<- _]. reflexivity.
Qed.

(** X26. Recording progress: for a book that is not stored the call
    is rejected with "Book not found" and the database is as before;
    for a stored book it answers the book with the new current page
    and the instant of the call as the last reading, everything else
    of the book kept, the book reads back so, and the other books, the
    bookmarks, the notes and the settings are untouched. *)
Theorem progress_is_recorded :
  forall (bookId : jsstring) (page now : Z) (db : Storage.DB),
    let result := Storage.updateBookProgress bookId page now db in
    (Storage.getBook bookId db = None ->
     result = (Storage.Rejected (str "Book not found"), db))
    /\ (forall book, Storage.getBook bookId db = Some book ->
          exists book',
            fst result = Storage.Resolved book'
            /\ Storage.getBook bookId (snd result) = Some book'
            /\ Storage.b_currentPage book' = page
            /\ Storage.b_lastReadAt book' = Some now
            /\ Storage.b_id book' = bookId
            /\ Storage.b_title book' = Storage.b_title book
            /\ Storage.b_data book' = Storage.b_data book
            /\ Storage.b_totalPages book' = Storage.b_totalPages book
            /\ Storage.b_addedAt book' = Storage.b_addedAt book
            /\ Storage.b_coverImage book' = Storage.b_coverImage book)
    /\ (forall other, other <> bookId ->
          Storage.getBook other (snd result) = Storage.getBook other db)
    /\ Storage.bookmarks (snd result) = Storage.bookmarks db
    /\ Storage.notes (snd result) = Storage.notes db
    /\ Storage.settings (snd result) = Storage.settings db.
Proof.
  intros bookId page now db. cbv zeta.
  destruct (Storage.getBook bookId db) as [book|] eqn:E.
  - rewrite (@updateBookProgress_found bookId page now db book E). cbv zeta. cbn [fst snd].
    split; [discriminate|]. split; [|split; [|repeat split]].
    + intros b [= <-]. eexists. split; [reflexivity|].
      split; [|repeat split].
      unfold Storage.getBook. cbn [Storage.books].
      match goal with
      | |- storeGet _ _ (storePut _ ?b _) = _ =>
          pose proof (@storeGet_put_same _ Storage.b_id b (Storage.books db)) as H
      end.
      cbn [Storage.b_id] in H. exact H.
    + intros other Ho. unfold Storage.getBook. cbn [Storage.books].
      apply storeGet_put_other. cbn [Storage.b_id]. exact Ho.
  - unfold Storage.updateBookProgress. unfold Storage.getBook in E. rewrite E.
    cbn [fst snd]. split; [reflexivity|]. split; [discriminate|].
    split; [reflexivity | repeat split].
Qed.

Lemma saveBook_fresh (id : jsstring) (now : Z) (title : jsstring) (data : list N)
    (totalPages : Z) (coverImage : option jsstring) (db : Storage.DB) :
  Storage.getBook id db = None ->
  let book := Storage.mkBook id title data totalPages 1 now None
                (if truthy coverImage then coverImage else None) in
  Storage.saveBook id now title data totalPages coverImage db
  = (Storage.Resolved book,
     Storage.mkDB (storePut Storage.b_id book (Storage.books db))
                  (Storage.bookmarks db) (Storage.notes db) (Storage.settings db)).
Proof.
  unfold Storage.getBook, Storage.saveBook, storeAdd. cbn [Storage.b_id].
  intros ->. reflexivity.
Qed.

(** X27. A book saved under an identifier that is not taken reads
    back at page 1 and never read, the books stored before read as
    before, and saving under an identifier that is taken is rejected
    and changes nothing. *)
Theorem saved_book_reads_back :
  forall (id : jsstring) (now : Z) (title : jsstring) (data : list N)
         (totalPages : Z) (coverImage : option jsstring) (db : Storage.DB),
    let result := Storage.saveBook id now title data totalPages coverImage db in
    (Storage.getBook id db = None ->
     exists book,
       fst result = Storage.Resolved book
       /\ Storage.getBook id (snd result) = Some book
       /\ Storage.b_currentPage book = 1%Z
       /\ Storage.b_lastReadAt book = None
       /\ Storage.b_title book = title
       /\ Storage.b_data book = data
       /\ Storage.b_totalPages book = totalPages
       /\ (forall other, other <> id ->
             Storage.getBook other (snd result) = Storage.getBook other db))
    /\ (Storage.getBook id db <> None ->
        snd result = db /\ exists e, fst result = Storage.Rejected e).
Proof.
  intros id now title data totalPages coverImage db. cbv zeta. split.
  - intro Hf. rewrite (@saveBook_fresh id now title data totalPages coverImage db Hf).
    cbv zeta. cbn [fst snd]. eexists. split; [reflexivity|].
    split; [|repeat split].
    + unfold Storage.getBook. cbn [Storage.books].
      match goal with
      | |- storeGet _ _ (storePut _ ?b _) = _ =>
          pose proof (@storeGet_put_same _ Storage.b_id b (Storage.books db)) as H
      end.
      cbn [Storage.b_id] in H. exact H.
    + intros other Ho. unfold Storage.getBook. cbn [Storage.books].
      apply storeGet_put_other. cbn [Storage.b_id]. exact Ho.
  - intro Hn. unfold Storage.saveBook, storeAdd. unfold Storage.getBook in Hn.
    cbn [Storage.b_id].
    destruct (storeGet Storage.b_id id (Storage.books db)); [|congruence].
    cbn [fst snd]. split; [reflexivity | eexists; reflexivity].
Qed.

Lemma getAllBooks_perm (db : Storage.DB) :
  Permutation (Storage.getAllBooks db) (Storage.books db).
Proof. unfold Storage.getAllBooks. apply arraySort_perm. Qed.

Lemma getAllBooks_sorted (db : Storage.DB) :
  StronglySorted (fun a b => (Storage.lastActive b <= Storage.lastActive a)%Z)
                 (Storage.getAllBooks db).
Proof.
  unfold Storage.getAllBooks.
  assert (H : StronglySorted
                (fun a b => (- Storage.lastActive a <= - Storage.lastActive b)%Z)
                (arraySort (fun a b => (Storage.lastActive b - Storage.lastActive a)%Z)
                           (Storage.books db))).
  { apply arraySort_sorted with (rank := fun a => (- Storage.lastActive a)%Z).
    intros a b. lia. }
  eapply StronglySorted_ind with (P := fun l =>
    StronglySorted (fun a b => (Storage.lastActive b <= Storage.lastActive a)%Z) l);
    [constructor | | exact H].
  intros a l _ IH Hall. constructor; [exact IH|].
  rewrite Forall_forall in *. intros x Hx. specialize (Hall x Hx). lia.
Qed.

(** X28. The library lists every stored book once for each time it
    is stored, the most recently active first (the last reading, or
    the adding for a book never read); and a book whose progress is
    recorded at an instant later than every activity stored comes
    first. *)
Theorem library_most_recent_first :
  forall (db : Storage.DB),
    Permutation (Storage.getAllBooks db) (Storage.books db)
    /\ StronglySorted
         (fun a b => (Storage.lastActive b <= Storage.lastActive a)%Z)
         (Storage.getAllBooks db)
    /\ (forall bookId page now book,
          Storage.getBook bookId db = Some book ->
          (forall b, In b (Storage.books db) -> (Storage.lastActive b < now)%Z) ->
          exists book',
            fst (Storage.updateBookProgress bookId page now db)
            = Storage.Resolved book'
            /\ hd_error (Storage.getAllBooks
                           (snd (Storage.updateBookProgress bookId page now db)))
               = Some book').
Proof.
  intro db. split; [apply getAllBooks_perm|]. split; [apply getAllBooks_sorted|].
  intros bookId page now book Hb Hlt.
  rewrite (@updateBookProgress_found bookId page now db book Hb). cbv zeta. cbn [fst snd].
  eexists. split; [reflexivity|].
  match goal with
  | |- hd_error (Storage.getAllBooks ?d) = Some ?b =>
      set (db' := d); set (book' := b)
  end.
  assert (Hin : In book' (Storage.getAllBooks db')).
  { apply (Permutation_in _ (Permutation_sym (getAllBooks_perm db'))).
    apply storePut_In_new. }
  pose proof (getAllBooks_sorted db') as Hs.
  destruct (Storage.getAllBooks db') as [|h rest] eqn:El; [contradiction|].
  cbn [hd_error]. f_equal.
  assert (Hh : In h (Storage.books db')).
  { apply (Permutation_in _ (getAllBooks_perm db')). rewrite El. now left. }
  apply storePut_In in Hh. destruct Hh as [Hh|Hh]; [exact Hh|].
  destruct Hin as [Hin|Hin]; [exact Hin|].
  apply StronglySorted_inv in Hs. destruct Hs as [_ Hall].
  rewrite Forall_forall in Hall. specialize (Hall _ Hin).
  specialize (Hlt _ Hh). subst book'. cbn in Hall. lia.
Qed.
